(** * Room pairing and chunked file relay of [server.js]

    A shallow embedding of the Socket.IO handlers of [src/server.js]
    ([join-room], [start-transfer], the three read-stream listeners and
    [disconnect]) as functions on an explicit server state, together with
    the properties of the relay protocol that are proved about them.

    Conventions of the embedding.
    - Node runs every handler to completion before the next one starts, so
      one handler call is one atomic step of the state machine.
    - [rooms] is an insertion-ordered association list of its own
      properties, because the [disconnect] handler walks it with
      [for ... in]; a room code is chosen by the client, so [rooms[roomId]]
      is read through the prototype chain: what [Object.prototype] holds,
      and what the handler writes on it, is part of the state.
      [activeTransfers] is indexed by socket ids, which Socket.IO
      generates (twenty random characters), and is a finite map.
    - The file system is a finite map from normalised paths to the bytes
      of the regular files and one from paths to the directories.
    - Socket ids, room codes and file ids are strings; byte counts are
      integers below 2^53, where JavaScript numbers are exact.  The
      percentage is computed in binary64, as JavaScript does.
    - An exception that escapes a listener is not caught anywhere in the
      file, so it ends the Node process: the step has no successor. *)

From Stdlib Require Import ZArith QArith Qround Qminmax Qpower Ascii String List Sorted Lia Lqa.
From Stdlib Require Strings.Byte DecimalString DecimalN.
From Stdlib Require PrimFloat FloatOps Uint63.
From stdpp Require Import gmap strings list fin_maps.

Local Open Scope Z_scope.
Local Open Scope string_scope.
Local Open Scope list_scope.

(** ** String helpers standing for the JavaScript built-ins used *)

Module Js.

(** [s.split(sep)] for a one-character separator. *)
Fixpoint split (sep : ascii) (s : string) : list string :=
  match s with
  | EmptyString => [EmptyString]
  | String c s' =>
      if Ascii.eqb c sep then EmptyString :: split sep s'
      else match split sep s' with
           | [] => [String c EmptyString]
           | h :: t => String c h :: t
           end
  end.

(** [parts.join(sep)]. *)
Fixpoint join (sep : string) (parts : list string) : string :=
  match parts with
  | [] => EmptyString
  | [p] => p
  | p :: rest => p +:+ sep +:+ join sep rest
  end.

(** [parts.slice(1)]. *)
Definition slice1 (parts : list string) : list string := tail parts.

(** [s.toLowerCase()].  Only the letters A-Z are mapped: no other
    character lowers to a character occurring in a key of [mimeTypes]. *)
Definition lower_ascii (c : ascii) : ascii :=
  let n := nat_of_ascii c in
  if (Nat.leb 65 n && Nat.leb n 90)%bool then ascii_of_nat (n + 32) else c.

Fixpoint toLowerCase (s : string) : string :=
  match s with
  | EmptyString => EmptyString
  | String c s' => String (lower_ascii c) (toLowerCase s')
  end.

(** JavaScript truthiness of a value that is [null] or a string. *)
Definition truthy (v : option string) : bool :=
  match v with
  | None => false
  | Some s => negb (String.eqb s EmptyString)
  end.

(** [v === id] for [v] that is [null] or a string. *)
Definition strict_eq (v : option string) (id : string) : bool :=
  match v with
  | None => false
  | Some s => String.eqb s id
  end.

(** [Math.round]: the nearest integer, halves going up. *)
Definition Math_round (q : Q) : Z := Qfloor (q + (1 # 2))%Q.

(** *** Numbers

    A JavaScript number is a binary64 value, and the result of [/] and [*]
    is the exact result rounded to the nearest such value, ties going to
    the even significand.  A finite binary64 value is a rational, so the
    rounding is a function on the rationals: a positive [q] with
    [2^k <= q < 2^(k+1)] is scaled to a significand in [2^52, 2^53),
    rounded to an integer and scaled back.  The exponent is not limited
    here; the quotients and products taken below, of byte counts under
    2^53, stay within the normal range of binary64. *)

Definition pow2 (e : Z) : Q := (2 ^ e)%Q.

(** The [k] with [2^k <= q < 2^(k+1)], for positive [q]. *)
Definition ilog2 (q : Q) : Z :=
  let d := Z.log2 (Qnum q) - Z.log2 (Zpos (Qden q)) in
  if Qle_bool (pow2 d) q then d else d - 1.

Definition round_half_even (q : Q) : Z :=
  let n := Qfloor q in
  match Qcompare (q - inject_Z n) (1 # 2) with
  | Lt => n
  | Gt => n + 1
  | Eq => if Z.even n then n else n + 1
  end.

Definition nearest (q : Q) : Q :=
  let e := ilog2 q - 52 in
  (inject_Z (round_half_even (q / pow2 e)) * pow2 e)%Q.

(** The binary64 value nearest to [q]. *)
Definition to_f64 (q : Q) : Q :=
  match Qcompare q 0 with
  | Eq => 0%Q
  | Gt => nearest q
  | Lt => (- nearest (- q))%Q
  end.

(** [a / b] and [a * b] on numbers. *)
Definition div (a b : Q) : Q := to_f64 (a / b).
Definition mul (a b : Q) : Q := to_f64 (a * b).

End Js.

(** ** The part of Node's [path] module (POSIX flavour) that is used *)

Module Path.

Definition starts_with_slash (p : string) : bool :=
  match p with
  | String c _ => Ascii.eqb c "/"%char
  | EmptyString => false
  end.

Fixpoint ends_with_slash (p : string) : bool :=
  match p with
  | EmptyString => false
  | String c EmptyString => Ascii.eqb c "/"%char
  | String _ p' => ends_with_slash p'
  end.

(** The loop of [normalizeString] over the [/]-separated segments, with
    the segments kept so far held most recent first: empty segments and
    [.] are dropped, [..] takes away the segment before it, and where
    there is none to take, or only [..], it is kept if the path is
    relative and dropped if it is absolute. *)
Fixpoint normalize_segments (allowAboveRoot : bool) (kept segs : list string)
  : list string :=
  match segs with
  | [] => kept
  | seg :: rest =>
      if (String.eqb seg EmptyString || String.eqb seg ".")%bool then
        normalize_segments allowAboveRoot kept rest
      else if String.eqb seg ".." then
        match kept with
        | top :: below =>
            if String.eqb top ".." then
              normalize_segments allowAboveRoot
                                 (if allowAboveRoot then ".." :: kept else kept) rest
            else normalize_segments allowAboveRoot below rest
        | [] =>
            normalize_segments allowAboveRoot
                               (if allowAboveRoot then [".."] else []) rest
        end
      else normalize_segments allowAboveRoot (seg :: kept) rest
  end.

(** [path.normalize(p)]. *)
Definition normalize (p : string) : string :=
  if String.eqb p EmptyString then "."
  else
    let isAbsolute := starts_with_slash p in
    let trailingSeparator := ends_with_slash p in
    let res := Js.join "/" (rev (normalize_segments (negb isAbsolute) []
                                                    (Js.split "/"%char p))) in
    if String.eqb res EmptyString then
      if isAbsolute then "/" else if trailingSeparator then "./" else "."
    else
      (if isAbsolute then "/" else EmptyString) +:+ res
      +:+ (if trailingSeparator then "/" else EmptyString).

(** [path.join(dir, name)]: the non-empty arguments joined by [/], then
    normalised. *)
Definition join (dir name : string) : string :=
  if String.eqb dir EmptyString then
    if String.eqb name EmptyString then "." else normalize name
  else if String.eqb name EmptyString then normalize dir
  else normalize (dir +:+ "/" +:+ name).

(** A path without the separator it may end in; the root stays. *)
Fixpoint strip_slash (p : string) : string :=
  match p with
  | EmptyString => EmptyString
  | String c EmptyString => String c EmptyString
  | String c (String d EmptyString) =>
      if Ascii.eqb d "/"%char then String c EmptyString
      else String c (String d EmptyString)
  | String c p' => String c (strip_slash p')
  end.

(** [path.basename(p)]: the last non-empty [/]-separated portion. *)
Definition basename (p : string) : string :=
  List.last (List.filter (fun seg => negb (String.eqb seg EmptyString))
                         (Js.split "/"%char p)) EmptyString.

(** Index of the last dot of [s], if any. *)
Fixpoint last_dot (s : string) : option nat :=
  match s with
  | EmptyString => None
  | String c s' =>
      match last_dot s' with
      | Some i => Some (S i)
      | None => if Ascii.eqb c "."%char then Some O else None
      end
  end.

Fixpoint drop_chars (n : nat) (s : string) : string :=
  match n, s with
  | O, _ => s
  | S n', String _ s' => drop_chars n' s'
  | S _, EmptyString => EmptyString
  end.

(** [path.extname(p)]: from the last dot of the base name to its end;
    empty when there is no dot, when the only dot is the first character,
    and for the base name [..]. *)
Definition extname (p : string) : string :=
  let b := basename p in
  match last_dot b with
  | None => EmptyString
  | Some O => EmptyString
  | Some i => if String.eqb b ".." then EmptyString else drop_chars i b
  end.

End Path.

(** ** [getMimeType] *)

Definition mimeTypes : list (string * string) :=
  [ (".html", "text/html"); (".js", "text/javascript"); (".css", "text/css");
    (".json", "application/json"); (".png", "image/png"); (".jpg", "image/jpg");
    (".gif", "image/gif"); (".svg", "image/svg+xml"); (".wav", "audio/wav");
    (".mp4", "video/mp4"); (".woff", "application/font-woff");
    (".ttf", "application/font-ttf");
    (".eot", "application/vnd.ms-fontobject");
    (".otf", "application/font-otf"); (".wasm", "application/wasm") ].

Fixpoint assoc (k : string) (tbl : list (string * string)) : option string :=
  match tbl with
  | [] => None
  | (k', v) :: rest => if String.eqb k' k then Some v else assoc k rest
  end.

Definition getMimeType (filePath : string) : string :=
  let ext := Js.toLowerCase (Path.extname filePath) in
  match assoc ext mimeTypes with
  | Some t => t
  | None => "application/octet-stream"
  end.

(** ** Progress percentage *)

(** [Math.min(100, Math.round((sentBytes / size) * 100))], the expression
    that occurs twice in the [data] listener.  The quotient and the product
    are binary64 operations, so the value can be the neighbour of the one
    the exact quotient gives when that lies within rounding error of a half
    (14 and not 15 for 29 of 200 bytes).  The listener only runs for a
    chunk of a non-empty file, so [size] is positive wherever the
    expression is evaluated. *)
Definition progress (sentBytes size : Z) : Z :=
  Z.min 100 (Js.Math_round
               (Js.mul (Js.div (inject_Z sentBytes) (inject_Z size)) 100)).

(** The percentage as the specification words it,
    [floor(min(100, round(bytesSent / totalBytes * 100)))], read over the
    rationals and read with the operations of JavaScript. *)
Definition spec_progress (bytesSent totalBytes : Z) : Z :=
  Qfloor (Qmin 100 (inject_Z
    (Js.Math_round (inject_Z bytesSent / inject_Z totalBytes * 100)%Q))).

Definition spec_progress_f64 (bytesSent totalBytes : Z) : Z :=
  Qfloor (Qmin 100 (inject_Z
    (Js.Math_round (Js.mul (Js.div (inject_Z bytesSent) (inject_Z totalBytes)) 100)))).

(** ** Data model *)

(** A room as the [join-room] handler creates it:
    [{ sender: null, receiver: null, fileId: null }]. *)
Record Room := mkRoom {
  sender : option string;
  receiver : option string;
  room_fileId : option string
}.

(** The tracking record stored in [activeTransfers[socket.id]]. *)
Record Transfer := mkTransfer {
  fileId : string;
  receiverId : string;
  filePath : string;
  sentBytes : Z;
  totalBytes : Z
}.

(** The [fileInfo] object sent with [transfer-started]. *)
Record FileInfo := mkFileInfo {
  fi_id : string;
  fi_name : string;
  fi_size : Z;
  fi_type : string
}.

(** Messages the server emits.  [file_chunk] carries the bytes of the
    chunk; on the wire they travel as their base64 text. *)
Inductive Event :=
  | room_joined (role roomId : string)
  | room_full
  | user_joined (peer : string)
  | transfer_started (info : FileInfo)
  | file_chunk (fid : string) (chunk : list Byte.byte) (pct : Z)
  | transfer_progress (pct : Z)
  | transfer_complete
  | transfer_error (message : string)
  | transfer_cancelled.

(** [socket.emit(..)] addresses the calling socket; [io.to(x).emit(..)]
    addresses the Socket.IO group named [x]. *)
Inductive Dest :=
  | to_socket (id : string)
  | to_group (name : string).

Definition Emit : Type := Dest * Event.

(** A read stream opened by [start-transfer]: the variables its listeners
    close over ([socket.id], [fileId], [receiverId], [filePath],
    [stats.size]), the chunks it has still to deliver, and whether it can
    still fire. *)
Record ReadStream := mkReadStream {
  rs_socket : string;
  rs_fileId : string;
  rs_receiverId : string;
  rs_filePath : string;
  rs_size : Z;
  rs_pending : list (list Byte.byte);
  rs_open : bool
}.

(** What the handlers can reach of [Object.prototype], the prototype of
    [rooms]: the properties [sender] and [receiver], which exist there
    once a join of the code [__proto__] has written them, and the
    properties of the same names on the built-in functions that
    [Object.prototype] holds, which exist once a join of the name of the
    function ([constructor], [toString], ...) has written them. *)
Record Prototype := mkPrototype {
  proto_sender : option string;
  proto_receiver : option string;
  fn_sender : gmap string string;
  fn_receiver : gmap string string
}.

(** The state the handlers share: the two global objects, the regular
    files, the open read streams, the pending [setTimeout] callbacks (each
    deletes one path), the Socket.IO group memberships, the prototype of
    the global objects and the directories.  [uploads] maps the path of
    each regular file to its bytes and [dirs] the path of each directory to
    the size [fs.statSync] reports for it; [fs.existsSync] is the presence
    of the path in one of the two. *)
Record Server := mkServer {
  rooms : list (string * Room);
  activeTransfers : gmap string Transfer;
  uploads : gmap string (list Byte.byte);
  streams : list ReadStream;
  timers : list string;
  groups : gset (string * string);
  prototype : Prototype;
  dirs : gmap string Z
}.

(** What can happen to the server: a client message, a stream event or an
    expired timer.  Room codes are strings, and so are the [fileId] and
    the [receiverId] of [StartTransfer]; a [start-transfer] whose payload
    is missing, or whose [fileId] is not a string, is the input
    [StartTransferMalformed]. *)
Inductive Input :=
  | JoinRoom (id roomId : string)
  | StartTransfer (id fid rid : string)
  | StartTransferMalformed (id : string)
  | Disconnect (id : string)
  | StreamData (n : nat)
  | StreamEnd (n : nat)
  | StreamError (n : nat)
  | Timeout (n : nat).

#[global] Instance Input_eq_dec : EqDecision Input.
Proof. solve_decision. Defined.

(** ** The [rooms] object *)

Definition empty_room : Room :=
  {| sender := None; receiver := None; room_fileId := None |}.

(** The own property [k] of [rooms], if there is one. *)
Fixpoint rooms_get (k : string) (rs : list (string * Room)) : option Room :=
  match rs with
  | [] => None
  | (k', r) :: rest => if String.eqb k' k then Some r else rooms_get k rest
  end.

(** [rooms[k] = r]: an existing key keeps its place, a new key goes last. *)
Fixpoint rooms_set (k : string) (r : Room) (rs : list (string * Room))
  : list (string * Room) :=
  match rs with
  | [] => [(k, r)]
  | (k', r') :: rest =>
      if String.eqb k' k then (k', r) :: rest else (k', r') :: rooms_set k r rest
  end.

(** [delete rooms[k]]. *)
Fixpoint rooms_delete (k : string) (rs : list (string * Room))
  : list (string * Room) :=
  match rs with
  | [] => []
  | (k', r') :: rest =>
      if String.eqb k' k then rooms_delete k rest else (k', r') :: rooms_delete k rest
  end.

(** *** Enumeration order of [for (const roomId in rooms)]

    Keys that are array indices (canonical decimal numerals below
    2^32 - 1) come first in ascending numeric order, the other keys follow
    in insertion order. *)

Definition digit_val (c : ascii) : option N :=
  let n := N_of_ascii c in
  if ((48 <=? n) && (n <=? 57))%N then Some (n - 48)%N else None.

Fixpoint parse_dec (acc : N) (s : string) : option N :=
  match s with
  | EmptyString => Some acc
  | String c s' =>
      match digit_val c with
      | Some d => parse_dec (10 * acc + d)%N s'
      | None => None
      end
  end.

Definition array_index (s : string) : option N :=
  match s with
  | EmptyString => None
  | String c s' =>
      if (Ascii.eqb c "0"%char && negb (String.eqb s' EmptyString))%bool then None
      else match parse_dec 0%N s with
           | Some n => if (n <? 4294967295)%N then Some n else None
           | None => None
           end
  end.

Fixpoint insert_index (x : N * string) (l : list (N * string)) : list (N * string) :=
  match l with
  | [] => [x]
  | y :: rest => if (fst x <? fst y)%N then x :: l else y :: insert_index x rest
  end.

Definition sort_indices (l : list (N * string)) : list (N * string) :=
  fold_right insert_index [] l.

Definition index_entry (k : string) : option (N * string) :=
  match array_index k with
  | Some n => Some (n, k)
  | None => None
  end.

Definition for_in_keys (rs : list (string * Room)) : list string :=
  let ks := map fst rs in
  map snd (sort_indices (omap index_entry ks))
  ++ List.filter (fun k => match array_index k with None => true | Some _ => false end) ks.

(** ** Reading a file *)

(** [__dirname], the directory that holds [server.js].  Its value depends
    on where the application is installed; [/app/backend] stands for it. *)
Definition dirname : string := "/app/backend".

(** The upload directory, [path.join(__dirname, 'uploads')]. *)
Definition uploadsDir : string := Eval cbv in Path.join dirname "uploads".

(** [fs.createReadStream] delivers the file in buffers of at most its
    default [highWaterMark] of 64 KiB (the constant [chunkSize] of the
    handler has the same value and is not used). *)
Definition highWaterMark : nat := 64 * 1024.

Fixpoint chunks_fuel (fuel size : nat) (data : list Byte.byte) : list (list Byte.byte) :=
  match fuel with
  | O => []
  | S fuel' =>
      match data with
      | [] => []
      | _ :: _ => take size data :: chunks_fuel fuel' size (drop size data)
      end
  end.

(** The chunks a stream over [data] delivers; there are at most
    [length data] of them, which is the fuel given. *)
Definition chunks_of (size : nat) (data : list Byte.byte) : list (list Byte.byte) :=
  chunks_fuel (length data) size data.

(** ** State updates *)

Definition with_rooms (st : Server) (v : list (string * Room)) : Server :=
  mkServer v (activeTransfers st) (uploads st) (streams st) (timers st) (groups st)
           (prototype st) (dirs st).
Definition with_transfers (st : Server) (v : gmap string Transfer) : Server :=
  mkServer (rooms st) v (uploads st) (streams st) (timers st) (groups st)
           (prototype st) (dirs st).
Definition with_uploads (st : Server) (v : gmap string (list Byte.byte)) : Server :=
  mkServer (rooms st) (activeTransfers st) v (streams st) (timers st) (groups st)
           (prototype st) (dirs st).
Definition with_streams (st : Server) (v : list ReadStream) : Server :=
  mkServer (rooms st) (activeTransfers st) (uploads st) v (timers st) (groups st)
           (prototype st) (dirs st).
Definition with_timers (st : Server) (v : list string) : Server :=
  mkServer (rooms st) (activeTransfers st) (uploads st) (streams st) v (groups st)
           (prototype st) (dirs st).
Definition with_groups (st : Server) (v : gset (string * string)) : Server :=
  mkServer (rooms st) (activeTransfers st) (uploads st) (streams st) (timers st) v
           (prototype st) (dirs st).
Definition with_prototype (st : Server) (v : Prototype) : Server :=
  mkServer (rooms st) (activeTransfers st) (uploads st) (streams st) (timers st)
           (groups st) v (dirs st).

Definition add_sent (t : Transfer) (n : Z) : Transfer :=
  mkTransfer (fileId t) (receiverId t) (filePath t) (sentBytes t + n) (totalBytes t).

Definition set_pending (rs : ReadStream) (p : list (list Byte.byte)) : ReadStream :=
  mkReadStream (rs_socket rs) (rs_fileId rs) (rs_receiverId rs) (rs_filePath rs)
               (rs_size rs) p (rs_open rs).

Definition close_stream (rs : ReadStream) : ReadStream :=
  mkReadStream (rs_socket rs) (rs_fileId rs) (rs_receiverId rs) (rs_filePath rs)
               (rs_size rs) (rs_pending rs) false.

(** ** Indexing [rooms] *)

(** The names [Object.prototype] holds besides the accessor [__proto__];
    each is a built-in function. *)
Definition builtin_functions : list string :=
  [ "constructor"; "__defineGetter__"; "__defineSetter__"; "hasOwnProperty";
    "__lookupGetter__"; "__lookupSetter__"; "isPrototypeOf";
    "propertyIsEnumerable"; "toString"; "valueOf"; "toLocaleString" ].

(** What [rooms[roomId]] can evaluate to: a room the handler created, the
    object [Object.prototype] itself (for [__proto__]), one of its
    built-in functions, a socket id that a join of [__proto__] stored on
    it (for the codes [sender] and [receiver]), or [undefined]. *)
Inductive RoomValue :=
  | own_room (r : Room)
  | proto_object
  | builtin_function (name : string)
  | inherited_string (v : string)
  | no_value.

(** The value the prototype chain gives for a key that is not an own
    property of [rooms]. *)
Definition inherited_value (k : string) (p : Prototype) : RoomValue :=
  if String.eqb k "__proto__" then proto_object
  else if existsb (String.eqb k) builtin_functions then builtin_function k
  else if String.eqb k "sender" then
    match proto_sender p with Some v => inherited_string v | None => no_value end
  else if String.eqb k "receiver" then
    match proto_receiver p with Some v => inherited_string v | None => no_value end
  else no_value.

(** [rooms[roomId]]. *)
Definition rooms_index (roomId : string) (st : Server) : RoomValue :=
  match rooms_get roomId (rooms st) with
  | Some r => own_room r
  | None => inherited_value roomId (prototype st)
  end.

(** Truthiness of [rooms[roomId]]. *)
Definition value_truthy (v : RoomValue) : bool :=
  match v with
  | own_room _ | proto_object | builtin_function _ => true
  | inherited_string s => Js.truthy (Some s)
  | no_value => false
  end.

(** [rooms[roomId].sender] and [rooms[roomId].receiver]: an own property
    of the value, or else what its prototype chain, which ends in
    [Object.prototype], gives. *)
Definition get_sender (roomId : string) (st : Server) : option string :=
  match rooms_index roomId st with
  | own_room r => sender r
  | builtin_function f =>
      match fn_sender (prototype st) !! f with
      | Some v => Some v
      | None => proto_sender (prototype st)
      end
  | proto_object | inherited_string _ => proto_sender (prototype st)
  | no_value => None
  end.

Definition get_receiver (roomId : string) (st : Server) : option string :=
  match rooms_index roomId st with
  | own_room r => receiver r
  | builtin_function f =>
      match fn_receiver (prototype st) !! f with
      | Some v => Some v
      | None => proto_receiver (prototype st)
      end
  | proto_object | inherited_string _ => proto_receiver (prototype st)
  | no_value => None
  end.

(** [rooms[roomId].sender = id] and [rooms[roomId].receiver = id].  The
    property is written on the object that [rooms[roomId]] is; on a string
    the assignment does nothing (the file is not in strict mode). *)
Definition set_sender (roomId id : string) (st : Server) : Server :=
  let p := prototype st in
  match rooms_index roomId st with
  | own_room r =>
      with_rooms st (rooms_set roomId (mkRoom (Some id) (receiver r) (room_fileId r))
                               (rooms st))
  | proto_object =>
      with_prototype st (mkPrototype (Some id) (proto_receiver p)
                                     (fn_sender p) (fn_receiver p))
  | builtin_function f =>
      with_prototype st (mkPrototype (proto_sender p) (proto_receiver p)
                                     (<[f := id]> (fn_sender p)) (fn_receiver p))
  | inherited_string _ | no_value => st
  end.

Definition set_receiver (roomId id : string) (st : Server) : Server :=
  let p := prototype st in
  match rooms_index roomId st with
  | own_room r =>
      with_rooms st (rooms_set roomId (mkRoom (sender r) (Some id) (room_fileId r))
                               (rooms st))
  | proto_object =>
      with_prototype st (mkPrototype (proto_sender p) (Some id)
                                     (fn_sender p) (fn_receiver p))
  | builtin_function f =>
      with_prototype st (mkPrototype (proto_sender p) (proto_receiver p)
                                     (fn_sender p) (<[f := id]> (fn_receiver p)))
  | inherited_string _ | no_value => st
  end.

(** ** The handlers *)

(** [socket.on('join-room', (roomId) => ...)] for the socket [id]. *)
Definition join_room (id roomId : string) (st : Server) : Server * list Emit :=
  let joined := {[ (roomId, id) ]} ∪ groups st in
  let st1 := if value_truthy (rooms_index roomId st) then st
             else with_rooms st (rooms_set roomId empty_room (rooms st)) in
  if negb (Js.truthy (get_sender roomId st1)) then
    (with_groups (set_sender roomId id st1) joined,
     [(to_socket id, room_joined "sender" roomId)])
  else if negb (Js.truthy (get_receiver roomId st1)) then
    (with_groups (set_receiver roomId id st1) joined,
     [(to_socket id, room_joined "receiver" roomId);
      (to_group (default EmptyString (get_sender roomId st1)), user_joined id)])
  else
    (with_groups st1 (joined ∖ {[ (roomId, id) ]}),
     [(to_socket id, room_full)]).

(** The display name computed for [fileInfo.name]. *)
Definition display_name (path : string) : string :=
  Js.join "-" (Js.slice1 (Js.split "-"%char (Path.basename path))).

(** The [start-transfer] handler from [fs.statSync] on: the [fileInfo]
    object, the tracking record, the announcement to the receiver and the
    read stream, for a path of the given size whose stream will deliver
    the given chunks. *)
Definition begin_transfer (id fid rid path : string) (size : Z)
    (chunks : list (list Byte.byte)) (st : Server) : Server * list Emit :=
  let fileInfo := mkFileInfo fid (display_name path) size (getMimeType path) in
  let readStream := mkReadStream id fid rid path size chunks true in
  (with_streams
     (with_transfers st (<[id := mkTransfer fid rid path 0 size]> (activeTransfers st)))
     (streams st ++ [readStream]),
   [(to_group rid, transfer_started fileInfo)]).

(** [socket.on('start-transfer', (data) => ...)] for a payload with a
    string [fileId].  [fs.existsSync] holds of a regular file and of a
    directory alike.  A stream over a directory has nothing to deliver:
    its first read fails, and [error] is the one event it fires. *)
Definition start_transfer (id fid rid : string) (st : Server) : Server * list Emit :=
  let path := Path.join uploadsDir fid in
  match uploads st !! path with
  | Some content =>
      begin_transfer id fid rid path (Z.of_nat (length content))
                     (chunks_of highWaterMark content) st
  | None =>
      match dirs st !! Path.strip_slash path with
      | Some size => begin_transfer id fid rid path size [] st
      | None => (st, [(to_socket id, transfer_error "File not found on server")])
      end
  end.

(** [readStream.on('data', (chunk) => ...)].  Reading
    [activeTransfers[socket.id].sentBytes] of a missing record throws a
    [TypeError] while the payload of [file-chunk] is being built, before
    anything is emitted: the result is [None]. *)
Definition on_data (rs : ReadStream) (chunk : list Byte.byte) (st : Server)
  : option (Server * list Emit) :=
  match activeTransfers st !! rs_socket rs with
  | None => None
  | Some t =>
      let e1 := (to_group (rs_receiverId rs),
                 file_chunk (rs_fileId rs) chunk (progress (sentBytes t) (rs_size rs))) in
      let t' := add_sent t (Z.of_nat (length chunk)) in
      let e2 := (to_socket (rs_socket rs),
                 transfer_progress (progress (sentBytes t') (rs_size rs))) in
      Some (with_transfers st (<[rs_socket rs := t']> (activeTransfers st)), [e1; e2])
  end.

(** [readStream.on('end', () => ...)]: both parties are told, and the
    deletion of the file is handed to [setTimeout]. *)
Definition on_end (rs : ReadStream) (st : Server) : Server * list Emit :=
  (with_timers st (timers st ++ [rs_filePath rs]),
   [(to_socket (rs_socket rs), transfer_complete);
    (to_group (rs_receiverId rs), transfer_complete)]).

(** [readStream.on('error', (err) => ...)]. *)
Definition on_error (rs : ReadStream) (st : Server) : Server * list Emit :=
  (with_transfers st (delete (rs_socket rs) (activeTransfers st)),
   [(to_socket (rs_socket rs), transfer_error "Error reading file");
    (to_group (rs_receiverId rs), transfer_error "Error transferring file")]).

(** The callback given to [setTimeout]: delete the file if it is there. *)
Definition on_timeout (path : string) (st : Server) : Server :=
  with_uploads st (delete path (uploads st)).

(** [rooms[roomId].sender === id || rooms[roomId].receiver === id]. *)
Definition occupies (id : string) (r : Room) : bool :=
  (Js.strict_eq (sender r) id || Js.strict_eq (receiver r) id)%bool.

(** The loop over [rooms] of the [disconnect] handler, run over the keys
    still to visit: the first room holding [id] is deleted and the loop
    stops.  The keys are the own properties; the inherited [sender] and
    [receiver], which the loop would visit after them once a join of
    [__proto__] has put them on the prototype, name nothing that [delete]
    could remove from [rooms]. *)
Fixpoint cleanup_rooms (id : string) (keys : list string) (rs : list (string * Room))
  : list (string * Room) :=
  match keys with
  | [] => rs
  | roomId :: keys' =>
      match rooms_get roomId rs with
      | Some r =>
          if occupies id r then rooms_delete roomId rs
          else cleanup_rooms id keys' rs
      | None => cleanup_rooms id keys' rs
      end
  end.

(** [socket.on('disconnect', () => ...)] for the socket [id]. *)
Definition disconnect (id : string) (st : Server) : Server * list Emit :=
  let '(transfers, out) :=
    match activeTransfers st !! id with
    | Some t => (delete id (activeTransfers st),
                 [(to_group (receiverId t), transfer_cancelled)])
    | None => (activeTransfers st, [])
    end in
  (with_rooms (with_transfers st transfers)
              (cleanup_rooms id (for_in_keys (rooms st)) (rooms st)),
   out).

(** ** The server as a state machine *)

Definition set_stream (n : nat) (rs : ReadStream) (st : Server) : Server :=
  with_streams st (<[n := rs]> (streams st)).

(** Socket.IO takes a socket that disconnects out of every group. *)
Definition leave_all (id : string) (st : Server) : Server :=
  with_groups st (filter (fun p => p.2 ≠ id) (groups st)).

(** One step.  A stream event that the stream cannot produce in its
    current state (no such stream, stream closed, [data] with nothing left,
    [end] with chunks left) and a timer that does not exist change
    nothing.  [None] is the uncaught exception: the [data] listener
    reading a record that is gone, and [start-transfer] destructuring a
    missing payload or handing a [fileId] that is not a string to
    [path.join]. *)
Definition step (st : Server) (i : Input) : option (Server * list Emit) :=
  match i with
  | JoinRoom id roomId => Some (join_room id roomId st)
  | StartTransfer id fid rid => Some (start_transfer id fid rid st)
  | StartTransferMalformed _ => None
  | Disconnect id =>
      let '(st', out) := disconnect id st in Some (leave_all id st', out)
  | StreamData n =>
      match streams st !! n with
      | Some rs =>
          match rs_open rs, rs_pending rs with
          | true, chunk :: rest => on_data rs chunk (set_stream n (set_pending rs rest) st)
          | _, _ => Some (st, [])
          end
      | None => Some (st, [])
      end
  | StreamEnd n =>
      match streams st !! n with
      | Some rs =>
          match rs_open rs, rs_pending rs with
          | true, [] => Some (on_end rs (set_stream n (close_stream rs) st))
          | _, _ => Some (st, [])
          end
      | None => Some (st, [])
      end
  | StreamError n =>
      match streams st !! n with
      | Some rs =>
          if rs_open rs then Some (on_error rs (set_stream n (close_stream rs) st))
          else Some (st, [])
      | None => Some (st, [])
      end
  | Timeout n =>
      match timers st !! n with
      | Some path => Some (on_timeout path (with_timers st (delete n (timers st))), [])
      | None => Some (st, [])
      end
  end.

(** The log of a run: each input handled with what it made the server
    emit.  The log stops at the input whose listener throws. *)
Fixpoint trace (st : Server) (ins : list Input) : list (Input * list Emit) :=
  match ins with
  | [] => []
  | i :: rest =>
      match step st i with
      | Some (st', out) => (i, out) :: trace st' rest
      | None => []
      end
  end.

(** The state reached after all of [ins], if no listener threw. *)
Fixpoint run (st : Server) (ins : list Input) : option Server :=
  match ins with
  | [] => Some st
  | i :: rest =>
      match step st i with
      | Some (st', _) => run st' rest
      | None => None
      end
  end.

(** The server once it listens: nothing joined, nothing in transfer, an
    untouched [Object.prototype], and the upload directory in place below
    the directories that lead to it (lines 25 to 28 create it if need be).
    4096 is the size the usual file systems report for a directory. *)
Definition initial (files : gmap string (list Byte.byte)) : Server :=
  mkServer [] ∅ files [] [] ∅ (mkPrototype None None ∅ ∅)
           (<[uploadsDir := 4096]> (<[dirname := 4096]> (<["/app" := 4096]>
              {[ "/" := 4096 ]}))).

(** ** Observing a run *)

(** Sum of the byte lengths of a list of chunks. *)
Definition total_length (cs : list (list Byte.byte)) : Z :=
  foldr (fun c acc => Z.of_nat (length c) + acc) 0 cs.

(** The progress value an emitted message carries, if it carries one. *)
Definition progress_of (e : Emit) : option Z :=
  match snd e with
  | file_chunk _ _ p => Some p
  | transfer_progress p => Some p
  | _ => None
  end.

Definition progress_values (out : list Emit) : list Z := omap progress_of out.

(** The bytes of an emitted [file-chunk]. *)
Definition chunk_of (e : Emit) : option (list Byte.byte) :=
  match snd e with
  | file_chunk _ c _ => Some c
  | _ => None
  end.

Definition chunks_emitted (out : list Emit) : list (list Byte.byte) := omap chunk_of out.

Definition is_file_chunk (e : Emit) : bool :=
  match chunk_of e with Some _ => true | None => false end.

(** The stream an input belongs to, and the client that sent it. *)
Definition stream_of (i : Input) : option nat :=
  match i with
  | StreamData n | StreamEnd n | StreamError n => Some n
  | _ => None
  end.

Definition client_of (i : Input) : option string :=
  match i with
  | JoinRoom id _ | StartTransfer id _ _ | StartTransferMalformed id
  | Disconnect id => Some id
  | _ => None
  end.

(** What the listeners of stream [n] emitted in a log. *)
Definition session_out (n : nat) (log : list (Input * list Emit)) : list Emit :=
  flat_map (fun entry => if decide (stream_of (fst entry) = Some n) then snd entry else []) log.

(** Whether the room stored under [k] holds the socket [id]. *)
Definition held_by (id : string) (rs : list (string * Room)) (k : string) : bool :=
  match rooms_get k rs with
  | Some r => occupies id r
  | None => false
  end.

(** The socket [s] does not send a further [start-transfer]. *)
Definition no_restart (s : string) (i : Input) : Prop :=
  match i with
  | StartTransfer id _ _ => id <> s
  | _ => True
  end.

(** Inputs that leave the room [r] with occupants [a] and [b] alone: no
    join of [r] and no disconnect of an occupant. *)
Definition bystander (r a b : string) (i : Input) : Prop :=
  match i with
  | JoinRoom _ r' => r' <> r
  | Disconnect id => id <> a /\ id <> b
  | _ => True
  end.

(** Whether a character occurs in a string. *)
Fixpoint occurs (c : ascii) (s : string) : bool :=
  match s with
  | EmptyString => false
  | String c' s' => (Ascii.eqb c' c || occurs c s')%bool
  end.

(** Two stream records with the same listener closure. *)
Definition same_closure (rs rs' : ReadStream) : Prop :=
  rs_socket rs' = rs_socket rs /\ rs_fileId rs' = rs_fileId rs /\
  rs_receiverId rs' = rs_receiverId rs /\ rs_filePath rs' = rs_filePath rs /\
  rs_size rs' = rs_size rs.

(** A list of integers that never goes down and starts at or above [lo]. *)
Fixpoint nondecreasing_from (lo : Z) (l : list Z) : Prop :=
  match l with
  | [] => True
  | x :: l' => lo <= x /\ nondecreasing_from x l'
  end.

(** The stream [n] of the socket [s] over a file of [total] bytes, of
    which it has emitted [emitted]: while it is open the chunks not yet
    delivered, none of them empty, make up the rest of the file. *)
Definition stream_inv (s : string) (n : nat) (total emitted : Z) (st : Server) : Prop :=
  0 <= emitted /\
  exists rs, streams st !! n = Some rs /\ rs_socket rs = s /\ rs_size rs = total /\
     (rs_open rs = true ->
      emitted + total_length (rs_pending rs) = total /\
      Forall (fun c => c <> []) (rs_pending rs)).

(** The transfer on stream [n] together with the record of its sender:
    the last percentage emitted was computed from the count [lo], which is
    at least what the stream itself has emitted, and the record of [s], as
    long as there is one, counts at least [lo]. *)
Definition transfer_inv (s : string) (n : nat) (total emitted lo : Z) (st : Server) : Prop :=
  stream_inv s n total emitted st /\
  emitted <= lo /\
  (forall t, activeTransfers st !! s = Some t -> lo <= sentBytes t).

(** The record of [s] in [st'], if there is one, continues the record in
    [st] with a byte count that is not smaller. *)
Definition record_grows (s : string) (st st' : Server) : Prop :=
  forall t', activeTransfers st' !! s = Some t' ->
  exists t, activeTransfers st !! s = Some t /\ sentBytes t <= sentBytes t' /\
            totalBytes t' = totalBytes t.

(** ** A small scenario

    One uploaded file of five bytes; the socket [s1] joins room [ABC123],
    [s2] follows, [s1] starts the transfer to [s2]. *)

Module Demo.

Import Strings.Byte.

Definition fid : string := "1699999999999-42-photo.png".
Definition path : string := Path.join uploadsDir fid.
Definition content : list byte := [x89; x50; x4e; x47; x0d].

Definition st0 : Server := initial {[ path := content ]}.

(** Three joins of [ABC123] with other traffic in between. *)
Definition after_first : Server := (join_room "s1" "ABC123" st0).1.
Definition mid1 : list Input := [JoinRoom "s9" "ZZZ"; StartTransfer "s9" fid "s1"].
Definition before_second : Server := default st0 (run after_first mid1).
Definition after_second : Server := (join_room "s2" "ABC123" before_second).1.
Definition mid2 : list Input := [StreamData 0; Disconnect "s9"].
Definition before_third : Server := default st0 (run after_second mid2).

Definition paired : Server :=
  default st0 (run st0 [JoinRoom "s1" "ABC123"; JoinRoom "s2" "ABC123"]).

(** After [start-transfer]: stream 0 is open with the one chunk pending. *)
Definition started : Server := (start_transfer "s1" fid "s2" paired).1.

Definition stream0 : ReadStream :=
  mkReadStream "s1" fid "s2" path 5 [content] true.

Definition record0 : Transfer := mkTransfer fid "s2" path 0 5.

(** After the [data] event: everything is delivered, [end] is next. *)
Definition delivered : Server := default started (run started [StreamData 0]).

(** What stream 0 has emitted by then, and over its whole life. *)
Definition log_delivered : list Emit := session_out 0 (trace started [StreamData 0]).
Definition log_complete : list Emit :=
  session_out 0 (trace started [StreamData 0; StreamEnd 0]).

End Demo.

(** ** A sender that starts a second transfer while the first one runs

    One file of 64 KiB + 1 bytes, which the stream delivers in two chunks;
    [s1] sends [start-transfer] again between the two. *)

Module Overlap.

Import Strings.Byte.

Definition file : string := "1700000000000-7-a.bin".
Definition bytes : list byte := List.repeat x00 (64 * 1024 + 1).
Definition server : Server := initial {[ Path.join uploadsDir file := bytes ]}.

Definition ins : list Input :=
  [StartTransfer "s1" file "s2"; StreamData 0;
   StartTransfer "s1" file "s2"; StreamData 0; StreamEnd 0].

(** What stream 0, the stream of the first transfer, emitted. *)
Definition log0 : list Emit := session_out 0 (trace server ins).

End Overlap.

(** ** The upload route *)

(** The decimal numeral of a non-negative integer, which is what string
    concatenation makes of [Date.now()] and of
    [Math.round(Math.random() * 1E9)]. *)
Definition decimal (n : N) : string :=
  DecimalString.NilEmpty.string_of_uint (N.to_uint n).

(** [req.file] as multer hands it over, with the bytes received. *)
Record UploadedFile := mkUploadedFile {
  originalname : string;
  mimetype : string;
  file_bytes : list Byte.byte
}.

(** The [filename] callback of the disk storage: [now] is [Date.now()]
    and [rnd] the rounded random number. *)
Definition storage_filename (now rnd : N) (file : UploadedFile) : string :=
  let uniqueId := decimal now +:+ "-" +:+ decimal rnd in
  uniqueId +:+ "-" +:+ originalname file.

(** The [fileInfo] object of the upload response. *)
Record UploadInfo := mkUploadInfo {
  up_id : string;
  up_name : string;
  up_size : Z;
  up_type : string;
  up_path : string
}.

Inductive UploadResponse :=
  | upload_failed (status : Z) (message : string)
  | upload_done (fileInfo : UploadInfo).

(** [app.post('/api/upload', upload.single('file'), ...)]: multer has
    written the file, if the request carried one, under the name the
    [filename] callback chose before the handler runs. *)
Definition upload (now rnd : N) (file : option UploadedFile) (st : Server)
  : Server * UploadResponse :=
  match file with
  | None => (st, upload_failed 400 "No file uploaded")
  | Some f =>
      let filename := storage_filename now rnd f in
      let path := Path.join uploadsDir filename in
      (with_uploads st (<[path := file_bytes f]> (uploads st)),
       upload_done (mkUploadInfo filename (originalname f)
                                 (Z.of_nat (length (file_bytes f))) (mimetype f) path))
  end.

(** ** Well-formed rooms *)

(** What every room in the table looks like: the [fileId] slot is still
    [null], and a receiver is only there beside a sender. *)
Definition room_ok (r : Room) : Prop :=
  room_fileId r = None /\ (receiver r <> None -> Js.truthy (sender r) = true).

Definition rooms_ok (rs : list (string * Room)) : Prop :=
  Forall (fun entry => room_ok (snd entry)) rs.

(** ** The bytes a stream relays *)

(** A chunk as a read stream delivers it: not empty and no longer than
    the buffer of the stream. *)
Definition chunk_ok (c : list Byte.byte) : Prop :=
  c <> [] /\ (length c <= highWaterMark)%nat.

(** Stream [n] reads a file with the bytes [content] and has emitted the
    bytes [done] of it: [done] is a prefix of the file and, while the
    stream is open, the chunks still to come are the rest of it. *)
Definition relay_inv (n : nat) (content done : list Byte.byte) (st : Server) : Prop :=
  done `prefix_of` content /\
  exists rs, streams st !! n = Some rs /\
    Forall chunk_ok (rs_pending rs) /\
    (rs_open rs = true -> done ++ concat (rs_pending rs) = content).

(** The socket [s] has no open stream apart from stream [n]. *)
Definition others_closed (s : string) (n : nat) (st : Server) : Prop :=
  forall m rs, m <> n -> streams st !! m = Some rs -> rs_socket rs = s ->
               rs_open rs = false.


(** ** Extensions compared without regard to case

    The letters of the two alphabets side by side: a character is folded
    to the lower-case letter standing under it, and two strings are the
    same up to case when they fold to the same string. *)

Definition upper_letters : string := "ABCDEFGHIJKLMNOPQRSTUVWXYZ".
Definition lower_letters : string := "abcdefghijklmnopqrstuvwxyz".

Fixpoint fold_letter (c : ascii) (uppers lowers : string) : ascii :=
  match uppers, lowers with
  | String u uppers', String l lowers' =>
      if Ascii.eqb c u then l else fold_letter c uppers' lowers'
  | _, _ => c
  end.

Fixpoint fold_case (s : string) : string :=
  match s with
  | EmptyString => EmptyString
  | String c s' => String (fold_letter c upper_letters lower_letters) (fold_case s')
  end.

Definition caseless_eq (a b : string) : bool :=
  String.eqb (fold_case a) (fold_case b).

(** The first entry of a table whose key is the given text up to case. *)
Fixpoint lookup_caseless (k : string) (tbl : list (string * string)) : option string :=
  match tbl with
  | [] => None
  | (k', v) :: rest => if caseless_eq k' k then Some v else lookup_caseless k rest
  end.

(** ** The percentage on primitive floats

    The expression of the [data] listener once more, this time on the
    binary64 numbers of the machine, to compare [progress] with. *)

Definition float_of_count (n : Z) : PrimFloat.float :=
  PrimFloat.of_uint63 (Uint63.of_Z n).

(** The rational that a finite float is. *)
Definition Q_of_float (x : PrimFloat.float) : Q :=
  match FloatOps.Prim2SF x with
  | SpecFloat.S754_finite sign m e =>
      ((if sign then -1 else 1) * inject_Z (Zpos m) * Js.pow2 e)%Q
  | _ => 0%Q
  end.

Definition progress_float (sentBytes size : Z) : Z :=
  Z.min 100 (Js.Math_round
               (Q_of_float (PrimFloat.mul
                              (PrimFloat.div (float_of_count sentBytes)
                                             (float_of_count size))
                              (float_of_count 100)))).

(** Whether the two agree on the counts [from], [from + step], ... *)
Fixpoint agree_on (n : nat) (from step size : Z) : bool :=
  match n with
  | O => true
  | S n' => (Z.eqb (progress from size) (progress_float from size)
             && agree_on n' (from + step) step size)%bool
  end.
(** * Properties *)

(** ** Rounding to binary64 *)

Lemma pow2_pos (e : Z) : (0 < Js.pow2 e)%Q.
Proof. apply Qpower_0_lt. reflexivity. Qed.

Lemma pow2_add (a b : Z) : (Js.pow2 (a + b) == Js.pow2 a * Js.pow2 b)%Q.
Proof. apply Qpower_plus. discriminate. Qed.

Lemma pow2_succ (a : Z) : (Js.pow2 (a + 1) == 2 * Js.pow2 a)%Q.
Proof. rewrite pow2_add. change (Js.pow2 1) with 2%Q. ring. Qed.

Lemma pow2_le (a b : Z) : a <= b -> (Js.pow2 a <= Js.pow2 b)%Q.
Proof. intros H. apply Qpower_le_compat_l; [exact H | discriminate]. Qed.

Lemma pow2_Z (z : Z) : 0 <= z -> (Js.pow2 z == inject_Z (2 ^ z))%Q.
Proof. intros H. unfold Js.pow2. rewrite Zpower_Qpower by exact H. reflexivity. Qed.

Lemma log2_bounds (n : Z) : 0 < n ->
  (Js.pow2 (Z.log2 n) <= inject_Z n /\ inject_Z n < 2 * Js.pow2 (Z.log2 n))%Q.
Proof.
  intros H. destruct (Z.log2_spec n H) as [H1 H2].
  pose proof (Z.log2_nonneg n) as Hn.
  rewrite <- pow2_succ. rewrite !pow2_Z by lia.
  split; [rewrite <- Zle_Qle | rewrite <- Zlt_Qlt]; [exact H1|].
  now rewrite <- Z.add_1_r in H2.
Qed.

Lemma ilog2_spec (q : Q) : (0 < q)%Q ->
  (Js.pow2 (Js.ilog2 q) <= q /\ q < Js.pow2 (Js.ilog2 q + 1))%Q.
Proof.
  intros Hq. unfold Js.ilog2.
  set (a := Qnum q). set (b := Qden q).
  assert (Ha : 0 < a).
  { unfold Qlt in Hq. simpl in Hq. fold a in Hq. lia. }
  destruct (log2_bounds a Ha) as [A1 A2].
  destruct (log2_bounds (Zpos b) ltac:(lia)) as [B1 B2].
  set (la := Z.log2 a) in *. set (lb := Z.log2 (Zpos b)) in *.
  assert (Eq : (q * inject_Z (Zpos b) == inject_Z a)%Q).
  { unfold Qeq, Qmult, inject_Z. simpl. fold a. fold b. lia. }
  assert (Ed : (Js.pow2 (la - lb) * Js.pow2 lb == Js.pow2 la)%Q).
  { rewrite <- pow2_add. replace (la - lb + lb) with la by lia. reflexivity. }
  pose proof (pow2_pos (la - lb)) as Pd.
  pose proof (pow2_pos lb) as Pb.
  pose proof (pow2_pos la) as Pa.
  cbv zeta.
  destruct (Qle_bool (Js.pow2 (la - lb)) q) eqn:Hc.
  - apply Qle_bool_iff in Hc. split; [exact Hc|].
    rewrite pow2_succ.
    generalize dependent (Js.pow2 (la - lb)). generalize dependent (Js.pow2 lb).
    generalize dependent (Js.pow2 la). generalize dependent (inject_Z a).
    generalize dependent (inject_Z (Zpos b)).
    intros B A Eq PA A1 A2 Pa PB B1 B2 Pb D Ed Pd Hc. nra.
  - assert (Hlt : (q < Js.pow2 (la - lb))%Q).
    { apply Qnot_le_lt. intros H. apply Qle_bool_iff in H. congruence. }
    replace (la - lb - 1 + 1) with (la - lb) by lia. split; [|exact Hlt].
    assert (E2 : (Js.pow2 (la - lb) == 2 * Js.pow2 (la - lb - 1))%Q).
    { rewrite <- pow2_succ. replace (la - lb - 1 + 1) with (la - lb) by lia. reflexivity. }
    pose proof (pow2_pos (la - lb - 1)) as Pd1.
    generalize dependent (Js.pow2 (la - lb - 1)).
    generalize dependent (Js.pow2 (la - lb)). generalize dependent (Js.pow2 lb).
    generalize dependent (Js.pow2 la). generalize dependent (inject_Z a).
    generalize dependent (inject_Z (Zpos b)).
    intros B A Eq PA A1 A2 Pa PB B1 B2 Pb D Ed Pd Hc Hlt D1 E2 Pd1. nra.
Qed.

Lemma ilog2_mono (x y : Q) : (0 < x)%Q -> (x <= y)%Q -> Js.ilog2 x <= Js.ilog2 y.
Proof.
  intros Hx Hxy.
  destruct (ilog2_spec x Hx) as [X1 _].
  destruct (ilog2_spec y) as [_ Y2]; [lra|].
  destruct (Z_le_gt_dec (Js.ilog2 x) (Js.ilog2 y)) as [H|H]; [exact H|exfalso].
  pose proof (pow2_le (Js.ilog2 y + 1) (Js.ilog2 x) ltac:(lia)). lra.
Qed.

Lemma round_half_even_floor (q : Q) :
  Qfloor q <= Js.round_half_even q <= Qfloor q + 1.
Proof.
  unfold Js.round_half_even.
  destruct (Qcompare _ _); [destruct (Z.even _)| |]; lia.
Qed.

Lemma round_half_even_mono (x y : Q) :
  (x <= y)%Q -> Js.round_half_even x <= Js.round_half_even y.
Proof.
  intros Hxy. pose proof (Qfloor_resp_le x y Hxy) as Hfl.
  pose proof (round_half_even_floor x) as Bx.
  pose proof (round_half_even_floor y) as By.
  destruct (Z.eq_dec (Qfloor x) (Qfloor y)) as [E|N]; [|lia].
  unfold Js.round_half_even in *. rewrite <- E in *.
  destruct (Qcompare (x - inject_Z (Qfloor x)) (1 # 2)) eqn:Cx;
    destruct (Qcompare (y - inject_Z (Qfloor x)) (1 # 2)) eqn:Cy;
    try (destruct (Z.even (Qfloor x))); try lia; exfalso;
    first [apply Qeq_alt in Cx | apply Qlt_alt in Cx | apply Qgt_alt in Cx];
    first [apply Qeq_alt in Cy | apply Qlt_alt in Cy | apply Qgt_alt in Cy];
    lra.
Qed.

Lemma round_half_even_Z (n : Z) : Js.round_half_even (inject_Z n) = n.
Proof.
  unfold Js.round_half_even. rewrite Qfloor_Z.
  replace (Qcompare (inject_Z n - inject_Z n) (1 # 2)) with Lt; [reflexivity|].
  symmetry. apply Qlt_alt. ring_simplify (inject_Z n - inject_Z n)%Q. reflexivity.
Qed.

Lemma round_half_even_ge (n : Z) (q : Q) :
  (inject_Z n <= q)%Q -> n <= Js.round_half_even q.
Proof.
  intros H. rewrite <- (round_half_even_Z n). now apply round_half_even_mono.
Qed.

Lemma round_half_even_le (n : Z) (q : Q) :
  (q <= inject_Z n)%Q -> Js.round_half_even q <= n.
Proof.
  intros H. rewrite <- (round_half_even_Z n). now apply round_half_even_mono.
Qed.

Lemma scaled_bounds (q : Q) : (0 < q)%Q ->
  (inject_Z (2 ^ 52) <= q / Js.pow2 (Js.ilog2 q - 52) /\
   q / Js.pow2 (Js.ilog2 q - 52) <= inject_Z (2 ^ 53))%Q.
Proof.
  intros Hq. destruct (ilog2_spec q Hq) as [H1 H2].
  pose proof (pow2_pos (Js.ilog2 q - 52)) as P.
  assert (E1 : (Js.pow2 (Js.ilog2 q) == inject_Z (2 ^ 52) * Js.pow2 (Js.ilog2 q - 52))%Q).
  { rewrite <- pow2_Z by lia. rewrite <- pow2_add.
    replace (52 + (Js.ilog2 q - 52)) with (Js.ilog2 q) by lia. reflexivity. }
  assert (E2 : (Js.pow2 (Js.ilog2 q + 1) == inject_Z (2 ^ 53) * Js.pow2 (Js.ilog2 q - 52))%Q).
  { rewrite <- pow2_Z by lia. rewrite <- pow2_add.
    replace (53 + (Js.ilog2 q - 52)) with (Js.ilog2 q + 1) by lia. reflexivity. }
  rewrite E1 in H1. rewrite E2 in H2.
  split.
  - apply Qle_shift_div_l; [exact P | exact H1].
  - apply Qle_shift_div_r; [exact P | lra].
Qed.

Lemma nearest_bounds (q : Q) : (0 < q)%Q ->
  (Js.pow2 (Js.ilog2 q) <= Js.nearest q /\ Js.nearest q <= Js.pow2 (Js.ilog2 q + 1))%Q.
Proof.
  intros Hq. destruct (scaled_bounds q Hq) as [S1 S2].
  apply round_half_even_ge in S1. apply round_half_even_le in S2.
  rewrite Zle_Qle in S1, S2.
  pose proof (pow2_pos (Js.ilog2 q - 52)) as P.
  unfold Js.nearest. cbv zeta. set (m := inject_Z (Js.round_half_even _)) in *.
  assert (E1 : (Js.pow2 (Js.ilog2 q) == inject_Z (2 ^ 52) * Js.pow2 (Js.ilog2 q - 52))%Q).
  { rewrite <- pow2_Z by lia. rewrite <- pow2_add.
    replace (52 + (Js.ilog2 q - 52)) with (Js.ilog2 q) by lia. reflexivity. }
  assert (E2 : (Js.pow2 (Js.ilog2 q + 1) == inject_Z (2 ^ 53) * Js.pow2 (Js.ilog2 q - 52))%Q).
  { rewrite <- pow2_Z by lia. rewrite <- pow2_add.
    replace (53 + (Js.ilog2 q - 52)) with (Js.ilog2 q + 1) by lia. reflexivity. }
  rewrite E1, E2. split; apply Qmult_le_compat_r; try exact S1; try exact S2; lra.
Qed.

Lemma nearest_mono (x y : Q) : (0 < x)%Q -> (x <= y)%Q -> (Js.nearest x <= Js.nearest y)%Q.
Proof.
  intros Hx Hxy. assert (Hy : (0 < y)%Q) by lra.
  pose proof (ilog2_mono x y Hx Hxy) as Hl.
  destruct (Z.eq_dec (Js.ilog2 x) (Js.ilog2 y)) as [E|N].
  - unfold Js.nearest. cbv zeta. rewrite E.
    pose proof (pow2_pos (Js.ilog2 y - 52)) as P.
    apply Qmult_le_compat_r; [|lra].
    rewrite <- Zle_Qle. apply round_half_even_mono.
    apply Qmult_le_compat_r; [exact Hxy|].
    apply Qinv_le_0_compat. lra.
  - destruct (nearest_bounds x Hx) as [_ U]. destruct (nearest_bounds y Hy) as [L _].
    pose proof (pow2_le (Js.ilog2 x + 1) (Js.ilog2 y) ltac:(lia)). lra.
Qed.

Lemma nearest_pos (q : Q) : (0 < q)%Q -> (0 < Js.nearest q)%Q.
Proof.
  intros Hq. destruct (nearest_bounds q Hq) as [L _].
  pose proof (pow2_pos (Js.ilog2 q)). lra.
Qed.

Lemma to_f64_zero (q : Q) : (q == 0)%Q -> Js.to_f64 q = 0%Q.
Proof. intros H. unfold Js.to_f64. apply Qeq_alt in H. now rewrite H. Qed.

Lemma to_f64_pos (q : Q) : (0 < q)%Q -> Js.to_f64 q = Js.nearest q.
Proof. intros H. unfold Js.to_f64. apply Qgt_alt in H. now rewrite H. Qed.

Lemma to_f64_nonneg (q : Q) : (0 <= q)%Q -> (0 <= Js.to_f64 q)%Q.
Proof.
  intros H. destruct (Qlt_le_dec 0 q) as [P|P].
  - rewrite to_f64_pos by exact P. apply Qlt_le_weak. now apply nearest_pos.
  - rewrite to_f64_zero by lra. lra.
Qed.

Lemma to_f64_mono (x y : Q) : (0 <= x)%Q -> (x <= y)%Q -> (Js.to_f64 x <= Js.to_f64 y)%Q.
Proof.
  intros Hx Hxy. destruct (Qlt_le_dec 0 x) as [P|P].
  - rewrite !to_f64_pos by lra. now apply nearest_mono.
  - rewrite (to_f64_zero x) by lra. apply to_f64_nonneg. lra.
Qed.

Lemma to_f64_eq (x y : Q) : (0 <= x)%Q -> (x == y)%Q -> (Js.to_f64 x == Js.to_f64 y)%Q.
Proof.
  intros Hx E. apply Qle_antisym; apply to_f64_mono; lra.
Qed.

(** ** Arithmetic of the progress percentage *)

Lemma ratio_nonneg (s t : Z) : 0 <= s -> 0 <= t -> (0 <= inject_Z s / inject_Z t)%Q.
Proof.
  intros Hs Ht.
  apply Qmult_le_0_compat.
  - change 0%Q with (inject_Z 0). now rewrite <- Zle_Qle.
  - apply Qinv_le_0_compat. change 0%Q with (inject_Z 0). now rewrite <- Zle_Qle.
Qed.

Lemma ratio_mono (s1 s2 t : Z) :
  0 <= t -> s1 <= s2 -> (inject_Z s1 / inject_Z t <= inject_Z s2 / inject_Z t)%Q.
Proof.
  intros Ht Hs.
  apply Qmult_le_compat_r.
  - now rewrite <- Zle_Qle.
  - apply Qinv_le_0_compat. change 0%Q with (inject_Z 0). now rewrite <- Zle_Qle.
Qed.

Lemma Math_round_mono (p q : Q) : (p <= q)%Q -> Js.Math_round p <= Js.Math_round q.
Proof.
  intros H. unfold Js.Math_round. apply Qfloor_resp_le.
  apply Qplus_le_compat; [exact H | apply Qle_refl].
Qed.

Lemma Math_round_eq (p q : Q) : (p == q)%Q -> Js.Math_round p = Js.Math_round q.
Proof. intros H. unfold Js.Math_round. now rewrite H. Qed.

(** The number the percentage is rounded from. *)
Lemma scaled_ratio_mono (s1 s2 t : Z) :
  0 <= t -> 0 <= s1 -> s1 <= s2 ->
  (Js.mul (Js.div (inject_Z s1) (inject_Z t)) 100
   <= Js.mul (Js.div (inject_Z s2) (inject_Z t)) 100)%Q.
Proof.
  intros Ht Hs1 Hs. unfold Js.mul, Js.div.
  pose proof (ratio_nonneg s1 t Hs1 Ht) as H0.
  pose proof (ratio_mono s1 s2 t Ht Hs) as H1.
  pose proof (to_f64_nonneg _ H0) as H2.
  pose proof (to_f64_mono _ _ H0 H1) as H3.
  apply to_f64_mono; lra.
Qed.

Lemma progress_le_100 (s t : Z) : progress s t <= 100.
Proof. unfold progress. apply Z.le_min_l. Qed.

Lemma progress_mono (s1 s2 t : Z) :
  0 <= t -> 0 <= s1 -> s1 <= s2 -> progress s1 t <= progress s2 t.
Proof.
  intros Ht Hs1 Hs. unfold progress. apply Z.min_le_compat_l.
  apply Math_round_mono. now apply scaled_ratio_mono.
Qed.

Lemma progress_zero (t : Z) : progress 0 t = 0.
Proof.
  unfold progress, Js.mul, Js.div.
  rewrite (to_f64_zero (inject_Z 0 / inject_Z t)).
  - reflexivity.
  - unfold Qdiv. change (inject_Z 0) with 0%Q. apply Qmult_0_l.
Qed.

Lemma progress_nonneg (s t : Z) : 0 <= s -> 0 <= t -> 0 <= progress s t.
Proof.
  intros Hs Ht. rewrite <- (progress_zero t). apply progress_mono; lia.
Qed.

Lemma progress_full (t : Z) : 0 < t -> progress t t = 100.
Proof.
  intros Ht. unfold progress, Js.mul, Js.div.
  assert (N : ~ (inject_Z t == 0)%Q).
  { change 0%Q with (inject_Z 0). rewrite inject_Z_injective. lia. }
  assert (E1 : (Js.to_f64 (inject_Z t / inject_Z t) == 1)%Q).
  { rewrite <- (to_f64_eq 1 (inject_Z t / inject_Z t)).
    - vm_compute. reflexivity.
    - discriminate.
    - unfold Qdiv. now rewrite Qmult_inv_r. }
  assert (E2 : (Js.to_f64 (Js.to_f64 (inject_Z t / inject_Z t) * 100) == 100)%Q).
  { rewrite <- (to_f64_eq 100 (Js.to_f64 (inject_Z t / inject_Z t) * 100)).
    - vm_compute. reflexivity.
    - discriminate.
    - rewrite E1. reflexivity. }
  rewrite (Math_round_eq _ _ E2). reflexivity.
Qed.

Lemma progress_ge_full (s t : Z) : 0 < t -> t <= s -> progress s t = 100.
Proof.
  intros Ht Hs. pose proof (progress_mono t s t ltac:(lia) ltac:(lia) Hs) as Hmono.
  rewrite progress_full in Hmono by exact Ht.
  pose proof (progress_le_100 s t). lia.
Qed.

(** The outer [floor] of the specification's formula changes nothing. *)
Lemma spec_progress_f64_eq (s t : Z) : spec_progress_f64 s t = progress s t.
Proof.
  unfold spec_progress_f64, progress.
  set (r := Js.Math_round _).
  destruct (Z.le_gt_cases r 100) as [H|H].
  - rewrite Z.min_r by exact H.
    rewrite (Q.min_r 100 (inject_Z r)).
    + apply Qfloor_Z.
    + change 100%Q with (inject_Z 100). now rewrite <- Zle_Qle.
  - rewrite Z.min_l by lia.
    rewrite (Q.min_l 100 (inject_Z r)).
    + reflexivity.
    + change 100%Q with (inject_Z 100). rewrite <- Zle_Qle. lia.
Qed.

(** Read over the rationals the formula does not always give the value of
    the code: where the exact value lies within rounding error of a half
    the two can land on neighbouring integers. *)
Example progress_half_way :
  progress 29 200 = 14 /\ spec_progress 29 200 = 15 /\
  progress 1507328 2621440 = 57 /\ spec_progress 1507328 2621440 = 58.
Proof.
  split; [vm_compute; reflexivity|]. split; [vm_compute; reflexivity|].
  split; vm_compute; reflexivity.
Qed.

(** [progress] against the floats of the machine: every count of a file of
    200 and of 999 bytes, a file of 2621440 bytes chunk by chunk, and a
    hundred counts of a file of 2^52 + 1 bytes. *)
Example progress_agrees_with_floats :
  agree_on 201 0 1 200 = true /\
  agree_on 1000 0 1 999 = true /\
  agree_on 41 0 65536 2621440 = true /\
  agree_on 101 0 45035996273704 4503599627370497 = true.
Proof.
  split; [vm_compute; reflexivity|]. split; [vm_compute; reflexivity|].
  split; vm_compute; reflexivity.
Qed.
(** ** Chunking *)

Lemma chunks_fuel_concat (size fuel : nat) (data : list Byte.byte) :
  (0 < size)%nat -> (length data <= fuel)%nat ->
  concat (chunks_fuel fuel size data) = data.
Proof.
  intros Hsize. revert data.
  induction fuel as [|fuel IH]; intros data Hlen.
  - destruct data; [reflexivity | simpl in Hlen; lia].
  - destruct data as [|b data]; [reflexivity|].
    cbn [chunks_fuel concat]. rewrite IH.
    + apply take_drop.
    + rewrite length_drop. simpl in *. lia.
Qed.

Lemma total_length_concat (cs : list (list Byte.byte)) :
  total_length cs = Z.of_nat (length (concat cs)).
Proof.
  induction cs as [|c cs IH]; [reflexivity|].
  simpl. rewrite IH, length_app. lia.
Qed.

Lemma chunks_of_total (data : list Byte.byte) :
  total_length (chunks_of highWaterMark data) = Z.of_nat (length data).
Proof.
  rewrite total_length_concat. unfold chunks_of.
  rewrite chunks_fuel_concat; [reflexivity | unfold highWaterMark; lia | lia].
Qed.

Lemma chunks_fuel_bound (size fuel : nat) (data : list Byte.byte) :
  Forall (fun c => (length c <= size)%nat) (chunks_fuel fuel size data).
Proof.
  revert data. induction fuel as [|fuel IH]; intros data; [constructor|].
  destruct data as [|b data]; [constructor|].
  cbn [chunks_fuel]. constructor; [|apply IH].
  rewrite length_take. lia.
Qed.

(** ** The rooms object *)

Lemma rooms_get_set_eq k r rs : rooms_get k (rooms_set k r rs) = Some r.
Proof.
  induction rs as [|[k' r'] rs IH]; simpl.
  - now rewrite String.eqb_refl.
  - destruct (String.eqb k' k) eqn:E; simpl; rewrite E; [reflexivity | exact IH].
Qed.

Lemma rooms_get_set_ne k k' r rs :
  k <> k' -> rooms_get k' (rooms_set k r rs) = rooms_get k' rs.
Proof.
  intros Hne. induction rs as [|[k0 r0] rs IH]; simpl.
  - apply String.eqb_neq in Hne. now rewrite Hne.
  - destruct (String.eqb k0 k) eqn:E; simpl.
    + apply String.eqb_eq in E. subst k0.
      apply String.eqb_neq in Hne. now rewrite Hne.
    + now rewrite IH.
Qed.

Lemma rooms_get_delete_eq k rs : rooms_get k (rooms_delete k rs) = None.
Proof.
  induction rs as [|[k' r'] rs IH]; simpl; [reflexivity|].
  destruct (String.eqb k' k) eqn:E; simpl; [exact IH | now rewrite E].
Qed.

Lemma rooms_get_delete_ne k k' rs :
  k <> k' -> rooms_get k' (rooms_delete k rs) = rooms_get k' rs.
Proof.
  intros Hne. induction rs as [|[k0 r0] rs IH]; simpl; [reflexivity|].
  destruct (String.eqb k0 k) eqn:E; simpl.
  - apply String.eqb_eq in E. subst k0.
    apply String.eqb_neq in Hne. now rewrite Hne.
  - now rewrite IH.
Qed.

Lemma rooms_set_set k r r' rs : rooms_set k r (rooms_set k r' rs) = rooms_set k r rs.
Proof.
  induction rs as [|[k0 r0] rs IH]; simpl.
  - now rewrite String.eqb_refl.
  - destruct (String.eqb k0 k) eqn:E; simpl; rewrite E; [reflexivity | now rewrite IH].
Qed.

Lemma rooms_get_in k rs r : rooms_get k rs = Some r -> In k (map fst rs).
Proof.
  induction rs as [|[k' r'] rs IH]; simpl; [discriminate|].
  destruct (String.eqb k' k) eqn:E.
  - apply String.eqb_eq in E. now left.
  - intros H. right. now apply IH.
Qed.

Lemma cleanup_rooms_none id keys rs :
  Forall (fun k => held_by id rs k = false) keys -> cleanup_rooms id keys rs = rs.
Proof.
  induction 1 as [|k keys Hk _ IH]; [reflexivity|].
  simpl. unfold held_by in Hk.
  destruct (rooms_get k rs); [rewrite Hk|]; exact IH.
Qed.

Lemma cleanup_rooms_first id pre k post rs :
  Forall (fun k0 => held_by id rs k0 = false) pre ->
  held_by id rs k = true ->
  cleanup_rooms id (pre ++ k :: post) rs = rooms_delete k rs.
Proof.
  intros Hpre Hk. induction Hpre as [|k0 pre Hk0 _ IH]; simpl.
  - unfold held_by in Hk.
    destruct (rooms_get k rs); [now rewrite Hk | discriminate].
  - unfold held_by in Hk0.
    destruct (rooms_get k0 rs); [rewrite Hk0|]; exact IH.
Qed.

Lemma split_first_match {A} (p : A -> bool) (l : list A) :
  Forall (fun x => p x = false) l \/
  exists pre x post, l = pre ++ x :: post /\ Forall (fun y => p y = false) pre /\ p x = true.
Proof.
  induction l as [|a l IH]; [left; constructor|].
  destruct (p a) eqn:E.
  - right. exists [], a, l. repeat split; [constructor | exact E].
  - destruct IH as [IH | (pre & x & post & -> & Hpre & Hx)].
    + left. now constructor.
    + right. exists (a :: pre), x, post. repeat split; [now constructor | exact Hx].
Qed.

(** [for ... in] visits every key of the object. *)
Lemma insert_index_in x y l : In y (insert_index x l) <-> y = x \/ In y l.
Proof.
  induction l as [|z l IH]; simpl; [intuition congruence|].
  destruct (fst x <? fst z)%N; simpl; [intuition congruence|].
  rewrite IH. tauto.
Qed.

Lemma sort_indices_in y l : In y (sort_indices l) <-> In y l.
Proof.
  induction l as [|x l IH]; simpl; [tauto|].
  rewrite insert_index_in, IH. intuition congruence.
Qed.

Lemma for_in_keys_complete rs k : In k (map fst rs) <-> In k (for_in_keys rs).
Proof.
  unfold for_in_keys. rewrite in_app_iff, filter_In.
  split.
  - intros Hin. destruct (array_index k) as [n|] eqn:E.
    + left. apply in_map_iff. exists (n, k). split; [reflexivity|].
      rewrite sort_indices_in, <- list_elem_of_In, list_elem_of_omap.
      exists k. split; [now apply list_elem_of_In|].
      unfold index_entry. now rewrite E.
    + right. split; [exact Hin | reflexivity].
  - intros [Hin | [Hin _]]; [|exact Hin].
    apply in_map_iff in Hin. destruct Hin as ([n k'] & Hk & Hin).
    simpl in Hk. subst k'.
    rewrite sort_indices_in, <- list_elem_of_In, list_elem_of_omap in Hin.
    destruct Hin as (k0 & Hin & Hentry).
    unfold index_entry in Hentry. destruct (array_index k0); [|discriminate].
    injection Hentry as _ ->. now apply list_elem_of_In.
Qed.
(** ** Room clean-up on disconnect *)

Lemma disconnect_rooms id st :
  rooms (disconnect id st).1 = cleanup_rooms id (for_in_keys (rooms st)) (rooms st).
Proof. unfold disconnect. destruct (activeTransfers st !! id); reflexivity. Qed.

Lemma held_by_some id rs k :
  held_by id rs k = true -> exists r, rooms_get k rs = Some r /\ occupies id r = true.
Proof.
  unfold held_by. destruct (rooms_get k rs) as [r|]; [|discriminate].
  intros H. now exists r.
Qed.

(** C10: the disconnect handler deletes the first room, in the order of
    [for ... in], that holds the disconnected socket in a slot, and leaves
    every other room as it was, also one that holds the socket too; when no
    room holds the socket the table is unchanged.  So at most one key of
    the table changes. *)
Theorem disconnect_deletes_first_room (id : string) (st : Server) :
  let rs := rooms st in
  let rs' := rooms (disconnect id st).1 in
  ((forall k r, rooms_get k rs = Some r -> occupies id r = false) /\ rs' = rs)
  \/
  (exists pre k post r,
      for_in_keys rs = pre ++ k :: post /\
      Forall (fun k0 => held_by id rs k0 = false) pre /\
      rooms_get k rs = Some r /\ occupies id r = true /\
      rs' = rooms_delete k rs /\
      rooms_get k rs' = None /\
      forall k', k' <> k -> rooms_get k' rs' = rooms_get k' rs).
Proof.
  intros rs rs'. subst rs'. rewrite disconnect_rooms. fold rs.
  destruct (split_first_match (held_by id rs) (for_in_keys rs))
    as [Hnone | (pre & k & post & Hkeys & Hpre & Hk)].
  - left. split.
    + intros k r Hget.
      assert (Hin : In k (for_in_keys rs)).
      { apply for_in_keys_complete. eapply rooms_get_in; eassumption. }
      rewrite Forall_forall in Hnone. specialize (Hnone k).
      rewrite <- list_elem_of_In in Hin. specialize (Hnone Hin).
      unfold held_by in Hnone. now rewrite Hget in Hnone.
    + now apply cleanup_rooms_none.
  - right. destruct (held_by_some _ _ _ Hk) as (r & Hget & Hocc).
    exists pre, k, post, r. rewrite Hkeys.
    rewrite (cleanup_rooms_first id pre k post rs Hpre Hk).
    repeat split; try assumption.
    + apply rooms_get_delete_eq.
    + intros k' Hne. apply rooms_get_delete_ne. congruence.
Qed.

(** A socket that sits in two rooms loses only the one enumerated first:
    the numeric code ["7"] is visited before ["b"] although it was created
    later. *)
Example disconnect_two_rooms :
  let st := with_rooms (initial ∅)
              [("b", mkRoom (Some "s1") None None); ("7", mkRoom (Some "s2") (Some "s1") None)] in
  rooms (disconnect "s1" st).1 = [("b", mkRoom (Some "s1") None None)].
Proof. reflexivity. Qed.
(** ** Joining a room *)

Lemma truthy_some (s : string) : s <> "" -> Js.truthy (Some s) = true.
Proof.
  intros H. unfold Js.truthy. apply String.eqb_neq in H. now rewrite H.
Qed.

(** *** Reading and writing through [rooms[roomId]] *)

Lemma rooms_index_own r st room :
  rooms_get r (rooms st) = Some room -> rooms_index r st = own_room room.
Proof. intros H. unfold rooms_index. now rewrite H. Qed.

Lemma rooms_index_set r room st rs :
  rooms_index r (with_rooms st (rooms_set r room rs)) = own_room room.
Proof. unfold rooms_index. cbn [rooms with_rooms]. now rewrite rooms_get_set_eq. Qed.

(** The cases of the handler: whether [rooms[roomId]] is there, what the
    value is, and which slot is free. *)
Ltac join_room_cases r st :=
  unfold join_room, get_sender, get_receiver, set_sender, set_receiver;
  cbv zeta;
  destruct (value_truthy (rooms_index r st));
  [ destruct (rooms_index r st) | rewrite !rooms_index_set ];
  repeat match goal with
         | |- context [negb (Js.truthy ?v)] => destruct (negb (Js.truthy v))
         | |- context [match ?m !! ?k with _ => _ end] => destruct (m !! k)
         end.

(** What a join can do to the own properties of [rooms]: nothing, or
    write the entry of its code. *)
Lemma join_room_rooms id r st :
  rooms (join_room id r st).1 = rooms st \/
  exists room, rooms (join_room id r st).1 = rooms_set r room (rooms st).
Proof.
  join_room_cases r st; cbn [fst rooms with_rooms with_groups with_prototype];
    rewrite ?rooms_set_set; eauto.
Qed.

Lemma rooms_index_own_inv r st room :
  rooms_index r st = own_room room -> rooms_get r (rooms st) = Some room.
Proof.
  unfold rooms_index, inherited_value.
  destruct (rooms_get r (rooms st)); [congruence|].
  repeat match goal with
         | |- context [if ?b then _ else _] => destruct b
         | |- context [match ?x with Some _ => _ | None => _ end] => destruct x
         end; discriminate.
Qed.

(** What a join writes into the own properties of [rooms]: nothing, the
    sender slot of an existing room, its receiver slot, or a new room with
    the joiner as sender. *)
Lemma join_room_rooms_cases id r st :
  rooms (join_room id r st).1 = rooms st \/
  (exists room0,
      rooms_get r (rooms st) = Some room0 /\ Js.truthy (sender room0) = false /\
      rooms (join_room id r st).1 =
        rooms_set r (mkRoom (Some id) (receiver room0) (room_fileId room0)) (rooms st)) \/
  (exists room0,
      rooms_get r (rooms st) = Some room0 /\ Js.truthy (sender room0) = true /\
      Js.truthy (receiver room0) = false /\
      rooms (join_room id r st).1 =
        rooms_set r (mkRoom (sender room0) (Some id) (room_fileId room0)) (rooms st)) \/
  (rooms_get r (rooms st) = None /\
   rooms (join_room id r st).1 = rooms_set r (mkRoom (Some id) None None) (rooms st)).
Proof.
  unfold join_room, get_sender, get_receiver, set_sender, set_receiver. cbv zeta.
  destruct (rooms_index r st) as [room0| |f|v|] eqn:Hidx; cbn [value_truthy].
  - apply rooms_index_own_inv in Hidx. rewrite (rooms_index_own _ _ _ Hidx).
    destruct (Js.truthy (sender room0)) eqn:Hs; cbn [negb].
    + destruct (Js.truthy (receiver room0)) eqn:Hr; cbn [negb]; [now left|].
      right. right. left. exists room0. auto.
    + right. left. exists room0. auto.
  - rewrite Hidx.
    repeat match goal with
           | |- context [negb (Js.truthy ?v)] => destruct (negb (Js.truthy v))
           end; now left.
  - rewrite Hidx.
    repeat match goal with
           | |- context [negb (Js.truthy ?v)] => destruct (negb (Js.truthy v))
           | |- context [match ?m !! ?k with _ => _ end] => destruct (m !! k)
           end; now left.
  - destruct (Js.truthy (Some v)) eqn:Hv.
    + rewrite Hidx.
      repeat match goal with
             | |- context [negb (Js.truthy ?x)] => destruct (negb (Js.truthy x))
             end; now left.
    + right. right. right.
      assert (Hget : rooms_get r (rooms st) = None).
      { unfold rooms_index in Hidx. destruct (rooms_get r (rooms st)); [discriminate|].
        reflexivity. }
      split; [exact Hget|].
      rewrite !rooms_index_set.
      cbn [sender receiver room_fileId empty_room Js.truthy negb fst rooms
           with_groups with_rooms].
      apply rooms_set_set.
  - right. right. right.
    assert (Hget : rooms_get r (rooms st) = None).
    { unfold rooms_index in Hidx. destruct (rooms_get r (rooms st)); [discriminate|].
      reflexivity. }
    split; [exact Hget|].
    rewrite !rooms_index_set.
    cbn [sender receiver room_fileId empty_room Js.truthy negb fst rooms
         with_groups with_rooms].
    apply rooms_set_set.
Qed.

Lemma join_room_first id r st :
  rooms_index r st = no_value ->
  (join_room id r st).2 = [(to_socket id, room_joined "sender" r)] /\
  rooms_get r (rooms (join_room id r st).1) = Some (mkRoom (Some id) None None).
Proof.
  intros Hget. unfold join_room, get_sender, set_sender. rewrite Hget.
  cbn [value_truthy]. cbv zeta. rewrite !rooms_index_set.
  cbn [sender receiver room_fileId empty_room Js.truthy negb snd fst rooms with_groups with_rooms].
  split; [reflexivity|]. apply rooms_get_set_eq.
Qed.

Lemma join_room_second a id r st :
  a <> "" ->
  rooms_get r (rooms st) = Some (mkRoom (Some a) None None) ->
  (join_room id r st).2 =
    [(to_socket id, room_joined "receiver" r); (to_group a, user_joined id)] /\
  rooms_get r (rooms (join_room id r st).1) = Some (mkRoom (Some a) (Some id) None).
Proof.
  intros Ha Hget. pose proof (rooms_index_own _ _ _ Hget) as Hidx.
  unfold join_room, get_sender, get_receiver, set_receiver. rewrite Hidx.
  cbn [value_truthy]. cbv zeta. rewrite Hidx.
  cbn [sender receiver room_fileId].
  rewrite (truthy_some a Ha).
  cbn [Js.truthy negb snd fst rooms with_groups with_rooms default].
  split; [reflexivity|]. apply rooms_get_set_eq.
Qed.

Lemma join_room_full a b id r st :
  a <> "" -> b <> "" ->
  rooms_get r (rooms st) = Some (mkRoom (Some a) (Some b) None) ->
  (join_room id r st).2 = [(to_socket id, room_full)] /\
  rooms (join_room id r st).1 = rooms st.
Proof.
  intros Ha Hb Hget. pose proof (rooms_index_own _ _ _ Hget) as Hidx.
  unfold join_room, get_sender, get_receiver. rewrite Hidx.
  cbn [value_truthy]. cbv zeta. rewrite Hidx.
  cbn [sender receiver room_fileId].
  rewrite (truthy_some a Ha), (truthy_some b Hb). simpl. split; reflexivity.
Qed.

Lemma join_room_other id r' r st :
  r' <> r -> rooms_get r (rooms (join_room id r' st).1) = rooms_get r (rooms st).
Proof.
  intros Hne.
  destruct (join_room_rooms id r' st) as [-> | [room ->]]; [reflexivity|].
  now apply rooms_get_set_ne.
Qed.

(** A join touches neither records nor files, streams or timers. *)
Lemma join_room_frame_fields id r st :
  activeTransfers (join_room id r st).1 = activeTransfers st /\
  uploads (join_room id r st).1 = uploads st /\
  streams (join_room id r st).1 = streams st /\
  timers (join_room id r st).1 = timers st /\
  dirs (join_room id r st).1 = dirs st.
Proof. join_room_cases r st; repeat split. Qed.

Lemma cleanup_rooms_cases id keys rs :
  cleanup_rooms id keys rs = rs \/
  exists k, held_by id rs k = true /\ cleanup_rooms id keys rs = rooms_delete k rs.
Proof.
  induction keys as [|k keys IH]; [now left|].
  simpl. destruct (rooms_get k rs) as [room|] eqn:Hget; [|exact IH].
  destruct (occupies id room) eqn:Hocc; [|exact IH].
  right. exists k. split; [|reflexivity]. unfold held_by. now rewrite Hget.
Qed.

Lemma disconnect_other_room id r room st :
  rooms_get r (rooms st) = Some room -> occupies id room = false ->
  rooms_get r (rooms (disconnect id st).1) = Some room.
Proof.
  intros Hget Hocc. rewrite disconnect_rooms.
  destruct (cleanup_rooms_cases id (for_in_keys (rooms st)) (rooms st))
    as [-> | (k & Hk & ->)]; [exact Hget|].
  rewrite rooms_get_delete_ne; [exact Hget|].
  intros ->. unfold held_by in Hk. rewrite Hget in Hk. congruence.
Qed.

Lemma on_data_rooms rs c st st' out :
  on_data rs c st = Some (st', out) -> rooms st' = rooms st.
Proof.
  unfold on_data. destruct (activeTransfers st !! rs_socket rs); [|discriminate].
  intros [= <- _]. reflexivity.
Qed.

Lemma start_transfer_rooms id fid rid st :
  rooms (start_transfer id fid rid st).1 = rooms st.
Proof.
  unfold start_transfer, begin_transfer.
  destruct (uploads st !! _); [|destruct (dirs st !! _)]; reflexivity.
Qed.

(** Everything but a join of [r] and a disconnect of one of its occupants
    leaves the entry of [r] as it is. *)
Lemma step_keeps_room r a b room st i st' out :
  step st i = Some (st', out) -> bystander r a b i ->
  rooms_get r (rooms st) = Some room ->
  (forall d, occupies d room = true -> d = a \/ d = b) ->
  rooms_get r (rooms st') = Some room.
Proof.
  intros Hstep Hby Hget Hocc.
  destruct i as [id r'|id fid rid|id|id|n|n|n|n]; simpl in Hstep, Hby;
    [ | |discriminate| | | | | ].
  - injection Hstep as Hstep. apply (f_equal fst) in Hstep. simpl in Hstep.
    subst st'. rewrite <- Hget. now apply join_room_other.
  - injection Hstep as Hstep. apply (f_equal fst) in Hstep. simpl in Hstep.
    subst st'. now rewrite start_transfer_rooms.
  - destruct (disconnect id st) as [st0 out0] eqn:Hd.
    injection Hstep as <- _. simpl.
    change st0 with (st0, out0).1. rewrite <- Hd.
    apply disconnect_other_room; [exact Hget|].
    destruct (occupies id room) eqn:E; [|reflexivity].
    destruct (Hocc id E); tauto.
  - destruct (streams st !! n) as [rs|]; [|injection Hstep as <- _; exact Hget].
    destruct (rs_open rs), (rs_pending rs) as [|c rest];
      try (injection Hstep as <- _; exact Hget).
    apply on_data_rooms in Hstep. now rewrite Hstep.
  - destruct (streams st !! n) as [rs|]; [|injection Hstep as <- _; exact Hget].
    destruct (rs_open rs), (rs_pending rs) as [|c rest];
      injection Hstep as <- _; exact Hget.
  - destruct (streams st !! n) as [rs|]; [|injection Hstep as <- _; exact Hget].
    destruct (rs_open rs); injection Hstep as <- _; exact Hget.
  - destruct (timers st !! n); injection Hstep as <- _; exact Hget.
Qed.

Lemma run_keeps_room r a b room ins : forall st st',
  run st ins = Some st' -> Forall (bystander r a b) ins ->
  rooms_get r (rooms st) = Some room ->
  (forall d, occupies d room = true -> d = a \/ d = b) ->
  rooms_get r (rooms st') = Some room.
Proof.
  induction ins as [|i ins IH]; intros st st' Hrun Hall Hget Hocc.
  - injection Hrun as <-. exact Hget.
  - simpl in Hrun. destruct (step st i) as [[st1 out]|] eqn:Hstep; [|discriminate].
    inversion Hall as [|? ? Hi Hrest]; subst.
    eapply IH; [exact Hrun | exact Hrest | | exact Hocc].
    eapply step_keeps_room; eassumption.
Qed.

Lemma occupies_sender_only a d : occupies d (mkRoom (Some a) None None) = true -> d = a.
Proof.
  unfold occupies. simpl. rewrite orb_false_r. intros H.
  apply String.eqb_eq in H. congruence.
Qed.

Lemma occupies_pair a b d :
  occupies d (mkRoom (Some a) (Some b) None) = true -> d = a \/ d = b.
Proof.
  unfold occupies. simpl. intros H. apply orb_true_iff in H.
  destruct H as [H|H]; apply String.eqb_eq in H; [left|right]; congruence.
Qed.

(** The roles on a code for which [rooms[roomId]] is undefined: the
    first joiner is told [sender], the second [receiver] (and the sender is
    told of it), and the third [room-full] with the room table exactly as
    the rejected join found it; other clients may join other rooms,
    transfer or disconnect in between.  Socket ids are non-empty, as
    Socket.IO generates them. *)
Lemma join_roles_in_order
    (st : Server) (r a b c : string) (mid1 mid2 : list Input)
    (st1 st2 st3 st4 st5 : Server) (o1 o3 o5 : list Emit) :
  rooms_index r st = no_value ->
  a <> "" -> b <> "" ->
  Forall (bystander r a b) mid1 -> Forall (bystander r a b) mid2 ->
  join_room a r st = (st1, o1) -> run st1 mid1 = Some st2 ->
  join_room b r st2 = (st3, o3) -> run st3 mid2 = Some st4 ->
  join_room c r st4 = (st5, o5) ->
  o1 = [(to_socket a, room_joined "sender" r)] /\
  o3 = [(to_socket b, room_joined "receiver" r); (to_group a, user_joined b)] /\
  o5 = [(to_socket c, room_full)] /\
  rooms st5 = rooms st4 /\
  rooms_get r (rooms st5) = Some (mkRoom (Some a) (Some b) None).
Proof.
  intros Hnew Ha Hb Hmid1 Hmid2 J1 R1 J2 R2 J3.
  destruct (join_room_first a r st Hnew) as [E1 G1].
  rewrite J1 in E1, G1. simpl in E1, G1.
  assert (G2 : rooms_get r (rooms st2) = Some (mkRoom (Some a) None None)).
  { eapply run_keeps_room; [exact R1 | exact Hmid1 | exact G1 |].
    intros d Hd. left. now apply occupies_sender_only. }
  destruct (join_room_second a b r st2 Ha G2) as [E3 G3].
  rewrite J2 in E3, G3. simpl in E3, G3.
  assert (G4 : rooms_get r (rooms st4) = Some (mkRoom (Some a) (Some b) None)).
  { eapply run_keeps_room; [exact R2 | exact Hmid2 | exact G3 |].
    intros d Hd. now apply occupies_pair. }
  destruct (join_room_full a b c r st4 Ha Hb G4) as [E5 G5].
  rewrite J3 in E5, G5. simpl in E5, G5.
  repeat split; try assumption. now rewrite G5.
Qed.

(** C1: what the handler does on a room code for which [rooms] inherits
    a value, where the first joiner is expected to become the sender.
    [rooms] is a plain object, so [rooms["__proto__"]] is
    [Object.prototype]: the first joiner of the code [__proto__] is
    written on it as [sender], and from then on [rooms["sender"]] is that
    socket id, though nobody has joined the code [sender].  The first
    joiner of [sender] gets no room and is told [receiver], with
    [user-joined] sent to the joiner of [__proto__]; the assignment of the
    receiver slot is lost on the string, so the next joiners are told
    [receiver] again and nobody is ever told [room-full]. *)
Theorem first_joiner_of_inherited_code :
  rooms_index "sender" (initial ∅) = no_value /\
  trace (initial ∅)
        [JoinRoom "s1" "__proto__"; JoinRoom "s2" "sender"; JoinRoom "s3" "sender";
         JoinRoom "s4" "sender"] =
    [(JoinRoom "s1" "__proto__", [(to_socket "s1", room_joined "sender" "__proto__")]);
     (JoinRoom "s2" "sender",
      [(to_socket "s2", room_joined "receiver" "sender"); (to_group "s1", user_joined "s2")]);
     (JoinRoom "s3" "sender",
      [(to_socket "s3", room_joined "receiver" "sender"); (to_group "s1", user_joined "s3")]);
     (JoinRoom "s4" "sender",
      [(to_socket "s4", room_joined "receiver" "sender"); (to_group "s1", user_joined "s4")])] /\
  (rooms <$> run (initial ∅)
                 [JoinRoom "s1" "__proto__"; JoinRoom "s2" "sender";
                  JoinRoom "s3" "sender"; JoinRoom "s4" "sender"]) = Some [].
Proof. repeat split; vm_compute; reflexivity. Qed.
(** ** Starting a transfer *)

(** The handler answers "File not found on server" exactly when the
    joined path is neither a regular file nor a directory; the state is
    then the one before the request. *)
Lemma start_transfer_not_found (st : Server) (id fid rid : string) :
  uploads st !! Path.join uploadsDir fid = None ->
  dirs st !! Path.strip_slash (Path.join uploadsDir fid) = None ->
  start_transfer id fid rid st =
    (st, [(to_socket id, transfer_error "File not found on server")]).
Proof. intros Hfile Hdir. unfold start_transfer. now rewrite Hfile, Hdir. Qed.

Lemma start_transfer_file (st : Server) (id fid rid : string) (content : list Byte.byte) :
  uploads st !! Path.join uploadsDir fid = Some content ->
  start_transfer id fid rid st =
    begin_transfer id fid rid (Path.join uploadsDir fid) (Z.of_nat (length content))
                   (chunks_of highWaterMark content) st.
Proof. intros Hfile. unfold start_transfer. now rewrite Hfile. Qed.

Lemma start_transfer_directory (st : Server) (id fid rid : string) (size : Z) :
  uploads st !! Path.join uploadsDir fid = None ->
  dirs st !! Path.strip_slash (Path.join uploadsDir fid) = Some size ->
  start_transfer id fid rid st =
    begin_transfer id fid rid (Path.join uploadsDir fid) size [] st.
Proof. intros Hfile Hdir. unfold start_transfer. now rewrite Hfile, Hdir. Qed.

(** The two ways the handler returns. *)
Lemma start_transfer_cases (st : Server) (id fid rid : string) :
  start_transfer id fid rid st =
    (st, [(to_socket id, transfer_error "File not found on server")]) \/
  exists size chunks,
    start_transfer id fid rid st =
      begin_transfer id fid rid (Path.join uploadsDir fid) size chunks st.
Proof.
  unfold start_transfer.
  destruct (uploads st !! _); [eauto|]. destruct (dirs st !! _); eauto.
Qed.

(** C5: what the handler does for the empty [fileId], which names no
    file, where "File not found on server" is expected.  [path.join]
    returns the upload directory itself, [fs.existsSync] holds of it, and
    the handler goes on as for a file.  Whatever files are stored, the
    caller gets no [transfer-error]: [transfer-started] goes to the
    receiver, with the size of the directory, a tracking record is stored
    and a read stream is opened. *)
Theorem start_transfer_empty_file_id (st : Server) (id rid : string) (size : Z) :
  uploads st !! uploadsDir = None ->
  dirs st !! uploadsDir = Some size ->
  Path.join uploadsDir "" = uploadsDir /\
  (start_transfer id "" rid st).2 =
    [(to_group rid,
      transfer_started (mkFileInfo "" "" size "application/octet-stream"))] /\
  (forall m, ~ In (to_socket id, transfer_error m) (start_transfer id "" rid st).2) /\
  activeTransfers (start_transfer id "" rid st).1 !! id =
    Some (mkTransfer "" rid uploadsDir 0 size) /\
  streams (start_transfer id "" rid st).1 =
    streams st ++ [mkReadStream id "" rid uploadsDir size [] true].
Proof.
  intros Hfile Hdir. split; [reflexivity|].
  rewrite (start_transfer_directory st id "" rid size Hfile Hdir).
  unfold begin_transfer. cbn [fst snd activeTransfers streams with_streams with_transfers].
  split; [reflexivity|]. split; [|split; [apply lookup_insert_eq | reflexivity]].
  intros m [H|[]]. discriminate.
Qed.

(** ** The stream listeners *)

Lemma on_data_emits rs chunk st t :
  activeTransfers st !! rs_socket rs = Some t ->
  on_data rs chunk st =
    Some (with_transfers st
            (<[rs_socket rs := add_sent t (Z.of_nat (length chunk))]> (activeTransfers st)),
          [(to_group (rs_receiverId rs),
            file_chunk (rs_fileId rs) chunk (progress (sentBytes t) (rs_size rs)));
           (to_socket (rs_socket rs),
            transfer_progress
              (progress (sentBytes t + Z.of_nat (length chunk)) (rs_size rs)))]).
Proof. intros Ht. unfold on_data. now rewrite Ht. Qed.

(** The [data] listener in general: [file-chunk] goes out first, with the
    percentage of the bytes counted before this chunk; then the chunk's
    length is added to [sentBytes]; then [transfer-progress] goes out with
    the percentage of the new count. *)
Lemma data_listener_order
    (n : nat) (rs : ReadStream) (chunk : list Byte.byte)
    (rest : list (list Byte.byte)) (t : Transfer) (st : Server) :
  streams st !! n = Some rs -> rs_open rs = true ->
  rs_pending rs = chunk :: rest ->
  activeTransfers st !! rs_socket rs = Some t ->
  exists st',
    step st (StreamData n) =
      Some (st',
            [(to_group (rs_receiverId rs),
              file_chunk (rs_fileId rs) chunk (progress (sentBytes t) (rs_size rs)));
             (to_socket (rs_socket rs),
              transfer_progress
                (progress (sentBytes t + Z.of_nat (length chunk)) (rs_size rs)))]) /\
    (sentBytes <$> activeTransfers st' !! rs_socket rs)
      = Some (sentBytes t + Z.of_nat (length chunk)).
Proof.
  intros Hn Hopen Hpend Ht. cbn [step]. rewrite Hn, Hopen, Hpend.
  rewrite (on_data_emits rs chunk _ t) by exact Ht.
  eexists. split; [reflexivity|].
  simpl. now rewrite lookup_insert_eq.
Qed.

(** C7: a read error on an open stream tells the sender "Error reading
    file" and the receiver "Error transferring file", removes the record
    of the sender from [activeTransfers], and neither schedules a deletion
    nor touches the upload directory. *)
Theorem read_error_discards_session (n : nat) (rs : ReadStream) (st : Server) :
  streams st !! n = Some rs -> rs_open rs = true ->
  exists st',
    step st (StreamError n) =
      Some (st',
            [(to_socket (rs_socket rs), transfer_error "Error reading file");
             (to_group (rs_receiverId rs), transfer_error "Error transferring file")]) /\
    activeTransfers st' !! rs_socket rs = None /\
    timers st' = timers st /\
    uploads st' = uploads st.
Proof.
  intros Hn Hopen. simpl. rewrite Hn, Hopen.
  eexists. split; [reflexivity|]. simpl.
  repeat split. apply lookup_delete_eq.
Qed.

(** ** The display name *)

Lemma split_nonempty sep s : Js.split sep s <> [].
Proof.
  destruct s as [|c s]; simpl; [discriminate|].
  destruct (Ascii.eqb c sep); [discriminate|].
  destruct (Js.split sep s); discriminate.
Qed.

Lemma split_free sep s : occurs sep s = false -> Js.split sep s = [s].
Proof.
  induction s as [|c s IH]; simpl; [reflexivity|].
  intros H. apply orb_false_iff in H. destruct H as [Hc Hs].
  rewrite Hc, (IH Hs). reflexivity.
Qed.

Lemma split_app sep a b :
  Js.split sep (a +:+ String sep b) = Js.split sep a ++ Js.split sep b.
Proof.
  induction a as [|c a IH]; simpl.
  - now rewrite Ascii.eqb_refl.
  - destruct (Ascii.eqb c sep); [now rewrite IH|].
    rewrite IH. destruct (Js.split sep a) eqn:E; [|reflexivity].
    now apply split_nonempty in E.
Qed.

Lemma join_cons2 sep h h' t :
  Js.join sep (h :: h' :: t) = h +:+ sep +:+ Js.join sep (h' :: t).
Proof. reflexivity. Qed.

Lemma join_split sep s : Js.join (String sep "") (Js.split sep s) = s.
Proof.
  induction s as [|c s IH]; [reflexivity|].
  cbn [Js.split].
  destruct (Js.split sep s) as [|h t] eqn:Es; [now apply split_nonempty in Es|].
  destruct (Ascii.eqb c sep) eqn:E.
  - apply Ascii.eqb_eq in E. subst c.
    rewrite join_cons2, IH. reflexivity.
  - destruct t as [|h' t].
    + simpl in *. now rewrite IH.
    + rewrite join_cons2. rewrite join_cons2 in IH. rewrite <- IH. reflexivity.
Qed.

Lemma last_filter_snoc {A} (p : A -> bool) (l : list A) (x d : A) :
  p x = true -> List.last (List.filter p (l ++ [x])) d = x.
Proof.
  intros Hx. rewrite List.filter_app. simpl. rewrite Hx. apply last_last.
Qed.

Lemma basename_concat dir name :
  occurs "/"%char name = false -> name <> "" ->
  Path.basename (dir +:+ "/" +:+ name) = name.
Proof.
  intros Hfree Hne. unfold Path.basename.
  change (dir +:+ "/" +:+ name) with (dir +:+ String "/"%char name).
  rewrite split_app, (split_free _ _ Hfree).
  apply last_filter_snoc. apply String.eqb_neq in Hne. now rewrite Hne.
Qed.

Lemma occurs_app c a b : occurs c (a +:+ b) = (occurs c a || occurs c b)%bool.
Proof.
  induction a as [|x a IH]; simpl; [reflexivity|].
  now rewrite IH, orb_assoc.
Qed.

Lemma display_name_strip dir token rest :
  occurs "-"%char token = false ->
  occurs "/"%char token = false -> occurs "/"%char rest = false ->
  display_name (dir +:+ "/" +:+ (token +:+ "-" +:+ rest)) = rest.
Proof.
  intros Hhy Hsl1 Hsl2. unfold display_name.
  rewrite basename_concat.
  - change (token +:+ "-" +:+ rest) with (token +:+ String "-"%char rest).
    rewrite split_app, (split_free _ _ Hhy). simpl.
    apply (join_split "-"%char).
  - rewrite occurs_app, Hsl1. simpl. exact Hsl2.
  - destruct token; discriminate.
Qed.

(** *** [path.join] on the names of stored files

    A name that is one segment, and neither [.] nor [..], is appended to
    the upload directory as it is. *)

Lemma append_empty_r s : s +:+ "" = s.
Proof.
  induction s as [|c s IH]; [reflexivity|].
  change (String c (s +:+ "") = String c s). now rewrite IH.
Qed.

Lemma ends_with_slash_free s : occurs "/"%char s = false -> Path.ends_with_slash s = false.
Proof.
  induction s as [|c s IH]; [reflexivity|].
  cbn [occurs]. intros H. apply orb_false_iff in H. destruct H as [Hc Hs].
  cbn [Path.ends_with_slash]. destruct s; [exact Hc | now apply IH].
Qed.

Lemma ends_with_slash_app a b :
  b <> "" -> Path.ends_with_slash (a +:+ b) = Path.ends_with_slash b.
Proof.
  intros Hb. induction a as [|c a IH]; [reflexivity|].
  change (String c a +:+ b) with (String c (a +:+ b)).
  cbn [Path.ends_with_slash].
  destruct (a +:+ b) eqn:E; [|exact IH].
  destruct a as [|c' a]; [change (b = "") in E; contradiction|].
  change (String c' (a +:+ b) = "") in E. discriminate.
Qed.

Lemma join_plain name :
  occurs "/"%char name = false -> name <> "" -> name <> "." -> name <> ".." ->
  Path.join uploadsDir name = uploadsDir +:+ "/" +:+ name.
Proof.
  intros Hfree Hne Hdot Hdots.
  apply String.eqb_neq in Hne, Hdot, Hdots.
  unfold Path.join, uploadsDir. cbn [String.eqb Ascii.eqb Bool.eqb]. rewrite Hne.
  unfold Path.normalize.
  change ("/app/backend/uploads" +:+ "/" +:+ name)
    with ("/app/backend/uploads" +:+ String "/"%char name).
  replace (("/app/backend/uploads" +:+ String "/"%char name =? "")%string)
    with false by reflexivity.
  replace (Path.starts_with_slash ("/app/backend/uploads" +:+ String "/"%char name))
    with true by reflexivity.
  rewrite split_app, (split_free _ _ Hfree).
  change ("/"%char) with (Ascii.Ascii true true true true false true false false).
  assert (Hend : Path.ends_with_slash ("/app/backend/uploads/" +:+ name) = false).
  { destruct name as [|c name]; [discriminate|].
    rewrite ends_with_slash_app by discriminate. now apply ends_with_slash_free. }
  change ("/app/backend/uploads" +:+ String "/"%char name)
    with ("/app/backend/uploads/" +:+ name).
  cbv zeta. rewrite Hend.
  cbn [Js.split app Path.normalize_segments negb String.eqb Ascii.eqb Bool.eqb orb].
  rewrite Hne, Hdot, Hdots.
  cbn [orb rev app Js.join append].
  rewrite append_empty_r. reflexivity.
Qed.

Lemma occurs_differs c s s' : occurs c s = true -> occurs c s' = false -> s <> s'.
Proof. intros H H' ->. congruence. Qed.

Lemma join_stored token rest :
  occurs "/"%char token = false -> occurs "/"%char rest = false ->
  Path.join uploadsDir (token +:+ "-" +:+ rest)
    = uploadsDir +:+ "/" +:+ (token +:+ "-" +:+ rest).
Proof.
  intros Hsl1 Hsl2.
  assert (Hhy : occurs "-"%char (token +:+ "-" +:+ rest) = true).
  { rewrite occurs_app. simpl. apply orb_true_r. }
  apply join_plain.
  - rewrite occurs_app, Hsl1. simpl. exact Hsl2.
  - now apply (occurs_differs "-"%char).
  - now apply (occurs_differs "-"%char).
  - now apply (occurs_differs "-"%char).
Qed.

(** C8: for a stored identifier [token-rest] ([token] without hyphen, no
    path separator in the identifier) the [name] field of the metadata sent
    with [transfer-started] is [rest]: only the text up to and including
    the first hyphen is removed, later hyphens stay. *)
Theorem display_name_strips_first_token
    (st : Server) (id rid token rest : string) (content : list Byte.byte) :
  occurs "-"%char token = false ->
  occurs "/"%char token = false -> occurs "/"%char rest = false ->
  uploads st !! Path.join uploadsDir (token +:+ "-" +:+ rest) = Some content ->
  exists info,
    (start_transfer id (token +:+ "-" +:+ rest) rid st).2
      = [(to_group rid, transfer_started info)] /\
    fi_id info = token +:+ "-" +:+ rest /\
    fi_name info = rest.
Proof.
  intros Hhy Hsl1 Hsl2 Hfile. rewrite (start_transfer_file _ _ _ _ _ Hfile).
  unfold begin_transfer. cbn [snd].
  eexists. split; [reflexivity|]. cbn [fi_id fi_name]. split; [reflexivity|].
  rewrite join_stored by assumption. now apply display_name_strip.
Qed.
(** ** Streams keep their closure *)

(** From [Some (f x) = Some (st', out)]: replace [st'] by [(f x).1]. *)
Ltac state_of H :=
  injection H as H; apply (f_equal fst) in H; cbn [fst] in H; subst.

Lemma same_closure_refl rs : same_closure rs rs.
Proof. repeat split. Qed.

Lemma same_closure_trans r1 r2 r3 :
  same_closure r1 r2 -> same_closure r2 r3 -> same_closure r1 r3.
Proof. unfold same_closure. intuition congruence. Qed.

Lemma on_data_streams rs c st st' out :
  on_data rs c st = Some (st', out) -> streams st' = streams st.
Proof.
  unfold on_data. destruct (activeTransfers st !! rs_socket rs); [|discriminate].
  intros [= <- _]. reflexivity.
Qed.

Lemma insert_closure (l : list ReadStream) m n rs0 rs1 rs :
  l !! m = Some rs0 -> same_closure rs0 rs1 -> l !! n = Some rs ->
  exists rs', <[m := rs1]> l !! n = Some rs' /\ same_closure rs rs'.
Proof.
  intros Hm Hc Hn. destruct (decide (m = n)) as [->|Hne].
  - exists rs1. split.
    + apply list_lookup_insert_eq. eapply lookup_lt_Some; eassumption.
    + congruence.
  - exists rs. split; [|apply same_closure_refl].
    now rewrite list_lookup_insert_ne.
Qed.

Lemma unchanged_streams st st' n rs :
  streams st' = streams st -> streams st !! n = Some rs ->
  exists rs', streams st' !! n = Some rs' /\ same_closure rs rs'.
Proof.
  intros -> Hn. exists rs. split; [exact Hn | apply same_closure_refl].
Qed.

Lemma step_streams st i st' out n rs :
  step st i = Some (st', out) -> streams st !! n = Some rs ->
  exists rs', streams st' !! n = Some rs' /\ same_closure rs rs'.
Proof.
  intros Hstep Hn.
  destruct i as [id r'|id fid rid|bad|id|m|m|m|m]; cbn [step] in Hstep.
  3: discriminate.
  - state_of Hstep. eapply unchanged_streams; [|exact Hn].
    apply join_room_frame_fields.
  - state_of Hstep.
    destruct (start_transfer_cases st id fid rid) as [-> | (size & chunks & ->)];
      [eapply unchanged_streams; [reflexivity | exact Hn]|].
    exists rs. split; [|apply same_closure_refl].
    simpl. now apply lookup_app_l_Some.
  - destruct (disconnect id st) as [st0 out0] eqn:Hd.
    injection Hstep as <- _. eapply unchanged_streams; [|exact Hn].
    apply (f_equal fst) in Hd. simpl in Hd. subst st0.
    unfold disconnect. destruct (activeTransfers st !! id); reflexivity.
  - destruct (streams st !! m) as [rs0|] eqn:Hm;
      [|injection Hstep as <- _; now exists rs].
    destruct (rs_open rs0), (rs_pending rs0) as [|c rest];
      try (injection Hstep as <- _; now exists rs).
    apply on_data_streams in Hstep. rewrite Hstep. simpl.
    eapply insert_closure; [exact Hm | | exact Hn]. repeat split.
  - destruct (streams st !! m) as [rs0|] eqn:Hm;
      [|injection Hstep as <- _; now exists rs].
    destruct (rs_open rs0), (rs_pending rs0) as [|c rest];
      try (injection Hstep as <- _; now exists rs).
    injection Hstep as <- _. simpl.
    eapply insert_closure; [exact Hm | | exact Hn]. repeat split.
  - destruct (streams st !! m) as [rs0|] eqn:Hm;
      [|injection Hstep as <- _; now exists rs].
    destruct (rs_open rs0); [|injection Hstep as <- _; now exists rs].
    injection Hstep as <- _. simpl.
    eapply insert_closure; [exact Hm | | exact Hn]. repeat split.
  - destruct (timers st !! m); injection Hstep as <- _; now exists rs.
Qed.

Lemma run_streams ins : forall st st' n rs,
  run st ins = Some st' -> streams st !! n = Some rs ->
  exists rs', streams st' !! n = Some rs' /\ same_closure rs rs'.
Proof.
  induction ins as [|i ins IH]; intros st st' n rs Hrun Hn.
  - injection Hrun as <-. exists rs. split; [exact Hn | apply same_closure_refl].
  - simpl in Hrun. destruct (step st i) as [[st1 out]|] eqn:Hstep; [|discriminate].
    destruct (step_streams _ _ _ _ _ _ Hstep Hn) as (rs1 & Hn1 & Hc1).
    destruct (IH _ _ _ _ Hrun Hn1) as (rs2 & Hn2 & Hc2).
    exists rs2. split; [exact Hn2 | eapply same_closure_trans; eassumption].
Qed.

Lemma start_transfer_stream st id fid rid content :
  uploads st !! Path.join uploadsDir fid = Some content ->
  streams (start_transfer id fid rid st).1 !! length (streams st)
  = Some (mkReadStream id fid rid (Path.join uploadsDir fid)
            (Z.of_nat (length content)) (chunks_of highWaterMark content) true).
Proof.
  intros Hfile. rewrite (start_transfer_file _ _ _ _ _ Hfile). simpl.
  apply list_lookup_middle. reflexivity.
Qed.

(** ** Disconnect of a sender *)

Lemma on_data_transfers_other rs c st st' out s :
  on_data rs c st = Some (st', out) -> rs_socket rs <> s ->
  activeTransfers st' !! s = activeTransfers st !! s.
Proof.
  unfold on_data. destruct (activeTransfers st !! rs_socket rs); [|discriminate].
  intros [= <- _] Hne. simpl. now apply lookup_insert_ne.
Qed.

Lemma disconnect_transfers id st s :
  activeTransfers (disconnect id st).1 !! s =
    if decide (id = s) then None else activeTransfers st !! s.
Proof.
  unfold disconnect. destruct (activeTransfers st !! id) eqn:E; simpl.
  - case_decide; [subst; apply lookup_delete_eq | now apply lookup_delete_ne].
  - case_decide; [subst; exact E | reflexivity].
Qed.

Lemma join_room_transfers id r st :
  activeTransfers (join_room id r st).1 = activeTransfers st /\
  streams (join_room id r st).1 = streams st.
Proof.
  split; apply join_room_frame_fields.
Qed.

Lemma start_transfer_transfers_other id fid rid st s :
  id <> s ->
  activeTransfers (start_transfer id fid rid st).1 !! s = activeTransfers st !! s.
Proof.
  intros Hne.
  destruct (start_transfer_cases st id fid rid) as [-> | (size & chunks & ->)];
    [reflexivity|].
  simpl. now apply lookup_insert_ne.
Qed.

(** Once the record of [s] is gone it stays gone for as long as [s] sends
    nothing. *)
Lemma step_silenced s st i st' out :
  activeTransfers st !! s = None -> client_of i <> Some s ->
  step st i = Some (st', out) -> activeTransfers st' !! s = None.
Proof.
  intros Hnone Hcl Hstep.
  destruct i as [id r'|id fid rid|bad|id|m|m|m|m]; cbn [step] in Hstep; simpl in Hcl.
  3: discriminate.
  - state_of Hstep.
    simpl. now rewrite (proj1 (join_room_transfers id r' st)).
  - state_of Hstep.
    simpl. rewrite start_transfer_transfers_other; [exact Hnone | congruence].
  - destruct (disconnect id st) as [st0 out0] eqn:Hd.
    injection Hstep as <- _. simpl.
    change st0 with (st0, out0).1. rewrite <- Hd, disconnect_transfers.
    case_decide; [reflexivity | exact Hnone].
  - destruct (streams st !! m) as [rs0|] eqn:Hm;
      [|injection Hstep as <- _; exact Hnone].
    destruct (rs_open rs0), (rs_pending rs0) as [|c rest];
      try (injection Hstep as <- _; exact Hnone).
    destruct (decide (rs_socket rs0 = s)) as [Hs|Hs].
    + unfold on_data in Hstep. simpl in Hstep. rewrite Hs, Hnone in Hstep. discriminate.
    + rewrite (on_data_transfers_other _ _ _ _ _ s Hstep Hs). exact Hnone.
  - destruct (streams st !! m) as [rs0|] eqn:Hm;
      [|injection Hstep as <- _; exact Hnone].
    destruct (rs_open rs0), (rs_pending rs0) as [|c rest];
      injection Hstep as <- _; exact Hnone.
  - destruct (streams st !! m) as [rs0|] eqn:Hm;
      [|injection Hstep as <- _; exact Hnone].
    destruct (rs_open rs0); injection Hstep as <- _; [|exact Hnone].
    simpl. destruct (decide (rs_socket rs0 = s)) as [->|Hs];
      [apply lookup_delete_eq | now rewrite lookup_delete_ne].
  - destruct (timers st !! m); injection Hstep as <- _; exact Hnone.
Qed.

(** With the record gone, the [data] listener of a stream of [s] throws
    before it emits anything. *)
Lemma data_after_disconnect_throws s st n rs chunk rest :
  activeTransfers st !! s = None ->
  streams st !! n = Some rs -> rs_socket rs = s ->
  rs_open rs = true -> rs_pending rs = chunk :: rest ->
  step st (StreamData n) = None.
Proof.
  intros Hnone Hn Hs Hopen Hpend. cbn [step]. rewrite Hn, Hopen, Hpend.
  unfold on_data. simpl. now rewrite Hs, Hnone.
Qed.

Lemma step_session_no_chunk s st i st' out n rs :
  activeTransfers st !! s = None ->
  streams st !! n = Some rs -> rs_socket rs = s ->
  stream_of i = Some n -> step st i = Some (st', out) ->
  Forall (fun e => is_file_chunk e = false) out.
Proof.
  intros Hnone Hn Hs Hi Hstep.
  destruct i as [id r'|id fid rid|bad|id|m|m|m|m]; try discriminate;
    injection Hi as ->; cbn [step] in Hstep; rewrite Hn in Hstep.
  - destruct (rs_open rs), (rs_pending rs) as [|c rest];
      try (injection Hstep as _ <-; constructor).
    unfold on_data in Hstep. simpl in Hstep. rewrite Hs, Hnone in Hstep. discriminate.
  - destruct (rs_open rs), (rs_pending rs) as [|c rest];
      injection Hstep as _ <-; repeat constructor.
  - destruct (rs_open rs); injection Hstep as _ <-; repeat constructor.
Qed.

Lemma session_out_cons n i out log :
  session_out n ((i, out) :: log) =
    (if decide (stream_of i = Some n) then out else []) ++ session_out n log.
Proof. reflexivity. Qed.

Lemma trace_silenced s n ins : forall st rs,
  activeTransfers st !! s = None ->
  streams st !! n = Some rs -> rs_socket rs = s ->
  Forall (fun i => client_of i <> Some s) ins ->
  Forall (fun e => is_file_chunk e = false) (session_out n (trace st ins)).
Proof.
  induction ins as [|i ins IH]; intros st rs Hnone Hn Hs Hall; [constructor|].
  apply Forall_cons in Hall. destruct Hall as [Hi Hrest].
  simpl. destruct (step st i) as [[st1 out]|] eqn:Hstep; [|constructor].
  rewrite session_out_cons. apply Forall_app. split.
  - case_decide; [|constructor].
    eapply step_session_no_chunk; eassumption.
  - destruct (step_streams _ _ _ _ _ _ Hstep Hn) as (rs1 & Hn1 & Hc1).
    eapply IH; [| exact Hn1 | | exact Hrest].
    + eapply step_silenced; eassumption.
    + destruct Hc1 as [Hc1 _]. congruence.
Qed.

(** C4: when a socket with a transfer record disconnects, the receiver
    named in the record is sent [transfer-cancelled] and the record is
    deleted; from then on, whatever the other clients and the streams do,
    no listener of a stream of that socket emits a [file-chunk].  (The
    stream itself is not closed: its next [data] event finds no record and
    throws, see [data_after_disconnect_throws].) *)
Theorem sender_disconnect_cancels (st : Server) (s : string) (t : Transfer) :
  activeTransfers st !! s = Some t ->
  exists st1,
    step st (Disconnect s) = Some (st1, [(to_group (receiverId t), transfer_cancelled)]) /\
    activeTransfers st1 !! s = None /\
    forall ins n rs,
      Forall (fun i => client_of i <> Some s) ins ->
      streams st !! n = Some rs -> rs_socket rs = s ->
      Forall (fun e => is_file_chunk e = false) (session_out n (trace st1 ins)).
Proof.
  intros Ht. cbn [step].
  destruct (disconnect s st) as [st0 out0] eqn:Hd.
  assert (Hout : out0 = [(to_group (receiverId t), transfer_cancelled)]).
  { apply (f_equal snd) in Hd. simpl in Hd. subst out0.
    unfold disconnect. now rewrite Ht. }
  assert (Hnone : activeTransfers st0 !! s = None).
  { change st0 with (st0, out0).1. rewrite <- Hd, disconnect_transfers.
    now rewrite decide_True. }
  assert (Hstreams : streams st0 = streams st).
  { apply (f_equal fst) in Hd. simpl in Hd. subst st0.
    unfold disconnect. now rewrite Ht. }
  subst out0. eexists. split; [reflexivity|]. split; [exact Hnone|].
  intros ins n rs Hall Hn Hs.
  eapply (trace_silenced s n ins (leave_all s st0) rs); try assumption.
  simpl. now rewrite Hstreams.
Qed.
(** ** One transfer from start to end of file *)

Lemma progress_values_app a b :
  progress_values (a ++ b) = progress_values a ++ progress_values b.
Proof. apply omap_app. Qed.

Lemma chunks_emitted_app a b :
  chunks_emitted (a ++ b) = chunks_emitted a ++ chunks_emitted b.
Proof. apply omap_app. Qed.

Lemma total_length_app a b : total_length (a ++ b) = total_length a + total_length b.
Proof. induction a as [|c a IH]; simpl; [reflexivity | rewrite IH; lia]. Qed.

Lemma total_length_cons c cs :
  total_length (c :: cs) = Z.of_nat (length c) + total_length cs.
Proof. reflexivity. Qed.

Lemma chunks_fuel_nonempty (size fuel : nat) (data : list Byte.byte) :
  (0 < size)%nat -> Forall (fun c => c <> []) (chunks_fuel fuel size data).
Proof.
  intros Hsize. revert data. induction fuel as [|fuel IH]; intros data; [constructor|].
  destruct data as [|b data]; [constructor|].
  cbn [chunks_fuel]. constructor; [|apply IH].
  destruct size; [lia | discriminate].
Qed.

Lemma record_grows_refl s st st' :
  activeTransfers st' !! s = activeTransfers st !! s -> record_grows s st st'.
Proof. intros E t' Ht'. exists t'. rewrite <- E. repeat split; [exact Ht' | lia]. Qed.

Lemma record_grows_gone s st st' :
  activeTransfers st' !! s = None -> record_grows s st st'.
Proof. intros E t' Ht'. congruence. Qed.

Lemma on_data_record_grows s rs c st st' out :
  on_data rs c st = Some (st', out) -> record_grows s st st'.
Proof.
  unfold on_data. destruct (activeTransfers st !! rs_socket rs) as [t|] eqn:Ht;
    [|discriminate].
  intros [= <- _]. destruct (decide (rs_socket rs = s)) as [<-|Hne].
  - intros t' Ht'. simpl in Ht'. rewrite lookup_insert_eq in Ht'.
    injection Ht' as <-. exists t. simpl. repeat split; [exact Ht | lia].
  - apply record_grows_refl. simpl. now apply lookup_insert_ne.
Qed.

(** The byte count of a record never goes down, and its [totalBytes] stays,
    for as long as its sender does not start another transfer. *)
Lemma step_record_grows s st i st' out :
  no_restart s i -> step st i = Some (st', out) -> record_grows s st st'.
Proof.
  intros Hq Hstep.
  destruct i as [id r'|id fid rid|bad|id|m|m|m|m]; cbn [step] in Hstep; simpl in Hq.
  3: discriminate.
  - state_of Hstep. apply record_grows_refl.
    now rewrite (proj1 (join_room_transfers id r' st)).
  - state_of Hstep. apply record_grows_refl.
    now apply start_transfer_transfers_other.
  - destruct (disconnect id st) as [st0 out0] eqn:Hd.
    injection Hstep as <- _.
    assert (Hst0 : st0 = (disconnect id st).1) by now rewrite Hd.
    destruct (decide (id = s)) as [->|Hne].
    + apply record_grows_gone. simpl. rewrite Hst0, disconnect_transfers.
      now rewrite decide_True.
    + apply record_grows_refl. simpl. rewrite Hst0, disconnect_transfers.
      now rewrite decide_False.
  - destruct (streams st !! m) as [r0|];
      [|injection Hstep as <- _; now apply record_grows_refl].
    destruct (rs_open r0), (rs_pending r0) as [|c rest];
      try (injection Hstep as <- _; now apply record_grows_refl).
    intros t' Ht'.
    destruct (on_data_record_grows s _ _ _ _ _ Hstep t' Ht') as (t & Ht & Hle).
    exists t. split; [exact Ht | exact Hle].
  - destruct (streams st !! m) as [r0|];
      [|injection Hstep as <- _; now apply record_grows_refl].
    destruct (rs_open r0), (rs_pending r0) as [|c rest];
      injection Hstep as <- _; now apply record_grows_refl.
  - destruct (streams st !! m) as [r0|];
      [|injection Hstep as <- _; now apply record_grows_refl].
    destruct (rs_open r0); injection Hstep as <- _;
      [|now apply record_grows_refl].
    destruct (decide (rs_socket r0 = s)) as [<-|Hne].
    + apply record_grows_gone. simpl. apply lookup_delete_eq.
    + apply record_grows_refl. simpl. now apply lookup_delete_ne.
  - destruct (timers st !! m); injection Hstep as <- _; now apply record_grows_refl.
Qed.

(** A step that is not an event of stream [n] leaves its record alone. *)
Lemma step_stream_other st i st' out n rs :
  step st i = Some (st', out) -> stream_of i <> Some n ->
  streams st !! n = Some rs -> streams st' !! n = Some rs.
Proof.
  intros Hstep Hi Hn.
  destruct i as [id r'|id fid rid|bad|id|m|m|m|m]; cbn [step] in Hstep; simpl in Hi.
  3: discriminate.
  - state_of Hstep. now rewrite (proj2 (join_room_transfers id r' st)).
  - state_of Hstep.
    destruct (start_transfer_cases st id fid rid) as [-> | (size & chunks & ->)];
      [exact Hn|].
    simpl. now apply lookup_app_l_Some.
  - destruct (disconnect id st) as [st0 out0] eqn:Hd.
    injection Hstep as <- _.
    assert (Hst0 : st0 = (disconnect id st).1) by now rewrite Hd.
    simpl. rewrite Hst0. unfold disconnect.
    destruct (activeTransfers st !! id); exact Hn.
  - assert (Hmn : m <> n) by congruence.
    destruct (streams st !! m) as [r0|]; [|injection Hstep as <- _; exact Hn].
    destruct (rs_open r0), (rs_pending r0) as [|c rest];
      try (injection Hstep as <- _; exact Hn).
    rewrite (on_data_streams _ _ _ _ _ Hstep). simpl.
    now rewrite list_lookup_insert_ne.
  - assert (Hmn : m <> n) by congruence.
    destruct (streams st !! m) as [r0|]; [|injection Hstep as <- _; exact Hn].
    destruct (rs_open r0), (rs_pending r0) as [|c rest];
      injection Hstep as <- _; try exact Hn.
    simpl. now rewrite list_lookup_insert_ne.
  - assert (Hmn : m <> n) by congruence.
    destruct (streams st !! m) as [r0|]; [|injection Hstep as <- _; exact Hn].
    destruct (rs_open r0); injection Hstep as <- _; try exact Hn.
    simpl. now rewrite list_lookup_insert_ne.
  - destruct (timers st !! m); injection Hstep as <- _; exact Hn.
Qed.

Lemma total_length_nonneg cs : 0 <= total_length cs.
Proof. induction cs as [|c cs IH]; simpl; lia. Qed.

(** What one step does to the stream of a transfer: either the stream
    emits no chunk and no percentage, or the step is its [data] event,
    which finds the record of the sender, relays one chunk with the
    percentage of the count in the record, and reports the percentage of
    the count after it. *)
Lemma step_stream s n total emitted st i st' out :
  stream_inv s n total emitted st -> step st i = Some (st', out) ->
  exists emitted',
    stream_inv s n total emitted' st' /\
    ((emitted' = emitted /\
      (stream_of i = Some n -> progress_values out = [] /\ chunks_emitted out = []))
     \/
     (exists c t, stream_of i = Some n /\ c <> [] /\
                  emitted' = emitted + Z.of_nat (length c) /\
                  activeTransfers st !! s = Some t /\
                  (sentBytes <$> activeTransfers st' !! s)
                    = Some (sentBytes t + Z.of_nat (length c)) /\
                  progress_values out =
                    [progress (sentBytes t) total;
                     progress (sentBytes t + Z.of_nat (length c)) total] /\
                  chunks_emitted out = [c])).
Proof.
  intros Hinv Hstep.
  pose proof Hinv as (Hem & rs & Hn & Hown & Hsize & Hlive).
  destruct (decide (stream_of i = Some n)) as [Hi|Hi].
  2:{ exists emitted. split; [|left; split; [reflexivity | contradiction]].
      split; [exact Hem|]. exists rs. split; [|auto].
      eapply step_stream_other; eassumption. }
  assert (Hnoop : st' = st -> out = [] ->
    exists emitted',
      stream_inv s n total emitted' st' /\
      ((emitted' = emitted /\
        (stream_of i = Some n -> progress_values out = [] /\ chunks_emitted out = []))
       \/
       (exists c t, stream_of i = Some n /\ c <> [] /\
                    emitted' = emitted + Z.of_nat (length c) /\
                    activeTransfers st !! s = Some t /\
                    (sentBytes <$> activeTransfers st' !! s)
                      = Some (sentBytes t + Z.of_nat (length c)) /\
                    progress_values out =
                      [progress (sentBytes t) total;
                       progress (sentBytes t + Z.of_nat (length c)) total] /\
                    chunks_emitted out = [c]))).
  { intros -> ->. exists emitted. split; [exact Hinv|]. left. now repeat split. }
  assert (Hclosed : forall st1,
             streams st1 !! n = Some (close_stream rs) ->
             stream_inv s n total emitted st1).
  { intros st1 H1. split; [exact Hem|]. exists (close_stream rs).
    repeat split; try assumption; discriminate. }
  destruct i as [id r'|id fid rid|bad|id|m|m|m|m]; try discriminate;
    injection Hi as ->; cbn [step] in Hstep; rewrite Hn in Hstep.
  - (* data *)
    destruct (rs_open rs) eqn:Hopen; [|injection Hstep as <- <-; now apply Hnoop].
    destruct (rs_pending rs) as [|c rest] eqn:Hpend;
      [injection Hstep as <- <-; now apply Hnoop|].
    destruct (Hlive eq_refl) as (Hsum & Hne).
    rewrite total_length_cons in Hsum.
    apply Forall_cons in Hne. destruct Hne as [Hc Hne].
    destruct (activeTransfers st !! s) as [t|] eqn:Ht.
    2:{ unfold on_data in Hstep. simpl in Hstep. rewrite Hown, Ht in Hstep. discriminate. }
    rewrite (on_data_emits rs c _ t) in Hstep by (simpl; now rewrite Hown).
    injection Hstep as <- <-.
    exists (emitted + Z.of_nat (length c)). split.
    + split; [lia|]. exists (set_pending rs rest). simpl. split.
      * apply list_lookup_insert_eq. eapply lookup_lt_Some; eassumption.
      * repeat split; try assumption. lia.
    + right. exists c, t. repeat split; try assumption.
      * simpl. rewrite Hown, lookup_insert_eq. reflexivity.
      * unfold progress_values. simpl. now rewrite Hsize.
  - (* end *)
    destruct (rs_open rs) eqn:Hopen; [|injection Hstep as <- <-; now apply Hnoop].
    destruct (rs_pending rs) as [|c rest] eqn:Hpend;
      [|injection Hstep as <- <-; now apply Hnoop].
    injection Hstep as Hst <-. subst st'.
    exists emitted. split; [|left; now repeat split].
    apply Hclosed. simpl.
    apply list_lookup_insert_eq. eapply lookup_lt_Some; eassumption.
  - (* error *)
    destruct (rs_open rs) eqn:Hopen; [|injection Hstep as <- <-; now apply Hnoop].
    injection Hstep as Hst <-. subst st'.
    exists emitted. split; [|left; now repeat split].
    apply Hclosed. simpl.
    apply list_lookup_insert_eq. eapply lookup_lt_Some; eassumption.
Qed.

(** The same with the record of the sender, for as long as the sender
    does not start another transfer: the count [b] that the [data] event
    finds is at least the count behind the last percentage emitted. *)
Lemma step_transfer s n total emitted lo st i st' out :
  transfer_inv s n total emitted lo st -> no_restart s i ->
  step st i = Some (st', out) ->
  exists emitted' lo',
    transfer_inv s n total emitted' lo' st' /\
    ((emitted' = emitted /\ lo' = lo /\
      (stream_of i = Some n -> progress_values out = [] /\ chunks_emitted out = []))
     \/
     (exists c b, stream_of i = Some n /\ c <> [] /\ lo <= b /\
                  lo' = b + Z.of_nat (length c) /\
                  emitted' = emitted + Z.of_nat (length c) /\
                  progress_values out = [progress b total; progress lo' total] /\
                  chunks_emitted out = [c])).
Proof.
  intros (Hstream & Hlo & Hrec) Hq Hstep.
  destruct (step_stream _ _ _ _ _ _ _ _ Hstream Hstep)
    as (emitted' & Hstream' &
        [[-> Hquiet] | (c & t & Hi & Hc & -> & Ht & Ht' & Hpv & Hch)]).
  - exists emitted, lo.
    split; [|left; split; [reflexivity | split; [reflexivity | exact Hquiet]]].
    split; [exact Hstream'|]. split; [exact Hlo|].
    intros t' Ht'.
    destruct (step_record_grows s st i st' out Hq Hstep t' Ht') as (t & Ht & Hle & _).
    specialize (Hrec t Ht). lia.
  - specialize (Hrec t Ht).
    exists (emitted + Z.of_nat (length c)), (sentBytes t + Z.of_nat (length c)).
    split.
    + split; [exact Hstream'|]. split; [lia|].
      intros t' Hlook. rewrite Hlook in Ht'. simpl in Ht'. injection Ht' as ->. lia.
    + right. exists c, (sentBytes t). now repeat split.
Qed.
Lemma nondecreasing_from_sorted lo l :
  nondecreasing_from lo l -> StronglySorted Z.le l /\ Forall (Z.le lo) l.
Proof.
  revert lo. induction l as [|x l IH]; intros lo H; [split; constructor|].
  destruct H as [Hlo Hrest]. destruct (IH x Hrest) as [Hs Hall].
  split.
  - now constructor.
  - constructor; [exact Hlo|].
    eapply Forall_impl; [exact Hall|]. intros y Hy. simpl in Hy. lia.
Qed.

(** The log of a transfer under the invariant: the percentages emitted by
    its stream never go down and never exceed 100, the chunks emitted add
    up to the growth of the emitted byte count, and the last percentage
    emitted, if there is one, is the percentage of the count [lo]. *)
Lemma run_transfer s n total ins :
  0 <= total -> forall st emitted lo,
  transfer_inv s n total emitted lo st -> Forall (no_restart s) ins ->
  nondecreasing_from (progress lo total)
    (progress_values (session_out n (trace st ins))) /\
  Forall (fun p => p <= 100) (progress_values (session_out n (trace st ins))) /\
  forall st', run st ins = Some st' ->
    exists emitted' lo',
      transfer_inv s n total emitted' lo' st' /\
      emitted' = emitted + total_length (chunks_emitted (session_out n (trace st ins))) /\
      ((last (progress_values (session_out n (trace st ins))) = None
        /\ emitted' = emitted /\ lo' = lo)
       \/ (last (progress_values (session_out n (trace st ins)))
             = Some (progress lo' total) /\ emitted < emitted')).
Proof.
  intros Htotal. induction ins as [|i ins IH]; intros st emitted lo Hinv Hall.
  - simpl. repeat split; [constructor|].
    intros st' [= <-]. exists emitted, lo.
    split; [exact Hinv|]. split; [lia|]. now left.
  - apply Forall_cons in Hall. destruct Hall as [Hi Hrest].
    simpl. destruct (step st i) as [[st1 out]|] eqn:Hstep;
      [|simpl; repeat split; [constructor | discriminate]].
    rewrite session_out_cons, progress_values_app, chunks_emitted_app.
    destruct (step_transfer _ _ _ _ _ _ _ _ _ Hinv Hi Hstep)
      as (emitted1 & lo1 & Hinv1 &
          [(-> & -> & Hquiet) | (c & b & Hmine & Hc & Hb & -> & -> & Hpv & Hch)]).
    + destruct (IH st1 emitted lo Hinv1 Hrest) as (Hnd & Hle & Hrun).
      assert (E : progress_values (if decide (stream_of i = Some n) then out else []) = []
                  /\ chunks_emitted (if decide (stream_of i = Some n) then out else []) = []).
      { case_decide; [now apply Hquiet | now split]. }
      destruct E as [-> ->]. simpl. auto.
    + rewrite decide_True by exact Hmine. rewrite Hpv, Hch.
      assert (Hlen : 0 < Z.of_nat (length c)) by (destruct c; [contradiction | simpl; lia]).
      pose proof Hinv as ((Hem0 & _) & Hlo0 & _).
      destruct (IH st1 _ _ Hinv1 Hrest) as (Hnd & Hle & Hrun).
      split; [|split].
      * simpl. split; [apply progress_mono; lia|].
        split; [apply progress_mono; lia | exact Hnd].
      * simpl. constructor; [apply progress_le_100|].
        constructor; [apply progress_le_100 | exact Hle].
      * intros st' Hst'.
        destruct (Hrun st' Hst') as (emitted' & lo' & Hinv' & Hsum & Hlast).
        exists emitted', lo'. split; [exact Hinv'|]. split.
        -- rewrite total_length_app. simpl. lia.
        -- right. split; [|destruct Hlast as [(_ & -> & _)|[_ ?]]; lia].
           cbn [app]. rewrite !last_cons.
           destruct Hlast as [(-> & _ & ->)|[-> _]]; reflexivity.
Qed.

(** The bytes a stream has emitted, over any run whatsoever. *)
Lemma run_stream s n total ins : forall st emitted,
  stream_inv s n total emitted st ->
  forall st', run st ins = Some st' ->
    exists emitted',
      stream_inv s n total emitted' st' /\
      emitted' = emitted + total_length (chunks_emitted (session_out n (trace st ins))) /\
      (emitted' = emitted -> progress_values (session_out n (trace st ins)) = []).
Proof.
  induction ins as [|i ins IH]; intros st emitted Hinv st' Hrun.
  - injection Hrun as <-. exists emitted. simpl. split; [exact Hinv|]. split; [lia | auto].
  - simpl in Hrun |- *. destruct (step st i) as [[st1 out]|] eqn:Hstep; [|discriminate].
    rewrite session_out_cons, progress_values_app, chunks_emitted_app.
    destruct (step_stream _ _ _ _ _ _ _ _ Hinv Hstep)
      as (emitted1 & Hinv1 &
          [[-> Hquiet] | (c & t & Hmine & Hc & -> & _ & _ & Hpv & Hch)]).
    + destruct (IH st1 emitted Hinv1 st' Hrun) as (emitted' & Hinv' & Hsum & Hnone).
      assert (E : progress_values (if decide (stream_of i = Some n) then out else []) = []
                  /\ chunks_emitted (if decide (stream_of i = Some n) then out else []) = []).
      { case_decide; [now apply Hquiet | now split]. }
      destruct E as [-> ->]. exists emitted'. simpl. auto.
    + destruct (IH st1 _ Hinv1 st' Hrun) as (emitted' & Hinv' & Hsum & Hnone).
      rewrite decide_True by exact Hmine. rewrite Hch.
      assert (Hlen : 0 < Z.of_nat (length c)) by (destruct c; [contradiction | simpl; lia]).
      pose proof (total_length_nonneg (chunks_emitted (session_out n (trace st1 ins)))).
      exists emitted'. split; [exact Hinv'|]. split.
      * rewrite total_length_app. simpl. lia.
      * intros Heq. lia.
Qed.

Lemma start_stream_inv st s fid rid content :
  uploads st !! Path.join uploadsDir fid = Some content ->
  stream_inv s (length (streams st)) (Z.of_nat (length content)) 0
             (start_transfer s fid rid st).1.
Proof.
  intros Hfile. unfold start_transfer. rewrite Hfile.
  cbn [fst]. unfold stream_inv. cbn [streams with_streams with_transfers].
  split; [lia|].
  eexists. split; [apply list_lookup_middle; reflexivity|].
  cbn [rs_socket rs_size rs_open rs_pending].
  repeat split.
  - apply chunks_of_total.
  - apply chunks_fuel_nonempty. unfold highWaterMark. lia.
Qed.

Lemma start_transfer_inv st s fid rid content :
  uploads st !! Path.join uploadsDir fid = Some content ->
  transfer_inv s (length (streams st)) (Z.of_nat (length content)) 0 0
               (start_transfer s fid rid st).1.
Proof.
  intros Hfile. split; [now apply start_stream_inv|]. split; [lia|].
  rewrite (start_transfer_file _ _ _ _ _ Hfile). unfold begin_transfer.
  cbn [fst activeTransfers with_streams with_transfers].
  intros t. rewrite lookup_insert_eq. intros [= <-]. simpl. lia.
Qed.

(** C6, amended: the percentages that the stream of a transfer emits, in
    [file-chunk] and [transfer-progress] messages and in the order of
    emission, never go down and lie between 0 and 100, provided the sender
    sends no further [start-transfer] while the transfer runs; anything
    else may happen in between.  The percentage is the value of the formula
    [floor(min(100, round(bytesSent / totalBytes * 100)))] with the
    quotient and the product taken in binary64, as JavaScript takes them
    (the outer [floor] changes nothing); next to a half-way point that can
    be the neighbour of the value the formula has over the rationals, see
    [progress_half_way]. *)
Theorem progress_values_monotone
    (st : Server) (s fid rid : string) (content : list Byte.byte) (ins : list Input) :
  uploads st !! Path.join uploadsDir fid = Some content ->
  Forall (no_restart s) ins ->
  StronglySorted Z.le
    (progress_values (session_out (length (streams st))
                                  (trace (start_transfer s fid rid st).1 ins))) /\
  Forall (fun p => 0 <= p <= 100)
    (progress_values (session_out (length (streams st))
                                  (trace (start_transfer s fid rid st).1 ins))) /\
  (forall bytesSent totalBytes,
      progress bytesSent totalBytes = spec_progress_f64 bytesSent totalBytes).
Proof.
  intros Hfile Hquiet.
  pose proof (start_transfer_inv st s fid rid content Hfile) as Hinv.
  destruct (run_transfer s _ _ ins (Nat2Z.is_nonneg _) _ _ _ Hinv Hquiet)
    as (Hnd & Hle & _).
  apply nondecreasing_from_sorted in Hnd. destruct Hnd as [Hsorted Hlo].
  split; [exact Hsorted|]. split.
  - rewrite progress_zero in Hlo.
    rewrite Forall_forall in Hlo, Hle. apply Forall_forall.
    intros p Hp. split; [now apply Hlo | now apply Hle].
  - intros b t. symmetry. apply spec_progress_f64_eq.
Qed.

(** C3, amended: when the stream of a transfer has delivered the whole
    file, so that [end] is its next event, the chunks it emitted in
    [file-chunk] messages add up to the size of the file, which is the
    [totalBytes] that [start-transfer] stored in the session record.  If
    moreover the file is not empty and the sender has sent no further
    [start-transfer] meanwhile, the last percentage emitted is 100.  A file
    of zero bytes has no chunk and gets no percentage at all.  The [end]
    listener then tells both parties [transfer-complete]. *)
Theorem completed_transfer_totals
    (st st2 : Server) (s fid rid : string) (content : list Byte.byte)
    (ins : list Input) (rs : ReadStream) :
  uploads st !! Path.join uploadsDir fid = Some content ->
  run (start_transfer s fid rid st).1 ins = Some st2 ->
  streams st2 !! length (streams st) = Some rs ->
  rs_open rs = true -> rs_pending rs = [] ->
  total_length
    (chunks_emitted (session_out (length (streams st))
                                 (trace (start_transfer s fid rid st).1 ins)))
    = Z.of_nat (length content) /\
  (totalBytes <$> activeTransfers (start_transfer s fid rid st).1 !! s)
    = Some (Z.of_nat (length content)) /\
  (Forall (no_restart s) ins -> content <> [] ->
   last (progress_values (session_out (length (streams st))
                                      (trace (start_transfer s fid rid st).1 ins)))
     = Some 100) /\
  (content = [] ->
   progress_values (session_out (length (streams st))
                                (trace (start_transfer s fid rid st).1 ins)) = []) /\
  exists st3,
    step st2 (StreamEnd (length (streams st))) =
      Some (st3, [(to_socket s, transfer_complete); (to_group rid, transfer_complete)]).
Proof.
  intros Hfile Hrun Hn Hopen Hpend.
  pose proof (start_stream_inv st s fid rid content Hfile) as Hsinv.
  destruct (run_stream s _ _ ins _ _ Hsinv st2 Hrun)
    as (emitted' & (Hem & rs2 & Hn2 & Hown & Hsize & Hlive) & Hsum & Hnone).
  assert (rs2 = rs) by congruence. subst rs2.
  destruct (Hlive Hopen) as (Hrest & _).
  rewrite Hpend in Hrest. simpl in Hrest.
  assert (Hall : emitted' = Z.of_nat (length content)) by lia.
  assert (Hrid : rs_receiverId rs = rid).
  { pose proof (start_transfer_stream st s fid rid content Hfile) as Hstart.
    destruct (run_streams _ _ _ _ _ Hrun Hstart) as (rs' & Hn' & Hc).
    assert (rs' = rs) by congruence. subst rs'.
    destruct Hc as (_ & _ & Hc & _). exact Hc. }
  split; [lia|]. split; [|split; [|split]].
  - rewrite (start_transfer_file _ _ _ _ _ Hfile). unfold begin_transfer.
    simpl. now rewrite lookup_insert_eq.
  - intros Hquiet Hne.
    pose proof (start_transfer_inv st s fid rid content Hfile) as Hinv.
    destruct (run_transfer s _ _ ins (Nat2Z.is_nonneg _) _ _ _ Hinv Hquiet)
      as (_ & _ & Hfin).
    destruct (Hfin st2 Hrun)
      as (emitted2 & lo2 & ((_ & rs2 & Hn2' & _ & _ & Hlive2) & Hlo2 & _) & _ & Hlast).
    assert (rs2 = rs) by congruence. subst rs2.
    destruct (Hlive2 Hopen) as (Hrest2 & _).
    rewrite Hpend in Hrest2. simpl in Hrest2.
    destruct Hlast as [(_ & Hzero & _)|[Hsome Hlt]].
    + destruct content; [contradiction | simpl in *; lia].
    + rewrite Hsome. f_equal. apply progress_ge_full; lia.
  - intros ->. simpl in Hall. apply Hnone. lia.
  - cbn [step]. rewrite Hn, Hopen, Hpend. unfold on_end. simpl.
    rewrite Hown, Hrid. eexists. reflexivity.
Qed.

(** C6 as stated fails: [s1] starts the transfer of a two-chunk file and,
    after the first chunk, starts it again.  The record is overwritten
    with a count of zero, and the second chunk of the first stream goes out
    with a percentage below the one already reported. *)
Lemma restarted_transfer_progress_drops :
  progress_values Overlap.log0 = [0; 100; 0; 0] /\
  ~ StronglySorted Z.le (progress_values Overlap.log0).
Proof.
  assert (E : progress_values Overlap.log0 = [0; 100; 0; 0])
    by (vm_compute; reflexivity).
  split; [exact E|]. rewrite E. intros H.
  apply StronglySorted_inv in H. destruct H as [H _].
  apply StronglySorted_inv in H. destruct H as [_ H].
  apply Forall_inv in H. lia.
Qed.

(** C3 as stated fails in the same run: the first stream delivers all
    64 KiB + 1 bytes and ends with [transfer-complete], and the last
    percentage it emitted is 0. *)
Lemma restarted_transfer_ends_below_100 :
  total_length (chunks_emitted Overlap.log0) = 65537 /\
  (snd <$> last (trace Overlap.server Overlap.ins))
    = Some [(to_socket "s1", transfer_complete); (to_group "s2", transfer_complete)] /\
  last (progress_values Overlap.log0) = Some 0 /\
  last (progress_values Overlap.log0) <> Some 100.
Proof.
  assert (E : last (progress_values Overlap.log0) = Some 0)
    by (vm_compute; reflexivity).
  repeat split; try (vm_compute; reflexivity).
  rewrite E. discriminate.
Qed.
(** ** What [start-transfer] does not check *)

Lemma data_chunk_dest st n rs st' out e :
  streams st !! n = Some rs ->
  step st (StreamData n) = Some (st', out) ->
  In e out -> is_file_chunk e = true -> e.1 = to_group (rs_receiverId rs).
Proof.
  intros Hn Hstep Hin He. cbn [step] in Hstep. rewrite Hn in Hstep.
  destruct (rs_open rs), (rs_pending rs) as [|c rest];
    try (injection Hstep as _ <-; destruct Hin).
  unfold on_data in Hstep.
  destruct (activeTransfers _ !! rs_socket rs); [|discriminate].
  injection Hstep as _ <-.
  destruct Hin as [<-|[<-|[]]]; [reflexivity | discriminate].
Qed.

(** What [start-transfer] looks at.  It answers [transfer-error] to the
    caller exactly when the joined path is neither a file nor a directory.
    What it emits is a function of the file system and of its arguments
    only: the rooms, the roles held in them, the existing sessions and the
    group memberships are not looked at.  When the file exists,
    [transfer-started] goes to the group named by the [receiverId]
    supplied, and so does every [file-chunk] that the stream emits later,
    whatever happens in between. *)
Lemma start_transfer_unchecked (st : Server) (id fid rid : string) :
  let path := Path.join uploadsDir fid in
  let r := start_transfer id fid rid st in
  ((exists m, In (to_socket id, transfer_error m) r.2) <->
   uploads st !! path = None /\ dirs st !! Path.strip_slash path = None) /\
  (forall st', uploads st' = uploads st -> dirs st' = dirs st ->
               (start_transfer id fid rid st').2 = r.2) /\
  (forall content, uploads st !! path = Some content ->
     r.2 = [(to_group rid,
             transfer_started
               (mkFileInfo fid (display_name path) (Z.of_nat (length content))
                           (getMimeType path)))] /\
     (forall ins st2 st3 out e,
         run r.1 ins = Some st2 ->
         step st2 (StreamData (length (streams st))) = Some (st3, out) ->
         In e out -> is_file_chunk e = true -> e.1 = to_group rid) /\
     (forall chunk rest,
         chunks_of highWaterMark content = chunk :: rest ->
         exists st3 p q,
           step r.1 (StreamData (length (streams st))) =
             Some (st3, [(to_group rid, file_chunk fid chunk p);
                         (to_socket id, transfer_progress q)]))).
Proof.
  intros path r. split; [|split].
  - subst r. unfold start_transfer, begin_transfer. fold path.
    destruct (uploads st !! path) as [content|]; simpl.
    + split; [|intros [? _]; discriminate]. intros (m & [H|[]]). discriminate.
    + destruct (dirs st !! Path.strip_slash path); simpl.
      * split; [|intros [_ ?]; discriminate]. intros (m & [H|[]]). discriminate.
      * split; [now split|]. intros _. eexists. left. reflexivity.
  - intros st' Hup Hdirs. subst r. unfold start_transfer, begin_transfer.
    rewrite Hup, Hdirs. fold path.
    destruct (uploads st !! path); [reflexivity|].
    destruct (dirs st !! Path.strip_slash path); reflexivity.
  - intros content Hfile.
    pose proof (start_transfer_stream st id fid rid content Hfile) as Hstream.
    fold r in Hstream. split; [|split].
    + subst r. unfold start_transfer. fold path. rewrite Hfile. reflexivity.
    + intros ins st2 st3 out e Hrun Hstep Hin He.
      destruct (run_streams _ _ _ _ _ Hrun Hstream) as (rs' & Hn' & Hc).
      rewrite (data_chunk_dest _ _ _ _ _ _ Hn' Hstep Hin He).
      destruct Hc as (_ & _ & -> & _). reflexivity.
    + intros chunk rest Hchunks.
      cbn [step]. rewrite Hstream. cbn [rs_open rs_pending]. rewrite Hchunks.
      unfold on_data. cbn [rs_socket]. subst r. unfold start_transfer. fold path.
      rewrite Hfile. simpl. rewrite lookup_insert_eq.
      eexists _, _, _. reflexivity.
Qed.

(** C9: the first half of the claim on the empty [fileId], where the
    existence test takes the upload directory for the file.  No file of
    that name exists, and yet the handler emits no [transfer-error] but
    [transfer-started], to the receiver supplied.  What the caller gets
    is the message of the [error] listener, once the stream has failed to
    read the directory. *)
Theorem start_transfer_accepts_directory :
  (forall p, uploads (initial ∅) !! p = None) /\
  (forall m, ~ In (to_socket "s1", transfer_error m)
                  (start_transfer "s1" "" "s2" (initial ∅)).2) /\
  trace (initial ∅) [StartTransfer "s1" "" "s2"; StreamError 0] =
    [(StartTransfer "s1" "" "s2",
      [(to_group "s2",
        transfer_started (mkFileInfo "" "" 4096 "application/octet-stream"))]);
     (StreamError 0,
      [(to_socket "s1", transfer_error "Error reading file");
       (to_group "s2", transfer_error "Error transferring file")])].
Proof.
  split; [intros p; apply lookup_empty|]. split.
  - intros m. vm_compute. intros [H|[]]. discriminate.
  - vm_compute. reflexivity.
Qed.

(** The same test lets a [fileId] lead out of the upload directory:
    [path.join] resolves the [..], and a file that was never uploaded,
    here the program text next to the upload directory, is announced and
    relayed to the receiver. *)
Example start_transfer_outside_upload_directory :
  Path.join uploadsDir "../server.js" = "/app/backend/server.js" /\
  trace (initial {[ "/app/backend/server.js" := [Byte.x63; Byte.x6f] ]})
        [StartTransfer "s1" "../server.js" "s2"; StreamData 0] =
    [(StartTransfer "s1" "../server.js" "s2",
      [(to_group "s2",
        transfer_started (mkFileInfo "../server.js" "" 2 "text/javascript"))]);
     (StreamData 0,
      [(to_group "s2", file_chunk "../server.js" [Byte.x63; Byte.x6f] 0);
       (to_socket "s1", transfer_progress 100)])].
Proof. split; vm_compute; reflexivity. Qed.

(** Other spellings of a stored name reach the stored file. *)
Example start_transfer_normalises :
  Path.join uploadsDir "./a.bin" = Path.join uploadsDir "a.bin" /\
  Path.join uploadsDir "x/../a.bin" = Path.join uploadsDir "a.bin" /\
  Path.join uploadsDir "//a.bin" = Path.join uploadsDir "a.bin" /\
  Path.join uploadsDir "." = uploadsDir /\
  Path.join uploadsDir ".." = dirname /\
  Path.join uploadsDir "../../../.." = "/" /\
  Path.join uploadsDir "a.bin/" = Path.join uploadsDir "a.bin" +:+ "/".
Proof. repeat split. Qed.

(** A separator at the end asks for a directory: the upload directory is
    found under [/] too, and a stored file is not found under its name
    followed by a separator. *)
Example start_transfer_trailing_separator :
  (start_transfer "s1" "/" "s2" (initial ∅)).2 =
    [(to_group "s2",
      transfer_started (mkFileInfo "/" "" 4096 "application/octet-stream"))] /\
  (start_transfer "s1" "a.bin/" "s2"
     (initial {[ Path.join uploadsDir "a.bin" := [Byte.x00] ]})).2 =
    [(to_socket "s1", transfer_error "File not found on server")] /\
  (start_transfer "s1" "./a.bin" "s2"
     (initial {[ Path.join uploadsDir "a.bin" := [Byte.x00] ]})).2 =
    [(to_group "s2",
      transfer_started (mkFileInfo "./a.bin" "" 1 "application/octet-stream"))].
Proof.
  split; [vm_compute; reflexivity|]. split; vm_compute; reflexivity.
Qed.
(** ** The theorems on the scenario *)

Lemma join_roles_in_order_witness :
  (join_room "s1" "ABC123" Demo.st0).2
    = [(to_socket "s1", room_joined "sender" "ABC123")] /\
  (join_room "s2" "ABC123" Demo.before_second).2
    = [(to_socket "s2", room_joined "receiver" "ABC123"); (to_group "s1", user_joined "s2")] /\
  (join_room "s3" "ABC123" Demo.before_third).2 = [(to_socket "s3", room_full)] /\
  rooms (join_room "s3" "ABC123" Demo.before_third).1 = rooms Demo.before_third /\
  rooms_get "ABC123" (rooms (join_room "s3" "ABC123" Demo.before_third).1)
    = Some (mkRoom (Some "s1") (Some "s2") None).
Proof.
  apply (join_roles_in_order Demo.st0 "ABC123" "s1" "s2" "s3" Demo.mid1 Demo.mid2
           Demo.after_first Demo.before_second Demo.after_second Demo.before_third).
  - vm_compute. reflexivity.
  - discriminate.
  - discriminate.
  - repeat constructor; discriminate.
  - repeat constructor; discriminate.
  - apply surjective_pairing.
  - vm_compute. reflexivity.
  - apply surjective_pairing.
  - vm_compute. reflexivity.
  - apply surjective_pairing.
Defined.

(** C2: what the [data] listener does where the increment is expected
    to come first and the two percentages to agree.  For the single chunk
    of the five-byte file the record counts 0 bytes before the event and 5
    after it; the [file-chunk] message carries the percentage of the count
    before the increment, 0, and the [transfer-progress] message that
    follows carries the percentage of the count after it, 100. *)
Theorem file_chunk_progress_lags :
  (sentBytes <$> activeTransfers Demo.started !! "s1") = Some 0 /\
  exists st',
    step Demo.started (StreamData 0) =
      Some (st', [(to_group "s2", file_chunk Demo.fid Demo.content 0);
                  (to_socket "s1", transfer_progress 100)]) /\
    (sentBytes <$> activeTransfers st' !! "s1") = Some 5.
Proof.
  split; [vm_compute; reflexivity|].
  destruct (data_listener_order 0 Demo.stream0 Demo.content [] Demo.record0 Demo.started)
    as (st' & Hstep & Hsent); try (vm_compute; reflexivity).
  exists st'. split; [exact Hstep | exact Hsent].
Qed.

Lemma completed_transfer_totals_witness :
  total_length (chunks_emitted Demo.log_delivered) = 5 /\
  (totalBytes <$> activeTransfers Demo.started !! "s1") = Some 5 /\
  (Forall (no_restart "s1") [StreamData 0] -> Demo.content <> [] ->
   last (progress_values Demo.log_delivered) = Some 100) /\
  (Demo.content = [] -> progress_values Demo.log_delivered = []) /\
  exists st3,
    step Demo.delivered (StreamEnd 0) =
      Some (st3, [(to_socket "s1", transfer_complete); (to_group "s2", transfer_complete)]).
Proof.
  apply (completed_transfer_totals Demo.paired Demo.delivered "s1" Demo.fid "s2"
           Demo.content [StreamData 0]
           (mkReadStream "s1" Demo.fid "s2" Demo.path 5 [] true)).
  - vm_compute. reflexivity.
  - vm_compute. reflexivity.
  - vm_compute. reflexivity.
  - reflexivity.
  - reflexivity.
Defined.

Lemma sender_disconnect_cancels_witness :
  exists st1,
    step Demo.started (Disconnect "s1") = Some (st1, [(to_group "s2", transfer_cancelled)]) /\
    activeTransfers st1 !! "s1" = None /\
    forall ins n rs,
      Forall (fun i => client_of i <> Some "s1") ins ->
      streams Demo.started !! n = Some rs -> rs_socket rs = "s1" ->
      Forall (fun e => is_file_chunk e = false) (session_out n (trace st1 ins)).
Proof.
  apply (sender_disconnect_cancels Demo.started "s1" Demo.record0).
  vm_compute. reflexivity.
Defined.

Lemma start_transfer_empty_file_id_witness :
  Path.join uploadsDir "" = uploadsDir /\
  (start_transfer "s1" "" "s2" (initial ∅)).2 =
    [(to_group "s2",
      transfer_started (mkFileInfo "" "" 4096 "application/octet-stream"))] /\
  (forall m, ~ In (to_socket "s1", transfer_error m)
                  (start_transfer "s1" "" "s2" (initial ∅)).2) /\
  activeTransfers (start_transfer "s1" "" "s2" (initial ∅)).1 !! "s1" =
    Some (mkTransfer "" "s2" uploadsDir 0 4096) /\
  streams (start_transfer "s1" "" "s2" (initial ∅)).1 =
    streams (initial ∅) ++ [mkReadStream "s1" "" "s2" uploadsDir 4096 [] true].
Proof.
  apply (start_transfer_empty_file_id (initial ∅) "s1" "s2" 4096).
  - apply lookup_empty.
  - vm_compute. reflexivity.
Defined.

(** A [fileId] that names nothing in the upload directory. *)
Example demo_missing_file :
  start_transfer "s1" "nope.bin" "s2" Demo.paired =
    (Demo.paired, [(to_socket "s1", transfer_error "File not found on server")]).
Proof. apply start_transfer_not_found; vm_compute; reflexivity. Qed.

Lemma progress_values_monotone_witness :
  StronglySorted Z.le (progress_values Demo.log_complete) /\
  Forall (fun p => 0 <= p <= 100) (progress_values Demo.log_complete) /\
  (forall bytesSent totalBytes,
      progress bytesSent totalBytes = spec_progress_f64 bytesSent totalBytes).
Proof.
  apply (progress_values_monotone Demo.paired "s1" Demo.fid "s2" Demo.content
           [StreamData 0; StreamEnd 0]).
  - vm_compute. reflexivity.
  - repeat constructor.
Defined.

Lemma read_error_discards_session_witness :
  exists st',
    step Demo.started (StreamError 0) =
      Some (st', [(to_socket "s1", transfer_error "Error reading file");
                  (to_group "s2", transfer_error "Error transferring file")]) /\
    activeTransfers st' !! "s1" = None /\
    timers st' = timers Demo.started /\
    uploads st' = uploads Demo.started.
Proof.
  apply (read_error_discards_session 0 Demo.stream0 Demo.started).
  - vm_compute. reflexivity.
  - reflexivity.
Defined.

Lemma display_name_strips_first_token_witness :
  exists info,
    (start_transfer "s1" "1699999999999-42-photo.png" "s2" Demo.paired).2
      = [(to_group "s2", transfer_started info)] /\
    fi_id info = "1699999999999-42-photo.png" /\
    fi_name info = "42-photo.png".
Proof.
  apply (display_name_strips_first_token Demo.paired "s1" "s2"
           "1699999999999" "42-photo.png" Demo.content).
  - reflexivity.
  - reflexivity.
  - reflexivity.
  - vm_compute. reflexivity.
Defined.

(** The values behind the witnesses, evaluated. *)
Example demo_data_event :
  trace Demo.started [StreamData 0; StreamEnd 0] =
    [(StreamData 0, [(to_group "s2", file_chunk Demo.fid Demo.content 0);
                     (to_socket "s1", transfer_progress 100)]);
     (StreamEnd 0, [(to_socket "s1", transfer_complete);
                    (to_group "s2", transfer_complete)])].
Proof. vm_compute. reflexivity. Qed.

Example demo_display_name :
  display_name (Path.join uploadsDir "1699999999999-42-photo.png") = "42-photo.png".
Proof. reflexivity. Qed.

(** After the sender has disconnected the stream still holds its chunk;
    delivering it throws, and the log ends there. *)
Example demo_disconnect_then_data :
  trace Demo.started [Disconnect "s1"; StreamData 0; JoinRoom "s3" "ABC123"] =
    [(Disconnect "s1", [(to_group "s2", transfer_cancelled)])] /\
  run Demo.started [Disconnect "s1"; StreamData 0] = None.
Proof. split; vm_compute; reflexivity. Qed.

(** The order of [for ... in]: canonical array indices first, by value. *)
Example for_in_order :
  for_in_keys [("b", empty_room); ("10", empty_room); ("007", empty_room);
               ("9", empty_room); ("4294967295", empty_room); ("a", empty_room)]
  = ["9"; "10"; "b"; "007"; "4294967295"; "a"].
Proof. reflexivity. Qed.

Example mime_types :
  getMimeType "uploads/17-3-Photo.PNG" = "image/png" /\
  getMimeType "uploads/17-3-archive.tar.gz" = "application/octet-stream" /\
  getMimeType "uploads/17-3-.html" = "text/html" /\
  getMimeType "uploads/17-3-README" = "application/octet-stream".
Proof. repeat split. Qed.

(** A chunk never exceeds the 64 KiB of the buffer of the stream. *)
Lemma chunks_of_bound (data : list Byte.byte) :
  Forall (fun c => (length c <= highWaterMark)%nat) (chunks_of highWaterMark data).
Proof. apply chunks_fuel_bound. Qed.
(** * Further properties of the handlers *)

(** ** File names and types *)

Lemma last_dot_app a e :
  occurs "."%char e = false ->
  Path.last_dot (a +:+ String "."%char e) = Some (String.length a).
Proof.
  intros He. induction a as [|c a IH]; simpl.
  - assert (H : Path.last_dot e = None).
    { clear -He. induction e as [|c e IH]; simpl in *; [reflexivity|].
      apply orb_false_iff in He. destruct He as [Hc He].
      rewrite (IH He), Hc. reflexivity. }
    now rewrite H.
  - now rewrite IH.
Qed.

Lemma drop_chars_app a b : Path.drop_chars (String.length a) (a +:+ b) = b.
Proof. induction a as [|c a IH]; simpl; [now destruct b | exact IH]. Qed.

Lemma lower_ascii_fold c : Js.lower_ascii c = fold_letter c upper_letters lower_letters.
Proof. destruct c as [[] [] [] [] [] [] [] []]; reflexivity. Qed.

Lemma toLowerCase_fold s : Js.toLowerCase s = fold_case s.
Proof.
  induction s as [|c s IH]; [reflexivity|].
  cbn [Js.toLowerCase fold_case]. now rewrite lower_ascii_fold, IH.
Qed.

(** Looking up the lower-cased extension is looking up the extension
    without regard to case, since the keys of the table are in lower
    case. *)
Lemma assoc_lower_caseless x :
  assoc (Js.toLowerCase x) mimeTypes = lookup_caseless x mimeTypes.
Proof.
  rewrite toLowerCase_fold. unfold mimeTypes, caseless_eq.
  cbn [assoc lookup_caseless]. reflexivity.
Qed.

(** The extension of a name with a stem before its last dot. *)
Lemma extname_stem dir stem e :
  stem <> "" ->
  occurs "/"%char stem = false -> occurs "/"%char e = false ->
  occurs "."%char e = false ->
  stem +:+ "." +:+ e <> ".." ->
  Path.extname (dir +:+ "/" +:+ (stem +:+ "." +:+ e)) = "." +:+ e.
Proof.
  intros Hstem Hs1 Hs2 Hdot Hdd. unfold Path.extname.
  rewrite basename_concat.
  2:{ rewrite occurs_app, Hs1. simpl. exact Hs2. }
  2:{ destruct stem; [contradiction | discriminate]. }
  apply String.eqb_neq in Hdd. rewrite Hdd.
  change (stem +:+ "." +:+ e) with (stem +:+ String "."%char e).
  rewrite (last_dot_app stem e Hdot).
  destruct stem as [|c stem]; [contradiction|].
  change (String.length (String c stem)) with (S (String.length stem)).
  cbv iota. change (S (String.length stem)) with (String.length (String c stem)).
  apply drop_chars_app.
Qed.

(** X1: for a file name with something before its last dot, the MIME type
    sent with [transfer-started] is decided by the text from that dot on,
    read without regard to case: it is the type of the table entry whose
    key is that extension up to case, and [application/octet-stream] when
    there is none, whatever the directory and the text before the dot.  A
    name that is nothing but a dot and an extension, such as [.png], has
    no extension for [path.extname] and gets [application/octet-stream]. *)
Theorem mime_type_by_extension (dir stem e : string) :
  occurs "/"%char stem = false -> occurs "/"%char e = false ->
  occurs "."%char e = false ->
  (stem <> "" ->
   getMimeType (dir +:+ "/" +:+ (stem +:+ "." +:+ e)) =
     default "application/octet-stream" (lookup_caseless ("." +:+ e) mimeTypes)) /\
  getMimeType (dir +:+ "/" +:+ ("." +:+ e)) = "application/octet-stream".
Proof.
  intros Hs1 Hs2 Hdot. split.
  - intros Hstem. unfold getMimeType.
    destruct (string_dec (stem +:+ "." +:+ e) "..") as [E|N].
    + unfold Path.extname. rewrite basename_concat.
      2:{ rewrite occurs_app, Hs1. simpl. exact Hs2. }
      2:{ destruct stem; [contradiction | discriminate]. }
      rewrite E.
      destruct stem as [|c stem]; [contradiction|].
      change (String c stem +:+ "." +:+ e) with (String c (stem +:+ String "."%char e)) in E.
      injection E as -> E.
      destruct stem as [|c' stem].
      * change (String "."%char e = ".") in E. injection E as ->. reflexivity.
      * change (String c' (stem +:+ String "."%char e) = ".") in E.
        injection E as _ E. destruct stem; discriminate E.
    + rewrite (extname_stem dir stem e Hstem Hs1 Hs2 Hdot N).
      rewrite assoc_lower_caseless.
      destruct (lookup_caseless _ _); reflexivity.
  - unfold getMimeType, Path.extname.
    rewrite basename_concat; [|simpl; exact Hs2 | discriminate].
    change ("." +:+ e) with ("" +:+ String "."%char e).
    rewrite (last_dot_app "" e Hdot). reflexivity.
Qed.

Lemma mime_type_by_extension_witness :
  ("1700000000000-7-Holiday.Photo" <> "" ->
   getMimeType ("uploads" +:+ "/" +:+ ("1700000000000-7-Holiday.Photo" +:+ "." +:+ "PnG"))
   = default "application/octet-stream" (lookup_caseless ("." +:+ "PnG") mimeTypes)) /\
  getMimeType ("uploads" +:+ "/" +:+ ("." +:+ "PnG")) = "application/octet-stream".
Proof.
  apply (mime_type_by_extension "uploads" "1700000000000-7-Holiday.Photo" "PnG").
  - reflexivity.
  - reflexivity.
  - reflexivity.
Defined.

Example mime_type_ignores_case :
  lookup_caseless ".PnG" mimeTypes = Some "image/png" /\
  getMimeType "uploads/1700000000000-7-Holiday.Photo.PnG" = "image/png" /\
  getMimeType "uploads/.png" = "application/octet-stream".
Proof. repeat split. Qed.

(** X2: a file identifier without any hyphen gets the empty display name:
    [split('-')] yields one piece and [slice(1)] drops it. *)
Theorem display_name_without_hyphen
    (st : Server) (id rid fid : string) (content : list Byte.byte) :
  fid <> "" -> occurs "-"%char fid = false -> occurs "/"%char fid = false ->
  uploads st !! Path.join uploadsDir fid = Some content ->
  exists info,
    (start_transfer id fid rid st).2 = [(to_group rid, transfer_started info)] /\
    fi_name info = "".
Proof.
  intros Hne Hhy Hsl Hfile. rewrite (start_transfer_file _ _ _ _ _ Hfile).
  unfold begin_transfer. cbn [snd].
  eexists. split; [reflexivity|]. cbn [fi_name].
  destruct (string_dec fid ".") as [->|Hdot]; [reflexivity|].
  destruct (string_dec fid "..") as [->|Hdots]; [reflexivity|].
  rewrite (join_plain fid Hsl Hne Hdot Hdots).
  unfold display_name. rewrite (basename_concat _ _ Hsl Hne), (split_free _ _ Hhy).
  reflexivity.
Qed.

Lemma display_name_without_hyphen_witness :
  exists info,
    (start_transfer "s1" "notes.txt" "s2"
       (initial {[ Path.join uploadsDir "notes.txt" := [] ]})).2
      = [(to_group "s2", transfer_started info)] /\
    fi_name info = "".
Proof.
  apply (display_name_without_hyphen _ "s1" "s2" "notes.txt" []).
  - discriminate.
  - reflexivity.
  - reflexivity.
  - vm_compute. reflexivity.
Defined.

(** ** Uploading *)

Lemma uint_occurs c d :
  digit_val c = None -> occurs c (DecimalString.NilEmpty.string_of_uint d) = false.
Proof.
  intros Hc.
  induction d; cbn [DecimalString.NilEmpty.string_of_uint occurs];
    [reflexivity|..]; rewrite IHd, orb_false_r;
    apply Ascii.eqb_neq; intros <-; discriminate Hc.
Qed.

Lemma decimal_occurs c n : digit_val c = None -> occurs c (decimal n) = false.
Proof. apply uint_occurs. Qed.

Lemma decimal_inj n m : decimal n = decimal m -> n = m.
Proof.
  unfold decimal. intros H.
  apply (f_equal DecimalString.NilEmpty.uint_of_string) in H.
  rewrite !DecimalString.NilEmpty.usu in H. injection H as H.
  apply (f_equal N.of_uint) in H. now rewrite !DecimalN.Unsigned.of_to in H.
Qed.

Lemma cut_at_first sep a a' b b' :
  occurs sep a = false -> occurs sep a' = false ->
  a +:+ String sep b = a' +:+ String sep b' -> a = a' /\ b = b'.
Proof.
  revert a'. induction a as [|c a IH]; intros a' Ha Ha' E.
  - destruct a' as [|c' a']; simpl in E.
    + injection E as ->. now split.
    + injection E as <- _. simpl in Ha'. now rewrite Ascii.eqb_refl in Ha'.
  - simpl in Ha. apply orb_false_iff in Ha. destruct Ha as [Hc Ha].
    destruct a' as [|c' a']; simpl in E.
    + injection E as -> _. now rewrite Ascii.eqb_refl in Hc.
    + injection E as <- E. simpl in Ha'. apply orb_false_iff in Ha'.
      destruct (IH a' Ha (proj2 Ha') E) as [-> ->]. now split.
Qed.

Lemma append_assoc3 (a b c : string) : (a +:+ b) +:+ c = a +:+ (b +:+ c).
Proof.
  induction a as [|x a IH]; [reflexivity|].
  change (String x ((a +:+ b) +:+ c) = String x (a +:+ (b +:+ c))).
  now rewrite IH.
Qed.

Lemma storage_filename_shape now rnd f :
  storage_filename now rnd f =
    decimal now +:+ String "-"%char (decimal rnd +:+ String "-"%char (originalname f)).
Proof. unfold storage_filename. cbv zeta. now rewrite !append_assoc3. Qed.

(** X3: the stored file name determines the time stamp, the random number
    and the original name it was made from: two uploads get the same name,
    and so the same place in the upload directory, only if they agree on all
    three. *)
Theorem storage_filename_inj (now rnd now' rnd' : N) (f f' : UploadedFile) :
  storage_filename now rnd f = storage_filename now' rnd' f' ->
  now = now' /\ rnd = rnd' /\ originalname f = originalname f'.
Proof.
  rewrite !storage_filename_shape. intros E.
  apply cut_at_first in E; try (apply decimal_occurs; reflexivity).
  destruct E as [E1 E2].
  apply cut_at_first in E2; try (apply decimal_occurs; reflexivity).
  destruct E2 as [E2 E3].
  apply decimal_inj in E1, E2. auto.
Qed.

Lemma storage_filename_inj_witness :
  (1700000000000%N = 1700000000000%N) /\ (7%N = 7%N) /\
  originalname (mkUploadedFile "a.bin" "application/x-one" []) =
  originalname (mkUploadedFile "a.bin" "text/plain" [Byte.x00]).
Proof.
  apply (storage_filename_inj 1700000000000 7 1700000000000 7
           (mkUploadedFile "a.bin" "application/x-one" [])
           (mkUploadedFile "a.bin" "text/plain" [Byte.x00])).
  reflexivity.
Defined.

(** X4: a file that was uploaded can be transferred: [start-transfer] with
    the identifier of the upload response finds it and announces it with
    that identifier and with the size the response gave.  The name it
    announces is not the original name of the response but the random
    number, a hyphen and the original name, since only the time stamp is
    cut off. *)
Theorem upload_then_start_transfer
    (now rnd : N) (f : UploadedFile) (st : Server) (id rid : string) :
  occurs "/"%char (originalname f) = false ->
  exists st1 up,
    upload now rnd (Some f) st = (st1, upload_done up) /\
    up_name up = originalname f /\
    exists info,
      (start_transfer id (up_id up) rid st1).2 = [(to_group rid, transfer_started info)] /\
      fi_id info = up_id up /\
      fi_size info = up_size up /\
      fi_size info = Z.of_nat (length (file_bytes f)) /\
      fi_name info = decimal rnd +:+ "-" +:+ originalname f.
Proof.
  intros Hsl. unfold upload. eexists _, _. split; [reflexivity|].
  split; [reflexivity|]. cbn [up_id up_size].
  unfold start_transfer, begin_transfer. cbn [uploads with_uploads].
  rewrite lookup_insert_eq.
  eexists. split; [reflexivity|]. cbn [fi_id fi_size fi_name].
  repeat split.
  assert (Hrest : occurs "/"%char (decimal rnd +:+ String "-"%char (originalname f)) = false).
  { rewrite occurs_app, decimal_occurs by reflexivity. simpl. exact Hsl. }
  rewrite storage_filename_shape.
  pose proof (join_stored (decimal now)
                (decimal rnd +:+ String "-"%char (originalname f))
                (decimal_occurs "/"%char now eq_refl) Hrest) as Hjoin.
  change (decimal now +:+ "-" +:+ decimal rnd +:+ String "-"%char (originalname f))
    with (decimal now +:+ String "-"%char
                        (decimal rnd +:+ String "-"%char (originalname f))) in Hjoin.
  rewrite Hjoin.
  apply (display_name_strip uploadsDir (decimal now)
           (decimal rnd +:+ String "-"%char (originalname f))).
  - apply decimal_occurs. reflexivity.
  - apply decimal_occurs. reflexivity.
  - exact Hrest.
Qed.

Lemma upload_then_start_transfer_witness :
  exists st1 up,
    upload 1699999999999 42 (Some (mkUploadedFile "photo.png" "image/png" Demo.content))
           (initial ∅) = (st1, upload_done up) /\
    up_name up = "photo.png" /\
    exists info,
      (start_transfer "s1" (up_id up) "s2" st1).2 = [(to_group "s2", transfer_started info)] /\
      fi_id info = up_id up /\
      fi_size info = up_size up /\
      fi_size info = Z.of_nat (length Demo.content) /\
      fi_name info = decimal 42 +:+ "-" +:+ "photo.png".
Proof.
  apply (upload_then_start_transfer 1699999999999 42
           (mkUploadedFile "photo.png" "image/png" Demo.content) (initial ∅) "s1" "s2").
  reflexivity.
Defined.

Example upload_names :
  storage_filename 1699999999999 42 (mkUploadedFile "photo.png" "image/png" [])
  = "1699999999999-42-photo.png".
Proof. reflexivity. Qed.
(** ** What a disconnect leaves alone, and what is left after one *)

Lemma data_step_depends st st' n :
  streams st' = streams st -> activeTransfers st' = activeTransfers st ->
  (snd <$> step st' (StreamData n)) = (snd <$> step st (StreamData n)).
Proof.
  intros Hs Ht. cbn [step]. rewrite Hs.
  destruct (streams st !! n) as [rs|]; [|reflexivity].
  destruct (rs_open rs), (rs_pending rs) as [|c rest]; try reflexivity.
  unfold on_data. simpl. rewrite Ht.
  destruct (activeTransfers st !! rs_socket rs); reflexivity.
Qed.

(** X7: the disconnect of a socket that has no transfer record, a
    receiver for instance, emits nothing and touches neither the records
    nor the streams, the files or the timers: nobody is told, and every
    stream goes on emitting exactly what it would have emitted, also to the
    socket that is gone.  If the socket sits in no room the room table
    stays as it is too. *)
Theorem disconnect_without_record (st : Server) (d : string) :
  activeTransfers st !! d = None ->
  exists st',
    step st (Disconnect d) = Some (st', []) /\
    activeTransfers st' = activeTransfers st /\
    streams st' = streams st /\ uploads st' = uploads st /\ timers st' = timers st /\
    (forall n, (snd <$> step st' (StreamData n)) = (snd <$> step st (StreamData n))) /\
    ((forall k, held_by d (rooms st) k = false) -> rooms st' = rooms st).
Proof.
  intros Hnone. cbn [step]. unfold disconnect. rewrite Hnone.
  eexists. split; [reflexivity|].
  split; [reflexivity|]. split; [reflexivity|].
  split; [reflexivity|]. split; [reflexivity|]. split.
  - intros n. now apply data_step_depends.
  - intros Hfree. simpl. apply cleanup_rooms_none.
    apply Forall_forall. intros k _. apply Hfree.
Qed.

Lemma disconnect_without_record_witness :
  exists st',
    step Demo.started (Disconnect "s2") = Some (st', []) /\
    activeTransfers st' = activeTransfers Demo.started /\
    streams st' = streams Demo.started /\ uploads st' = uploads Demo.started /\
    timers st' = timers Demo.started /\
    (forall n, (snd <$> step st' (StreamData n))
               = (snd <$> step Demo.started (StreamData n))) /\
    ((forall k, held_by "s2" (rooms Demo.started) k = false) ->
     rooms st' = rooms Demo.started).
Proof.
  apply (disconnect_without_record Demo.started "s2").
  vm_compute. reflexivity.
Defined.

(** X8: the [end] listener does not remove the record of the sender.  So
    when a sender disconnects after its transfer has completed, the
    receiver of that transfer is still sent [transfer-cancelled]. *)
Theorem cancelled_after_completion
    (st : Server) (n : nat) (rs : ReadStream) (t : Transfer) :
  streams st !! n = Some rs -> rs_open rs = true -> rs_pending rs = [] ->
  activeTransfers st !! rs_socket rs = Some t ->
  exists st1 st2,
    step st (StreamEnd n) =
      Some (st1, [(to_socket (rs_socket rs), transfer_complete);
                  (to_group (rs_receiverId rs), transfer_complete)]) /\
    activeTransfers st1 !! rs_socket rs = Some t /\
    step st1 (Disconnect (rs_socket rs)) =
      Some (st2, [(to_group (receiverId t), transfer_cancelled)]) /\
    activeTransfers st2 !! rs_socket rs = None.
Proof.
  intros Hn Hopen Hpend Ht. cbn [step]. rewrite Hn, Hopen, Hpend.
  eexists _, _. split; [reflexivity|]. split; [exact Ht|].
  unfold disconnect. cbn [on_end fst activeTransfers with_timers with_streams set_stream].
  rewrite Ht. split; [reflexivity|]. simpl. apply lookup_delete_eq.
Qed.

Lemma cancelled_after_completion_witness :
  exists st1 st2,
    step Demo.delivered (StreamEnd 0) =
      Some (st1, [(to_socket "s1", transfer_complete); (to_group "s2", transfer_complete)]) /\
    activeTransfers st1 !! "s1" = Some (mkTransfer Demo.fid "s2" Demo.path 5 5) /\
    step st1 (Disconnect "s1") = Some (st2, [(to_group "s2", transfer_cancelled)]) /\
    activeTransfers st2 !! "s1" = None.
Proof.
  apply (cancelled_after_completion Demo.delivered 0
           (mkReadStream "s1" Demo.fid "s2" Demo.path 5 [] true)
           (mkTransfer Demo.fid "s2" Demo.path 5 5)).
  - vm_compute. reflexivity.
  - reflexivity.
  - reflexivity.
  - vm_compute. reflexivity.
Defined.

(** X15: the record is shared by all streams of a socket.  When a sender
    has two transfers running and one of them hits a read error, the error
    listener deletes the record, and the next [data] event of the other
    stream throws. *)
Theorem sibling_error_stops_server
    (st : Server) (n m : nat) (rn rm : ReadStream)
    (chunk : list Byte.byte) (rest : list (list Byte.byte)) :
  n <> m ->
  streams st !! n = Some rn -> rs_open rn = true ->
  streams st !! m = Some rm -> rs_open rm = true -> rs_pending rm = chunk :: rest ->
  rs_socket rn = rs_socket rm ->
  exists st',
    step st (StreamError n) =
      Some (st', [(to_socket (rs_socket rn), transfer_error "Error reading file");
                  (to_group (rs_receiverId rn), transfer_error "Error transferring file")]) /\
    step st' (StreamData m) = None.
Proof.
  intros Hnm Hn Hon Hm Hom Hpend Hsock. cbn [step]. rewrite Hn, Hon.
  eexists. split; [reflexivity|].
  cbn [on_error fst streams with_transfers with_streams set_stream].
  rewrite list_lookup_insert_ne by exact Hnm. rewrite Hm, Hom, Hpend.
  unfold on_data. simpl. now rewrite <- Hsock, lookup_delete_eq.
Qed.

Lemma sibling_error_stops_server_witness :
  exists st',
    step (start_transfer "s1" Demo.fid "s3" Demo.started).1 (StreamError 0) =
      Some (st', [(to_socket "s1", transfer_error "Error reading file");
                  (to_group "s2", transfer_error "Error transferring file")]) /\
    step st' (StreamData 1) = None.
Proof.
  apply (sibling_error_stops_server (start_transfer "s1" Demo.fid "s3" Demo.started).1
           0 1 Demo.stream0
           (mkReadStream "s1" Demo.fid "s3" Demo.path 5 [Demo.content] true)
           Demo.content []).
  - discriminate.
  - vm_compute. reflexivity.
  - reflexivity.
  - vm_compute. reflexivity.
  - reflexivity.
  - reflexivity.
  - reflexivity.
Defined.

(** ** Files and timers *)




Lemma step_uploads st i st' out :
  step st i = Some (st', out) ->
  uploads st' ⊆ uploads st /\ ((forall n, i <> Timeout n) -> uploads st' = uploads st).
Proof.
  intros Hstep.
  assert (Hsame : uploads st' = uploads st ->
            uploads st' ⊆ uploads st /\
            ((forall n, i <> Timeout n) -> uploads st' = uploads st)).
  { intros E. rewrite E. split; [reflexivity | auto]. }
  destruct i as [id r'|id fid rid|bad|id|n|n|n|n]; cbn [step] in Hstep.
  3: discriminate.
  - injection Hstep as Hstep. apply (f_equal fst) in Hstep. cbn [fst] in Hstep.
    apply Hsame. rewrite <- Hstep. apply join_room_frame_fields.
  - injection Hstep as Hstep. apply (f_equal fst) in Hstep. cbn [fst] in Hstep.
    apply Hsame. rewrite <- Hstep.
    destruct (start_transfer_cases st id fid rid) as [-> | (size & chunks & ->)];
      reflexivity.
  - destruct (disconnect id st) as [st0 out0] eqn:Hd.
    injection Hstep as <- _. apply Hsame.
    apply (f_equal fst) in Hd. cbn [fst] in Hd. rewrite <- Hd.
    unfold disconnect. destruct (activeTransfers st !! id); reflexivity.
  - destruct (streams st !! n) as [rs|]; [|injection Hstep as <- _; now apply Hsame].
    destruct (rs_open rs), (rs_pending rs) as [|c rest];
      try (injection Hstep as <- _; now apply Hsame).
    apply Hsame. unfold on_data in Hstep.
    destruct (activeTransfers _ !! rs_socket rs); [|discriminate].
    injection Hstep as <- _. reflexivity.
  - destruct (streams st !! n) as [rs|]; [|injection Hstep as <- _; now apply Hsame].
    destruct (rs_open rs), (rs_pending rs) as [|c rest];
      injection Hstep as <- _; now apply Hsame.
  - destruct (streams st !! n) as [rs|]; [|injection Hstep as <- _; now apply Hsame].
    destruct (rs_open rs); injection Hstep as <- _; now apply Hsame.
  - destruct (timers st !! n) as [path|]; injection Hstep as <- _;
      [|now apply Hsame].
    split.
    + simpl. apply delete_subseteq.
    + intros Hno. exfalso. now apply (Hno n).
Qed.

(** X10: no handler of the socket protocol creates or changes a file.
    Over any run the upload directory can only lose files, and it loses
    none unless a timer fires. *)
Theorem uploads_only_shrink (st st' : Server) (ins : list Input) :
  run st ins = Some st' ->
  uploads st' ⊆ uploads st /\
  (Forall (fun i => forall n, i <> Timeout n) ins -> uploads st' = uploads st).
Proof.
  revert st. induction ins as [|i ins IH]; intros st Hrun.
  - injection Hrun as <-. split; [reflexivity | auto].
  - simpl in Hrun. destruct (step st i) as [[st1 out]|] eqn:Hstep; [|discriminate].
    destruct (step_uploads _ _ _ _ Hstep) as [Hsub Heq].
    destruct (IH st1 Hrun) as [Hsub' Heq'].
    split.
    + etrans; eassumption.
    + intros Hall. apply Forall_cons in Hall. destruct Hall as [Hi Hrest].
      rewrite (Heq' Hrest). now apply Heq.
Qed.

Lemma uploads_only_shrink_witness :
  uploads Demo.delivered ⊆ uploads Demo.started /\
  (Forall (fun i => forall n, i <> Timeout n) [StreamData 0] ->
   uploads Demo.delivered = uploads Demo.started).
Proof.
  apply (uploads_only_shrink Demo.started Demo.delivered [StreamData 0]).
  vm_compute. reflexivity.
Defined.
(** ** Rooms over a whole run *)

Lemma rooms_set_ok k r rs : rooms_ok rs -> room_ok r -> rooms_ok (rooms_set k r rs).
Proof.
  intros Hrs Hr. induction Hrs as [|[k' r'] rs Hk Hrs IH]; simpl.
  - constructor; [exact Hr | constructor].
  - destruct (String.eqb k' k); constructor; assumption.
Qed.

Lemma rooms_delete_ok k rs : rooms_ok rs -> rooms_ok (rooms_delete k rs).
Proof.
  intros Hrs. induction Hrs as [|[k' r'] rs Hk _ IH]; simpl; [constructor|].
  destruct (String.eqb k' k); [exact IH | now constructor].
Qed.

Lemma rooms_get_ok k r rs : rooms_ok rs -> rooms_get k rs = Some r -> room_ok r.
Proof.
  intros Hrs. induction Hrs as [|[k' r'] rs Hk _ IH]; simpl; [discriminate|].
  destruct (String.eqb k' k); [intros [= <-]; exact Hk | exact IH].
Qed.

Lemma empty_room_ok : room_ok empty_room.
Proof. split; [reflexivity | intros H; now elim H]. Qed.

Lemma join_room_ok id r st : rooms_ok (rooms st) -> rooms_ok (rooms (join_room id r st).1).
Proof.
  intros Hok.
  destruct (join_room_rooms_cases id r st)
    as [-> | [(room0 & Hget & Hs & ->) | [(room0 & Hget & Hs & Hr & ->) | (Hget & ->)]]].
  - exact Hok.
  - destruct (rooms_get_ok _ _ _ Hok Hget) as [Hfid Hrecv].
    apply rooms_set_ok; [exact Hok|]. split; [exact Hfid|].
    simpl. intros Hsome. specialize (Hrecv Hsome). congruence.
  - destruct (rooms_get_ok _ _ _ Hok Hget) as [Hfid Hrecv].
    apply rooms_set_ok; [exact Hok|]. split; [exact Hfid | intros _; exact Hs].
  - apply rooms_set_ok; [exact Hok|]. split; [reflexivity | intros H; now elim H].
Qed.

Lemma step_rooms_ok st i st' out :
  rooms_ok (rooms st) -> step st i = Some (st', out) -> rooms_ok (rooms st').
Proof.
  intros Hok Hstep.
  destruct i as [id r'|id fid rid|bad|id|n|n|n|n]; cbn [step] in Hstep.
  3: discriminate.
  - state_of Hstep. now apply join_room_ok.
  - state_of Hstep. now rewrite start_transfer_rooms.
  - destruct (disconnect id st) as [st0 out0] eqn:Hd.
    injection Hstep as <- _. simpl.
    change st0 with (st0, out0).1. rewrite <- Hd, disconnect_rooms.
    destruct (cleanup_rooms_cases id (for_in_keys (rooms st)) (rooms st))
      as [-> | (k & _ & ->)]; [exact Hok | now apply rooms_delete_ok].
  - destruct (streams st !! n) as [rs|]; [|injection Hstep as <- _; exact Hok].
    destruct (rs_open rs), (rs_pending rs) as [|c rest];
      try (injection Hstep as <- _; exact Hok).
    apply on_data_rooms in Hstep. now rewrite Hstep.
  - destruct (streams st !! n) as [rs|]; [|injection Hstep as <- _; exact Hok].
    destruct (rs_open rs), (rs_pending rs) as [|c rest];
      injection Hstep as <- _; exact Hok.
  - destruct (streams st !! n) as [rs|]; [|injection Hstep as <- _; exact Hok].
    destruct (rs_open rs); injection Hstep as <- _; exact Hok.
  - destruct (timers st !! n); injection Hstep as <- _; exact Hok.
Qed.

(** X11: an invariant of the room table.  Whatever the clients and the
    streams do, every room keeps [fileId: null] (no handler ever writes the
    slot), and no room has a receiver without having a sender; rooms start
    that way and are only ever deleted whole. *)
Theorem rooms_stay_well_formed (st st' : Server) (ins : list Input) :
  rooms_ok (rooms st) -> run st ins = Some st' -> rooms_ok (rooms st').
Proof.
  revert st. induction ins as [|i ins IH]; intros st Hok Hrun.
  - injection Hrun as <-. exact Hok.
  - simpl in Hrun. destruct (step st i) as [[st1 out]|] eqn:Hstep; [|discriminate].
    eapply IH; [|exact Hrun]. eapply step_rooms_ok; eassumption.
Qed.

Lemma rooms_stay_well_formed_witness : rooms_ok (rooms Demo.before_third).
Proof.
  apply (rooms_stay_well_formed Demo.st0 Demo.before_third
           (JoinRoom "s1" "ABC123" :: Demo.mid1 ++ JoinRoom "s2" "ABC123" :: Demo.mid2)).
  - constructor.
  - vm_compute. reflexivity.
Defined.

(** X12: membership in the Socket.IO group of a room follows the answer
    to the join.  A socket that is given a role is in the group afterwards;
    a socket that is told [room-full] is not, not even if it was in the
    group before, as the sender or the receiver of that very room is.
    No other membership changes. *)
Theorem join_group_membership (id r : string) (st : Server) :
  (((exists role, (join_room id r st).2 = [(to_socket id, room_joined role r)] \/
                  exists peer, (join_room id r st).2 =
                                 [(to_socket id, room_joined role r);
                                  (to_group peer, user_joined id)])
    /\ ((r, id) ∈ groups (join_room id r st).1))
   \/
   ((join_room id r st).2 = [(to_socket id, room_full)]
    /\ ((r, id) ∉ groups (join_room id r st).1)
    /\ rooms (join_room id r st).1 = rooms st))
  /\ forall p, p <> (r, id) ->
       ((p ∈ groups (join_room id r st).1) <-> (p ∈ groups st)).
Proof.
  unfold join_room, get_sender, get_receiver, set_sender, set_receiver. cbv zeta.
  destruct (value_truthy (rooms_index r st));
    [ destruct (rooms_index r st)
    | rewrite !rooms_index_set;
      cbn [sender receiver room_fileId empty_room Js.truthy negb] ];
    repeat match goal with
           | |- context [negb (Js.truthy ?v)] => destruct (negb (Js.truthy v))
           | |- context [match ?m !! ?k with _ => _ end] => destruct (m !! k)
           end;
    cbn [fst snd groups rooms with_groups with_rooms with_prototype];
    (split;
     [ first
         [ left; split;
           [ eexists; first [left; reflexivity | right; eexists; reflexivity]
           | apply elem_of_union; left; now apply elem_of_singleton ]
         | right; split; [reflexivity|]; split; [|reflexivity];
           intros Hin; apply elem_of_difference in Hin;
           destruct Hin as [_ Hin]; apply Hin; now apply elem_of_singleton ]
     | intros p Hp;
       rewrite ?elem_of_difference, ?elem_of_union, ?elem_of_singleton; tauto ]).
Qed.

(** A sender that asks to join its own full room again loses its group
    membership and keeps its slot. *)
Example rejoin_full_room :
  (join_room "s1" "ABC123" Demo.paired).2 = [(to_socket "s1", room_full)] /\
  (("ABC123", "s1") ∈ groups Demo.paired) /\
  (("ABC123", "s1") ∉ groups (join_room "s1" "ABC123" Demo.paired).1) /\
  rooms_get "ABC123" (rooms (join_room "s1" "ABC123" Demo.paired).1)
    = Some (mkRoom (Some "s1") (Some "s2") None).
Proof.
  split; [vm_compute; reflexivity|]. split; [vm_compute; reflexivity|].
  split; [|vm_compute; reflexivity].
  intros H. vm_compute in H. discriminate.
Qed.

(** X16: a join concerns one room code only, unless the code is
    [__proto__].  For every other code it leaves [rooms[code]], its sender
    and its receiver as they are; and no join touches a transfer record, a
    stream, a file, a directory or a timer.  (A join of [__proto__] writes
    on [Object.prototype], which every code without a room of its own
    reads: see [proto_join_changes_other_codes].) *)
Theorem join_room_frame (id r : string) (st : Server) :
  r <> "__proto__" ->
  (forall r', r' <> r ->
     rooms_index r' (join_room id r st).1 = rooms_index r' st /\
     get_sender r' (join_room id r st).1 = get_sender r' st /\
     get_receiver r' (join_room id r st).1 = get_receiver r' st) /\
  activeTransfers (join_room id r st).1 = activeTransfers st /\
  streams (join_room id r st).1 = streams st /\
  uploads (join_room id r st).1 = uploads st /\
  dirs (join_room id r st).1 = dirs st /\
  timers (join_room id r st).1 = timers st.
Proof.
  intros Hproto.
  split; [|pose proof (join_room_frame_fields id r st); tauto].
  intros r' Hne.
  assert (Hget : rooms_get r' (rooms (join_room id r st).1) = rooms_get r' (rooms st))
    by (apply join_room_other; congruence).
  assert (Hp : proto_sender (prototype (join_room id r st).1) = proto_sender (prototype st) /\
               proto_receiver (prototype (join_room id r st).1) = proto_receiver (prototype st) /\
               fn_sender (prototype (join_room id r st).1) !! r'
                 = fn_sender (prototype st) !! r' /\
               fn_receiver (prototype (join_room id r st).1) !! r'
                 = fn_receiver (prototype st) !! r').
  { unfold join_room, get_sender, get_receiver, set_sender, set_receiver. cbv zeta.
    destruct (value_truthy (rooms_index r st));
      [ destruct (rooms_index r st) as [room0| |f|v|] eqn:Hidx
      | rewrite !rooms_index_set;
        cbn [sender receiver room_fileId empty_room Js.truthy negb] ];
      repeat match goal with
             | |- context [negb (Js.truthy ?v)] => destruct (negb (Js.truthy v))
             | |- context [match ?m !! ?k with _ => _ end] => destruct (m !! k)
             end;
      cbn [fst prototype with_groups with_rooms with_prototype
           proto_sender proto_receiver fn_sender fn_receiver];
      try (repeat split; reflexivity).
    all: try (exfalso; unfold rooms_index, inherited_value in Hidx;
              destruct (rooms_get r (rooms st)); [discriminate|];
              destruct (String.eqb r "__proto__") eqn:E;
              [apply String.eqb_eq in E; contradiction|];
              repeat match type of Hidx with
                     | context [if ?b then _ else _] => destruct b
                     | context [match ?x with Some _ => _ | None => _ end] => destruct x
                     end; discriminate).
    all: assert (f = r) by
        (unfold rooms_index, inherited_value in Hidx;
         destruct (rooms_get r (rooms st)); [discriminate|];
         repeat match type of Hidx with
                | context [if ?b then _ else _] => destruct b
                | context [match ?x with Some _ => _ | None => _ end] => destruct x
                end; congruence);
      subst f; repeat split; try reflexivity;
      rewrite lookup_insert_ne by congruence; reflexivity. }
  destruct Hp as (Hps & Hpr & Hfs & Hfr).
  assert (Hidx : rooms_index r' (join_room id r st).1 = rooms_index r' st).
  { unfold rooms_index, inherited_value. now rewrite Hget, Hps, Hpr. }
  split; [exact Hidx|].
  unfold get_sender, get_receiver. rewrite Hidx, Hps, Hpr.
  destruct (rooms_index r' st) as [room0| |f|v|] eqn:E; try (split; reflexivity).
  assert (f = r').
  { unfold rooms_index, inherited_value in E.
    destruct (rooms_get r' (rooms st)); [discriminate|].
    repeat match type of E with
           | context [if ?b then _ else _] => destruct b
           | context [match ?x with Some _ => _ | None => _ end] => destruct x
           end; congruence. }
  subst f. now rewrite Hfs, Hfr.
Qed.

Lemma join_room_frame_witness :
  (forall r', r' <> "ZZZ" ->
     rooms_index r' (join_room "s3" "ZZZ" Demo.paired).1 = rooms_index r' Demo.paired /\
     get_sender r' (join_room "s3" "ZZZ" Demo.paired).1 = get_sender r' Demo.paired /\
     get_receiver r' (join_room "s3" "ZZZ" Demo.paired).1 = get_receiver r' Demo.paired) /\
  activeTransfers (join_room "s3" "ZZZ" Demo.paired).1 = activeTransfers Demo.paired /\
  streams (join_room "s3" "ZZZ" Demo.paired).1 = streams Demo.paired /\
  uploads (join_room "s3" "ZZZ" Demo.paired).1 = uploads Demo.paired /\
  dirs (join_room "s3" "ZZZ" Demo.paired).1 = dirs Demo.paired /\
  timers (join_room "s3" "ZZZ" Demo.paired).1 = timers Demo.paired.
Proof.
  apply (join_room_frame "s3" "ZZZ" Demo.paired). discriminate.
Defined.

(** A join of [__proto__] is seen under other codes: before it
    [rooms["sender"]] is undefined, after it it is the id of the joiner,
    and the code [sender] has a sender without anyone having joined it. *)
Example proto_join_changes_other_codes :
  rooms_index "sender" (initial ∅) = no_value /\
  rooms_index "sender" (join_room "s1" "__proto__" (initial ∅)).1 = inherited_string "s1" /\
  get_sender "sender" (join_room "s1" "__proto__" (initial ∅)).1 = Some "s1" /\
  rooms (join_room "s1" "__proto__" (initial ∅)).1 = [].
Proof. repeat split. Qed.

(** ** A room code after its room was torn down *)

Lemma cleanup_rooms_only id r rs :
  held_by id rs r = true ->
  (forall k, k <> r -> held_by id rs k = false) ->
  cleanup_rooms id (for_in_keys rs) rs = rooms_delete r rs.
Proof.
  intros Hr Hothers.
  destruct (split_first_match (held_by id rs) (for_in_keys rs))
    as [Hnone | (pre & k & post & Hkeys & Hpre & Hk)].
  - exfalso. destruct (held_by_some _ _ _ Hr) as (room & Hget & _).
    assert (Hin : r ∈ for_in_keys rs).
    { apply list_elem_of_In, for_in_keys_complete. eapply rooms_get_in; eassumption. }
    rewrite Forall_forall in Hnone. specialize (Hnone r Hin). congruence.
  - rewrite Hkeys, (cleanup_rooms_first id pre k post rs Hpre Hk).
    destruct (decide (k = r)) as [->|Hne]; [reflexivity|].
    rewrite (Hothers k Hne) in Hk. discriminate.
Qed.

Lemma disconnect_prototype id st : prototype (disconnect id st).1 = prototype st.
Proof. unfold disconnect. destruct (activeTransfers st !! id); reflexivity. Qed.

(** X17: the disconnect of either occupant deletes the room with both
    slots, so a room code that names nothing on the prototype chain is new
    again: the next socket to join it gets a fresh room and the role
    [sender], and the occupant that stayed connected is in no slot of it.
    (The disconnecting socket is assumed to sit in this room only.) *)
Theorem room_code_reusable_after_disconnect
    (st : Server) (r d c : string) :
  held_by d (rooms st) r = true ->
  (forall k, k <> r -> held_by d (rooms st) k = false) ->
  inherited_value r (prototype st) = no_value ->
  exists st1 out,
    step st (Disconnect d) = Some (st1, out) /\
    rooms_index r st1 = no_value /\
    (join_room c r st1).2 = [(to_socket c, room_joined "sender" r)] /\
    rooms_get r (rooms (join_room c r st1).1) = Some (mkRoom (Some c) None None).
Proof.
  intros Hr Hothers Hplain. cbn [step].
  destruct (disconnect d st) as [st0 out0] eqn:Hd.
  eexists _, _. split; [reflexivity|].
  assert (Hgone : rooms_index r (leave_all d st0) = no_value).
  { unfold rooms_index. cbn [rooms prototype leave_all with_groups].
    change st0 with (st0, out0).1. rewrite <- Hd, disconnect_rooms, disconnect_prototype.
    rewrite (cleanup_rooms_only d r (rooms st) Hr Hothers).
    now rewrite rooms_get_delete_eq. }
  split; [exact Hgone|]. now apply join_room_first.
Qed.

Lemma room_code_reusable_after_disconnect_witness :
  exists st1 out,
    step Demo.paired (Disconnect "s2") = Some (st1, out) /\
    rooms_index "ABC123" st1 = no_value /\
    (join_room "s3" "ABC123" st1).2 = [(to_socket "s3", room_joined "sender" "ABC123")] /\
    rooms_get "ABC123" (rooms (join_room "s3" "ABC123" st1).1)
      = Some (mkRoom (Some "s3") None None).
Proof.
  apply (room_code_reusable_after_disconnect Demo.paired "ABC123" "s2" "s3").
  - vm_compute. reflexivity.
  - intros k Hk. unfold held_by.
    replace (rooms Demo.paired)
      with [("ABC123", mkRoom (Some "s1") (Some "s2") None)]
      by (vm_compute; reflexivity).
    cbn [rooms_get].
    destruct (String.eqb "ABC123" k) eqn:Ek; [|reflexivity].
    apply String.eqb_eq in Ek. congruence.
  - vm_compute. reflexivity.
Defined.

(** A code that names a member of [Object.prototype] never gets a room of
    its own: the first joiner of [constructor] is written on the built-in
    function, its disconnect deletes nothing, and the next joiner is the
    receiver. *)
Example inherited_code_not_reusable :
  trace (initial ∅)
        [JoinRoom "s1" "constructor"; Disconnect "s1"; JoinRoom "s2" "constructor"] =
    [(JoinRoom "s1" "constructor", [(to_socket "s1", room_joined "sender" "constructor")]);
     (Disconnect "s1", []);
     (JoinRoom "s2" "constructor",
      [(to_socket "s2", room_joined "receiver" "constructor");
       (to_group "s1", user_joined "s2")])] /\
  (rooms <$> run (initial ∅)
                 [JoinRoom "s1" "constructor"; Disconnect "s1";
                  JoinRoom "s2" "constructor"]) = Some [].
Proof. split; vm_compute; reflexivity. Qed.
(** ** The bytes that reach the receiver *)

Lemma chunks_of_ok (data : list Byte.byte) :
  Forall chunk_ok (chunks_of highWaterMark data).
Proof.
  apply Forall_and. split.
  - apply chunks_fuel_nonempty. unfold highWaterMark. lia.
  - apply chunks_fuel_bound.
Qed.

Lemma chunks_of_concat (data : list Byte.byte) :
  concat (chunks_of highWaterMark data) = data.
Proof. apply chunks_fuel_concat; [unfold highWaterMark; lia | lia]. Qed.

Lemma step_relay n content done st i st' out :
  relay_inv n content done st -> step st i = Some (st', out) ->
  relay_inv n content
    (done ++ concat (chunks_emitted (if decide (stream_of i = Some n) then out else [])))
    st' /\
  Forall chunk_ok (chunks_emitted (if decide (stream_of i = Some n) then out else [])).
Proof.
  intros (Hpre & rs & Hn & Hok & Hlive) Hstep.
  destruct (decide (stream_of i = Some n)) as [Hi|Hi].
  2:{ simpl. rewrite app_nil_r. split; [|constructor].
      split; [exact Hpre|]. exists rs. split; [|auto].
      eapply step_stream_other; eassumption. }
  assert (Hnoop : st' = st -> out = [] ->
            relay_inv n content (done ++ concat (chunks_emitted out)) st' /\
            Forall chunk_ok (chunks_emitted out)).
  { intros -> ->. simpl. rewrite app_nil_r. split; [|constructor].
    split; [exact Hpre|]. exists rs. auto. }
  assert (Hclosed : forall st1,
            streams st1 !! n = Some (close_stream rs) ->
            relay_inv n content (done ++ []) st1).
  { intros st1 H1. rewrite app_nil_r. split; [exact Hpre|].
    exists (close_stream rs). split; [exact H1|]. split; [exact Hok | discriminate]. }
  destruct i as [id r'|id fid rid|bad|id|m|m|m|m]; try discriminate;
    injection Hi as ->; cbn [step] in Hstep; rewrite Hn in Hstep.
  - destruct (rs_open rs) eqn:Hopen; [|injection Hstep as <- <-; now apply Hnoop].
    destruct (rs_pending rs) as [|c rest] eqn:Hpend;
      [injection Hstep as <- <-; now apply Hnoop|].
    unfold on_data in Hstep.
    destruct (activeTransfers _ !! rs_socket rs) as [t|]; [|discriminate].
    injection Hstep as <- <-.
    specialize (Hlive eq_refl). simpl in Hlive.
    apply Forall_cons in Hok. destruct Hok as [Hc Hok].
    change (chunks_emitted _) with [c]. simpl. rewrite app_nil_r.
    split; [|constructor; [exact Hc | constructor]].
    split.
    + exists (concat rest). rewrite <- Hlive. now rewrite app_assoc.
    + exists (set_pending rs rest). simpl. split.
      * apply list_lookup_insert_eq. eapply lookup_lt_Some; eassumption.
      * split; [exact Hok|]. intros _. rewrite <- Hlive. now rewrite app_assoc.
  - destruct (rs_open rs) eqn:Hopen; [|injection Hstep as <- <-; now apply Hnoop].
    destruct (rs_pending rs) as [|c rest] eqn:Hpend;
      [|injection Hstep as <- <-; now apply Hnoop].
    injection Hstep as <- <-. split; [|constructor].
    apply Hclosed. simpl.
    apply list_lookup_insert_eq. eapply lookup_lt_Some; eassumption.
  - destruct (rs_open rs) eqn:Hopen; [|injection Hstep as <- <-; now apply Hnoop].
    injection Hstep as <- <-. split; [|constructor].
    apply Hclosed. simpl.
    apply list_lookup_insert_eq. eapply lookup_lt_Some; eassumption.
Qed.

Lemma trace_relay n content ins : forall st done,
  relay_inv n content done st ->
  (done ++ concat (chunks_emitted (session_out n (trace st ins)))) `prefix_of` content /\
  Forall chunk_ok (chunks_emitted (session_out n (trace st ins))) /\
  forall st', run st ins = Some st' ->
    relay_inv n content
      (done ++ concat (chunks_emitted (session_out n (trace st ins)))) st'.
Proof.
  induction ins as [|i ins IH]; intros st done Hinv.
  - simpl. rewrite app_nil_r. split; [apply Hinv|]. split; [constructor|].
    intros st' [= <-]. exact Hinv.
  - simpl. destruct (step st i) as [[st1 out]|] eqn:Hstep.
    2:{ simpl. rewrite app_nil_r. split; [apply Hinv|].
        split; [constructor | discriminate]. }
    rewrite session_out_cons, chunks_emitted_app, concat_app, app_assoc.
    destruct (step_relay _ _ _ _ _ _ _ Hinv Hstep) as [Hinv1 Hok1].
    destruct (IH st1 _ Hinv1) as (Hpre & Hok & Hrun).
    split; [exact Hpre|]. split; [|exact Hrun].
    apply Forall_app. split; assumption.
Qed.

Lemma start_relay_inv st s fid rid content :
  uploads st !! Path.join uploadsDir fid = Some content ->
  relay_inv (length (streams st)) content [] (start_transfer s fid rid st).1.
Proof.
  intros Hfile. split; [apply prefix_nil|].
  rewrite (start_transfer_stream st s fid rid content Hfile).
  eexists. split; [reflexivity|]. simpl.
  split; [apply chunks_of_ok|]. intros _. apply chunks_of_concat.
Qed.

(** X5: the receiver is sent the file, in order and without gaps.  At
    every moment of every run the chunks that the stream of a transfer has
    emitted in [file-chunk] messages, put end to end, are an initial part
    of the file; no chunk is empty or longer than 64 KiB; and once the
    stream has nothing left to deliver they are the file.  This holds
    whatever else happens, also when the sender starts further
    transfers. *)
Theorem relay_in_order
    (st : Server) (s fid rid : string) (content : list Byte.byte) (ins : list Input) :
  uploads st !! Path.join uploadsDir fid = Some content ->
  concat (chunks_emitted (session_out (length (streams st))
                                      (trace (start_transfer s fid rid st).1 ins)))
    `prefix_of` content /\
  Forall chunk_ok
    (chunks_emitted (session_out (length (streams st))
                                 (trace (start_transfer s fid rid st).1 ins))) /\
  forall st2 rs,
    run (start_transfer s fid rid st).1 ins = Some st2 ->
    streams st2 !! length (streams st) = Some rs ->
    rs_open rs = true -> rs_pending rs = [] ->
    concat (chunks_emitted (session_out (length (streams st))
                                        (trace (start_transfer s fid rid st).1 ins)))
      = content.
Proof.
  intros Hfile.
  destruct (trace_relay _ _ ins _ _ (start_relay_inv st s fid rid content Hfile))
    as (Hpre & Hok & Hrun).
  split; [exact Hpre|]. split; [exact Hok|].
  intros st2 rs Hrun2 Hn Hopen Hpend.
  destruct (Hrun st2 Hrun2) as (_ & rs2 & Hn2 & _ & Hlive).
  assert (rs2 = rs) by congruence. subst rs2.
  specialize (Hlive Hopen). rewrite Hpend in Hlive. simpl in Hlive.
  now rewrite app_nil_r in Hlive.
Qed.

Lemma relay_in_order_witness :
  concat (chunks_emitted (session_out (length (streams Demo.paired))
            (trace (start_transfer "s1" Demo.fid "s2" Demo.paired).1 [StreamData 0])))
    `prefix_of` Demo.content /\
  Forall chunk_ok
    (chunks_emitted (session_out (length (streams Demo.paired))
       (trace (start_transfer "s1" Demo.fid "s2" Demo.paired).1 [StreamData 0]))) /\
  forall st2 rs,
    run (start_transfer "s1" Demo.fid "s2" Demo.paired).1 [StreamData 0] = Some st2 ->
    streams st2 !! length (streams Demo.paired) = Some rs ->
    rs_open rs = true -> rs_pending rs = [] ->
    concat (chunks_emitted (session_out (length (streams Demo.paired))
              (trace (start_transfer "s1" Demo.fid "s2" Demo.paired).1 [StreamData 0])))
      = Demo.content.
Proof.
  apply (relay_in_order Demo.paired "s1" Demo.fid "s2" Demo.content [StreamData 0]).
  vm_compute. reflexivity.
Defined.

(** ** The byte count of a record *)

Lemma record_grows_trans s st1 st2 st3 :
  record_grows s st1 st2 -> record_grows s st2 st3 -> record_grows s st1 st3.
Proof.
  intros H12 H23 t3 Ht3.
  destruct (H23 t3 Ht3) as (t2 & Ht2 & Hle2 & Htot2).
  destruct (H12 t2 Ht2) as (t1 & Ht1 & Hle1 & Htot1).
  exists t1. split; [exact Ht1|]. split; [lia | congruence].
Qed.

(** X13: the byte count of a sender never goes down.  For as long as a
    sender sends no further [start-transfer], a record found for it at the
    end of a run continues a record that was there at the beginning, with
    the same [totalBytes] and with a [sentBytes] that is not smaller; a
    record that is gone does not come back by itself. *)
Theorem sent_bytes_never_decrease
    (s : string) (st st' : Server) (ins : list Input) (t' : Transfer) :
  Forall (no_restart s) ins -> run st ins = Some st' ->
  activeTransfers st' !! s = Some t' ->
  exists t, activeTransfers st !! s = Some t /\
            sentBytes t <= sentBytes t' /\ totalBytes t' = totalBytes t.
Proof.
  intros Hall Hrun. revert t'. change (record_grows s st st').
  revert st Hrun. induction ins as [|i ins IH]; intros st Hrun.
  - injection Hrun as <-. now apply record_grows_refl.
  - apply Forall_cons in Hall. destruct Hall as [Hi Hrest].
    simpl in Hrun. destruct (step st i) as [[st1 out]|] eqn:Hstep; [|discriminate].
    eapply record_grows_trans; [eapply step_record_grows; eassumption|].
    now apply IH.
Qed.

Lemma sent_bytes_never_decrease_witness :
  exists t, activeTransfers Demo.started !! "s1" = Some t /\
            sentBytes t <= sentBytes (mkTransfer Demo.fid "s2" Demo.path 5 5) /\
            totalBytes (mkTransfer Demo.fid "s2" Demo.path 5 5) = totalBytes t.
Proof.
  apply (sent_bytes_never_decrease "s1" Demo.started Demo.delivered [StreamData 0]).
  - repeat constructor.
  - vm_compute. reflexivity.
  - vm_compute. reflexivity.
Defined.

Lemma others_closed_same s n st st' :
  others_closed s n st -> streams st' = streams st -> others_closed s n st'.
Proof. intros H E. unfold others_closed. now rewrite E. Qed.

Lemma others_closed_insert s n st st' m r1 :
  others_closed s n st ->
  streams st' = <[m := r1]> (streams st) ->
  (m <> n -> rs_socket r1 = s -> rs_open r1 = false) ->
  others_closed s n st'.
Proof.
  intros H E Hr m' rs' Hm' Hlook Hown. rewrite E in Hlook.
  apply list_lookup_insert_Some in Hlook.
  destruct Hlook as [(-> & -> & _) | [Hne Hlook]].
  - now apply Hr.
  - eapply H; eassumption.
Qed.

Lemma others_closed_open s n st m r0 :
  others_closed s n st -> streams st !! m = Some r0 -> m <> n ->
  rs_open r0 = true -> rs_socket r0 <> s.
Proof.
  intros H Hm Hmn Hopen Hown. rewrite (H m r0 Hmn Hm Hown) in Hopen. discriminate.
Qed.

(** A sender with one stream: a step changes its record only by adding
    the chunk that the stream emits in that step. *)
Lemma step_record_single s n st i st' out rs :
  streams st !! n = Some rs -> rs_socket rs = s ->
  others_closed s n st -> no_restart s i ->
  step st i = Some (st', out) ->
  others_closed s n st' /\
  forall t', activeTransfers st' !! s = Some t' ->
    exists t, activeTransfers st !! s = Some t /\ totalBytes t' = totalBytes t /\
      sentBytes t' = sentBytes t +
        total_length (chunks_emitted (if decide (stream_of i = Some n) then out else [])).
Proof.
  intros Hn Hown Hoth Hq Hstep.
  assert (Hsame : forall o,
            activeTransfers st' !! s = activeTransfers st !! s ->
            total_length (chunks_emitted o) = 0 ->
            forall t', activeTransfers st' !! s = Some t' ->
              exists t, activeTransfers st !! s = Some t /\ totalBytes t' = totalBytes t /\
                        sentBytes t' = sentBytes t + total_length (chunks_emitted o)).
  { intros o E Ho t' Ht'. exists t'. rewrite <- E, Ho. repeat split; [exact Ht' | lia]. }
  assert (Hgone : forall o,
            activeTransfers st' !! s = None ->
            forall t', activeTransfers st' !! s = Some t' ->
              exists t, activeTransfers st !! s = Some t /\ totalBytes t' = totalBytes t /\
                        sentBytes t' = sentBytes t + total_length (chunks_emitted o)).
  { intros o E t' Ht'. congruence. }
  assert (Hzero : forall o : list Emit,
            total_length (chunks_emitted
              (if decide (stream_of i = Some n) then @nil Emit else [])) = 0).
  { intros _. destruct (decide _); reflexivity. }
  destruct i as [id r'|id fid rid|bad|id|m|m|m|m]; cbn [step] in Hstep; simpl in Hq.
  3: discriminate.
  - state_of Hstep. destruct (join_room_transfers id r' st) as [Ht Hs]. split.
    + eapply others_closed_same; eassumption.
    + apply Hsame; [now rewrite Ht | reflexivity].
  - state_of Hstep. split.
    + destruct (start_transfer_cases st id fid rid) as [-> | (size & chunks & ->)];
        [exact Hoth|].
      intros m rs' Hm Hlook Hown'. simpl in Hlook.
      apply lookup_app_Some in Hlook. destruct Hlook as [Hlook | [_ Hlook]].
      * eapply Hoth; eassumption.
      * destruct (m - length (streams st))%nat; simpl in Hlook; [|discriminate].
        injection Hlook as <-. simpl in Hown'. contradiction.
    + apply Hsame; [now apply start_transfer_transfers_other | reflexivity].
  - destruct (disconnect id st) as [st0 out0] eqn:Hd.
    injection Hstep as <- <-.
    assert (Hst0 : st0 = (disconnect id st).1) by now rewrite Hd.
    split.
    + eapply others_closed_same; [exact Hoth|]. simpl. rewrite Hst0.
      unfold disconnect. destruct (activeTransfers st !! id); reflexivity.
    + destruct (decide (id = s)) as [->|Hne].
      * apply Hgone. simpl. rewrite Hst0, disconnect_transfers. now rewrite decide_True.
      * apply Hsame; [|reflexivity].
        simpl. rewrite Hst0, disconnect_transfers. now rewrite decide_False.
  - destruct (streams st !! m) as [r0|] eqn:Hm.
    2:{ injection Hstep as <- <-. split; [exact Hoth|].
        apply Hsame; [reflexivity | destruct (decide _); reflexivity]. }
    destruct (rs_open r0) eqn:Hopen.
    2:{ injection Hstep as <- <-. split; [exact Hoth|].
        apply Hsame; [reflexivity | destruct (decide _); reflexivity]. }
    destruct (rs_pending r0) as [|c rest] eqn:Hpend.
    { injection Hstep as <- <-. split; [exact Hoth|].
      apply Hsame; [reflexivity | destruct (decide _); reflexivity]. }
    pose proof (on_data_streams _ _ _ _ _ Hstep) as Hstreams.
    split.
    { eapply others_closed_insert; [exact Hoth | exact Hstreams|].
      intros Hmn Hs. simpl in Hs.
      exfalso. eapply others_closed_open; eassumption. }
    destruct (decide (m = n)) as [->|Hmn].
    + assert (r0 = rs) by congruence. subst r0.
      rewrite decide_True by reflexivity.
      unfold on_data in Hstep. simpl in Hstep. rewrite Hown in Hstep.
      destruct (activeTransfers st !! s) as [t|] eqn:Ht; [|discriminate].
      injection Hstep as <- <-.
      intros t'. simpl. rewrite lookup_insert_eq. intros [= <-].
      exists t. repeat split. simpl. lia.
    + assert (Hown0 : rs_socket r0 <> s) by (eapply others_closed_open; eassumption).
      rewrite decide_False by (simpl; congruence).
      apply Hsame; [|reflexivity].
      apply (on_data_transfers_other _ _ _ _ _ s Hstep Hown0).
  - destruct (streams st !! m) as [r0|] eqn:Hm.
    2:{ injection Hstep as <- <-. split; [exact Hoth|].
        apply Hsame; [reflexivity | destruct (decide _); reflexivity]. }
    destruct (rs_open r0) eqn:Hopen.
    2:{ injection Hstep as <- <-. split; [exact Hoth|].
        apply Hsame; [reflexivity | destruct (decide _); reflexivity]. }
    destruct (rs_pending r0) as [|c rest] eqn:Hpend.
    2:{ injection Hstep as <- <-. split; [exact Hoth|].
        apply Hsame; [reflexivity | destruct (decide _); reflexivity]. }
    injection Hstep as <- <-. split.
    + eapply others_closed_insert; [exact Hoth | reflexivity | reflexivity].
    + apply Hsame; [reflexivity | destruct (decide _); reflexivity].
  - destruct (streams st !! m) as [r0|] eqn:Hm.
    2:{ injection Hstep as <- <-. split; [exact Hoth|].
        apply Hsame; [reflexivity | destruct (decide _); reflexivity]. }
    destruct (rs_open r0) eqn:Hopen.
    2:{ injection Hstep as <- <-. split; [exact Hoth|].
        apply Hsame; [reflexivity | destruct (decide _); reflexivity]. }
    injection Hstep as <- <-. split.
    + eapply others_closed_insert; [exact Hoth | reflexivity | reflexivity].
    + destruct (decide (rs_socket r0 = s)) as [Hs|Hs].
      * apply Hgone. simpl. rewrite Hs. apply lookup_delete_eq.
      * apply Hsame; [|destruct (decide _); reflexivity].
        simpl. now apply lookup_delete_ne.
  - destruct (timers st !! m); injection Hstep as <- <-;
      (split; [exact Hoth | apply Hsame; reflexivity]).
Qed.

Lemma run_record_single s n ins : forall st rs,
  streams st !! n = Some rs -> rs_socket rs = s ->
  others_closed s n st -> Forall (no_restart s) ins ->
  forall st', run st ins = Some st' ->
  forall t', activeTransfers st' !! s = Some t' ->
    exists t, activeTransfers st !! s = Some t /\ totalBytes t' = totalBytes t /\
      sentBytes t' = sentBytes t +
        total_length (chunks_emitted (session_out n (trace st ins))).
Proof.
  induction ins as [|i ins IH]; intros st rs Hn Hown Hoth Hall st' Hrun t' Ht'.
  - injection Hrun as <-. exists t'. simpl. repeat split; [exact Ht' | lia].
  - apply Forall_cons in Hall. destruct Hall as [Hi Hrest].
    simpl in Hrun |- *. destruct (step st i) as [[st1 out]|] eqn:Hstep; [|discriminate].
    destruct (step_record_single _ _ _ _ _ _ _ Hn Hown Hoth Hi Hstep) as [Hoth1 Hrec1].
    destruct (step_streams _ _ _ _ _ _ Hstep Hn) as (rs1 & Hn1 & Hc1).
    assert (Hown1 : rs_socket rs1 = s) by (destruct Hc1 as [Hc1 _]; congruence).
    destruct (IH st1 rs1 Hn1 Hown1 Hoth1 Hrest st' Hrun t' Ht') as (t1 & Ht1 & Htot1 & Hsent1).
    destruct (Hrec1 t1 Ht1) as (t & Ht & Htot & Hsent).
    exists t. split; [exact Ht|]. split; [congruence|].
    rewrite session_out_cons, chunks_emitted_app, total_length_app. lia.
Qed.

(** X14: for a sender that runs one transfer at a time, the record counts
    exactly what was relayed.  If the sender has no other open stream when
    it starts the transfer and sends no further [start-transfer], then in
    every state reached the record of the sender, if it is still there, has
    the size of the file as [totalBytes] and the number of bytes emitted in
    [file-chunk] messages as [sentBytes], which never exceeds
    [totalBytes]. *)
Theorem single_transfer_count
    (st st2 : Server) (s fid rid : string) (content : list Byte.byte)
    (ins : list Input) (t : Transfer) :
  uploads st !! Path.join uploadsDir fid = Some content ->
  (forall m rs, streams st !! m = Some rs -> rs_socket rs = s -> rs_open rs = false) ->
  Forall (no_restart s) ins ->
  run (start_transfer s fid rid st).1 ins = Some st2 ->
  activeTransfers st2 !! s = Some t ->
  totalBytes t = Z.of_nat (length content) /\
  sentBytes t =
    total_length (chunks_emitted (session_out (length (streams st))
                                    (trace (start_transfer s fid rid st).1 ins))) /\
  0 <= sentBytes t <= totalBytes t.
Proof.
  intros Hfile Hclosed Hall Hrun Ht.
  pose proof (start_transfer_stream st s fid rid content Hfile) as Hstream.
  assert (Hoth : others_closed s (length (streams st)) (start_transfer s fid rid st).1).
  { unfold start_transfer. rewrite Hfile. intros m rs' Hm Hlook Hown. simpl in Hlook.
    apply lookup_app_Some in Hlook. destruct Hlook as [Hlook | [Hge Hlook]].
    - eapply Hclosed; eassumption.
    - destruct (m - length (streams st))%nat eqn:E; simpl in Hlook; [lia | discriminate]. }
  destruct (run_record_single s _ ins _ _ Hstream eq_refl Hoth Hall st2 Hrun t Ht)
    as (t0 & Ht0 & Htot & Hsent).
  assert (Et0 : t0 = mkTransfer fid rid (Path.join uploadsDir fid) 0
                                (Z.of_nat (length content))).
  { revert Ht0. unfold start_transfer. rewrite Hfile. simpl.
    rewrite lookup_insert_eq. congruence. }
  subst t0. simpl in Htot, Hsent.
  destruct (trace_relay _ _ ins _ _ (start_relay_inv st s fid rid content Hfile))
    as (Hpre & _ & _).
  simpl in Hpre. apply prefix_length in Hpre.
  rewrite total_length_concat in Hsent.
  split; [exact Htot|]. split; [rewrite Hsent, total_length_concat; lia|]. lia.
Qed.

Lemma single_transfer_count_witness :
  totalBytes (mkTransfer Demo.fid "s2" Demo.path 5 5) = Z.of_nat (length Demo.content) /\
  sentBytes (mkTransfer Demo.fid "s2" Demo.path 5 5) =
    total_length (chunks_emitted (session_out (length (streams Demo.paired))
       (trace (start_transfer "s1" Demo.fid "s2" Demo.paired).1 [StreamData 0]))) /\
  0 <= sentBytes (mkTransfer Demo.fid "s2" Demo.path 5 5)
    <= totalBytes (mkTransfer Demo.fid "s2" Demo.path 5 5).
Proof.
  apply (single_transfer_count Demo.paired Demo.delivered "s1" Demo.fid "s2"
           Demo.content [StreamData 0]).
  - vm_compute. reflexivity.
  - intros m rs H. vm_compute in H. discriminate.
  - repeat constructor.
  - vm_compute. reflexivity.
  - vm_compute. reflexivity.
Defined.

(** With a second [start-transfer] in between the count is no longer the
    number of bytes relayed: the first stream has emitted the whole file,
    the record says one byte. *)
Example restarted_transfer_count :
  total_length (chunks_emitted Overlap.log0) = 65537 /\
  (sentBytes <$> (activeTransfers <$> run Overlap.server Overlap.ins) ≫= (.!! "s1"))
    = Some 1.
Proof. split; vm_compute; reflexivity. Qed.
